(** * Watermill pub/sub adapters: Google Cloud subscriber and NATS publisher

    The development follows the two Go sources
    [message/infrastructure/googlecloud/subscriber.go] and
    [message/infrastructure/nats/publisher.go].

    - [Registry] embeds [Subscriber.subscription], the cache of subscription
      handles guarded by a read/write lock, as a program over the calls it
      makes (lock, map and Pub/Sub client calls), with a sequential
      interpreter and an interleaving semantics for several callers.
    - [Nats] embeds [StreamingPublisher.Publish] as a function of the
      publisher's surroundings.
    - [Lifecycle] embeds [Subscribe], [Close], the receive callback and the
      goroutines [Subscribe] starts, with an interleaving semantics. *)

From stdpp Require Import gmap strings list.

(** ** Errors ([github.com/pkg/errors]) *)

Inductive error : Type :=
| errors_New (msg : string)
| errors_Wrap (cause : error) (msg : string).

(** [errors.Cause]: the innermost error of a chain of wrappers. *)
Fixpoint Cause (e : error) : error :=
  match e with
  | errors_New _ => e
  | errors_Wrap c _ => Cause c
  end.

Definition ErrSubscriberClosed : error := errors_New "subscriber is closed".
Definition ErrSubscriptionDoesNotExist : error := errors_New "subscription does not exist".

(** Modelled from the spec: [ErrTopicDoesNotExist] is declared in the
    package's publisher file, which is not part of the sources at hand; the
    spec calls it a not-found error on the topic. *)
Definition ErrTopicDoesNotExist : error := errors_New "topic does not exist".

(** The "not-found" errors of the spec: a chain whose cause is one of the two
    sentinel values. *)
Definition is_not_found (e : error) : Prop :=
  Cause e = ErrSubscriptionDoesNotExist \/ Cause e = ErrTopicDoesNotExist.

(** ** Two small lemmas *)

Lemma bool_cases (b : bool) : {b = true} + {b = false}.
Proof. destruct b; auto. Qed.


Lemma Forall2_step {A B} (P Q : A -> B -> Prop) l k i x' y' :
  Forall2 P l k -> Q x' y' ->
  (forall j a b, j <> i -> l !! j = Some a -> k !! j = Some b -> P a b -> Q a b) ->
  Forall2 Q (<[ i := x' ]> l) (<[ i := y' ]> k).
Proof.
  intros HF HQ Hoth. apply Forall2_same_length_lookup_2.
  - rewrite !length_insert. by eapply Forall2_length.
  - intros j a b Ha Hb. destruct (decide (j = i)) as [-> | Hne].
    + apply list_lookup_insert_Some in Ha as [(_ & -> & _) | [? _]]; [| done].
      apply list_lookup_insert_Some in Hb as [(_ & -> & _) | [? _]]; [| done]. done.
    + rewrite list_lookup_insert_ne in Ha by done.
      rewrite list_lookup_insert_ne in Hb by done.
      eapply Hoth; eauto. eapply Forall2_lookup_lr; eauto.
Qed.

Lemma forallb_false_lookup {A} (f : A -> bool) (l : list A) :
  forallb f l = false -> exists i x, l !! i = Some x /\ f x = false.
Proof.
  induction l as [| x l IH]; cbn; [done |]. destruct (f x) eqn:Hx; cbn.
  - intros H. destruct (IH H) as (i & y & Hi & Hy). by exists (S i), y.
  - intros _. by exists 0, x.
Qed.

(** ** Programs

    A piece of Go code is embedded as the calls it makes on its surroundings
    (locks, maps, channels, the broker's client) and what it does with each
    answer: [Vis e k] makes the call [e] and goes on as [k x] when the answer
    is [x]. [E X] is the type of the calls answered with an [X]. *)
Inductive program (E : Type -> Type) (R : Type) : Type :=
| Ret (r : R)
| Vis {X : Type} (e : E X) (k : X -> program E R).
Arguments Ret {E R} r.
Arguments Vis {E R X} & e k.

Fixpoint bind {E : Type -> Type} {R S : Type} (p : program E R) (f : R -> program E S)
    : program E S :=
  match p with
  | Ret r => f r
  | Vis e k => Vis e (fun x => bind (k x) f)
  end.

Declare Scope prog_scope.
Delimit Scope prog_scope with prog.
Notation "'let*' x := a 'in' k" := (Vis a (fun x => k))
  (at level 10, x pattern, a at level 100, k at level 200) : prog_scope.
Notation "a ;; k" := (Vis a (fun _ => k))
  (at level 100, right associativity) : prog_scope.

Module Registry.

Section Model.

(** [pubsub.ReceiveSettings] and the fields of [pubsub.SubscriptionConfig]
    other than [Topic] belong to the Pub/Sub client library; they are kept
    abstract. [zeroReceiveSettings] is what a handle carries before line 257
    assigns the configured settings. *)
Context {ReceiveSettingsT SubscriptionOptionsT : Type}.
Context (zeroReceiveSettings : ReceiveSettingsT).

(** A [*pubsub.Subscription]: [None] is the nil pointer; [sub_id] is the
    identity of the pointed object (two handles are the same pointer iff
    their ids agree). *)
Record Subscription : Type := {
  sub_id : nat;
  sub_name : string;
  sub_ReceiveSettings : ReceiveSettingsT;
}.
Definition sub_ptr : Type := option Subscription.

Record Topic : Type := { topic_name : string }.
Definition topic_ptr : Type := option Topic.

Record SubscriptionConfig : Type := {
  cfg_Topic : topic_ptr;
  cfg_options : SubscriptionOptionsT;
}.

Record SubscriberConfig : Type := {
  SubscriptionName : string -> string;
  DoNotCreateSubscriptionIfMissing : bool;
  DoNotCreateTopicIfMissing : bool;
  ReceiveSettings : ReceiveSettingsT;
  SubscriptionConfig_ : SubscriptionConfig;
}.

(** *** The broker behind the Pub/Sub client *)

Record Broker : Type := {
  b_topics : gset string;
  (** subscription name to the topic it is bound to and its options *)
  b_subs : gmap string (string * SubscriptionOptionsT);
}.

Inductive rpc : Type :=
| rpc_SubscriptionExists (name : string)
| rpc_TopicExists (topic : string)
| rpc_CreateTopic (topic : string)
| rpc_CreateSubscription (name : string) (cfg : SubscriptionConfig).

(** [sync.RWMutex] *)
Record RWMutex : Type := { writer : bool; readers : nat }.

Record World : Type := {
  activeSubscriptions : gmap string sub_ptr;
  activeSubscriptionsLock : RWMutex;
  broker : Broker;
  (** identity given to the next handle the client allocates *)
  next_handle : nat;
  (** the requests sent to the broker so far, oldest first, each with the
      error it came back with *)
  rpc_log : list (rpc * option error);
  (** the environment: [faults n] is the transport or service error, if
      any, that the request number [n] fails with *)
  faults : nat -> option error;
}.

Definition set_cache (f : gmap string sub_ptr -> gmap string sub_ptr) (w : World) : World :=
  {| activeSubscriptions := f (activeSubscriptions w);
     activeSubscriptionsLock := activeSubscriptionsLock w;
     broker := broker w; next_handle := next_handle w;
     rpc_log := rpc_log w; faults := faults w |}.

Definition set_lock (m : RWMutex) (w : World) : World :=
  {| activeSubscriptions := activeSubscriptions w;
     activeSubscriptionsLock := m;
     broker := broker w; next_handle := next_handle w;
     rpc_log := rpc_log w; faults := faults w |}.

Definition set_broker (b : Broker) (w : World) : World :=
  {| activeSubscriptions := activeSubscriptions w;
     activeSubscriptionsLock := activeSubscriptionsLock w;
     broker := b; next_handle := next_handle w;
     rpc_log := rpc_log w; faults := faults w |}.

Definition bump_handle (w : World) : World :=
  {| activeSubscriptions := activeSubscriptions w;
     activeSubscriptionsLock := activeSubscriptionsLock w;
     broker := broker w; next_handle := S (next_handle w);
     rpc_log := rpc_log w; faults := faults w |}.

Definition log_rpc (r : rpc) (e : option error) (w : World) : World :=
  {| activeSubscriptions := activeSubscriptions w;
     activeSubscriptionsLock := activeSubscriptionsLock w;
     broker := broker w; next_handle := next_handle w;
     rpc_log := rpc_log w ++ [(r, e)]; faults := faults w |}.

Definition next_fault (w : World) : option error := faults w (length (rpc_log w)).

Definition AlreadyExists : error := errors_New "rpc error: code = AlreadyExists".
Definition NotFound : error := errors_New "rpc error: code = NotFound".
Definition NilTopic : error := errors_New "pubsub: require non-nil Topic".

(** *** The calls [subscription] makes

    [act X] is a call answered with a value of type [X]. The lock and map
    calls act on the subscriber; the others are methods of the Pub/Sub
    client and of its handles. *)
Inductive act : Type -> Type :=
| RLock : act unit
| RUnlock : act unit
| Lock : act unit
| Unlock : act unit
| Load (name : string) : act (option sub_ptr)
| Store (name : string) (sub : sub_ptr) : act unit
| client_Subscription (name : string) : act Subscription
| sub_Exists (sub : Subscription) : act (bool * option error)
| topic_Exists (t : Topic) : act (bool * option error)
| client_CreateTopic (topic : string) : act (topic_ptr * option error)
| client_CreateSubscription (name : string) (cfg : SubscriptionConfig)
    : act (sub_ptr * option error).

(** [perform a w]: the answer to [a] in [w] and the world after it; [None]
    when the call cannot proceed yet (a lock held by someone else).
    Unlocking a mutex that is not locked is a fatal error in Go; it is
    [None] here as well. *)
Definition perform {X : Type} (a : act X) (w : World) : option (X * World) :=
  let mu := activeSubscriptionsLock w in
  match a in act X return option (X * World) with
  | RLock =>
      if writer mu then None
      else Some (tt, set_lock {| writer := false; readers := S (readers mu) |} w)
  | RUnlock =>
      match readers mu with
      | O => None
      | S n => Some (tt, set_lock {| writer := writer mu; readers := n |} w)
      end
  | Lock =>
      if writer mu then None
      else match readers mu with
           | O => Some (tt, set_lock {| writer := true; readers := 0 |} w)
           | S _ => None
           end
  | Unlock =>
      if writer mu then Some (tt, set_lock {| writer := false; readers := readers mu |} w)
      else None
  | Load name => Some (activeSubscriptions w !! name, w)
  | Store name sub => Some (tt, set_cache (insert name sub) w)
  | client_Subscription name =>
      Some ({| sub_id := next_handle w; sub_name := name;
               sub_ReceiveSettings := zeroReceiveSettings |}, bump_handle w)
  | sub_Exists sub =>
      let r := rpc_SubscriptionExists (sub_name sub) in
      match next_fault w with
      | Some e => Some ((false, Some e), log_rpc r (Some e) w)
      | None => Some ((bool_decide (is_Some (b_subs (broker w) !! sub_name sub)), None),
                      log_rpc r None w)
      end
  | topic_Exists t =>
      let r := rpc_TopicExists (topic_name t) in
      match next_fault w with
      | Some e => Some ((false, Some e), log_rpc r (Some e) w)
      | None => Some ((bool_decide (topic_name t ∈ b_topics (broker w)), None),
                      log_rpc r None w)
      end
  | client_CreateTopic topic =>
      let r := rpc_CreateTopic topic in
      match next_fault w with
      | Some e => Some ((None, Some e), log_rpc r (Some e) w)
      | None =>
          if bool_decide (topic ∈ b_topics (broker w))
          then Some ((None, Some AlreadyExists), log_rpc r (Some AlreadyExists) w)
          else Some ((Some {| topic_name := topic |}, None),
                     log_rpc r None
                       (set_broker {| b_topics := {[ topic ]} ∪ b_topics (broker w);
                                      b_subs := b_subs (broker w) |} w))
      end
  | client_CreateSubscription name cfg =>
      match cfg_Topic cfg with
      | None => Some ((None, Some NilTopic), w)
      | Some t =>
          let r := rpc_CreateSubscription name cfg in
          match next_fault w with
          | Some e => Some ((None, Some e), log_rpc r (Some e) w)
          | None =>
              if bool_decide (is_Some (b_subs (broker w) !! name))
              then Some ((None, Some AlreadyExists), log_rpc r (Some AlreadyExists) w)
              else if bool_decide (topic_name t ∈ b_topics (broker w))
              then Some ((Some {| sub_id := next_handle w; sub_name := name;
                                  sub_ReceiveSettings := zeroReceiveSettings |}, None),
                         log_rpc r None
                           (bump_handle
                              (set_broker
                                 {| b_topics := b_topics (broker w);
                                    b_subs := <[ name := (topic_name t, cfg_options cfg) ]>
                                                (b_subs (broker w)) |} w)))
              else Some ((None, Some NotFound), log_rpc r (Some NotFound) w)
          end
      end
  end.

(** Programs of [subscription]'s calls. *)
Local Abbreviation prog := (program act).

(** One caller running alone. *)
Inductive outcome (R : Type) : Type :=
| Finished (r : R) (w : World)
| Blocked (w : World).
Global Arguments Finished {R} r w.
Global Arguments Blocked {R} w.

Fixpoint exec {R : Type} (p : prog R) (w : World) : outcome R :=
  match p with
  | Ret r => Finished r w
  | Vis a k =>
      match perform a w with
      | Some (x, w') => exec (k x) w'
      | None => Blocked w
      end
  end.

(** *** [Subscriber.subscription] *)

Local Open Scope prog_scope.

(** How a Go function with named results [(sub, err)] is left: by a
    [return], or by a run-time panic; the deferred calls run in both cases
    and see the named results as they are then. *)
Inductive exit : Type := Returns | Panics.
Record frame : Type := { f_sub : sub_ptr; f_err : option error; f_exit : exit }.

Definition return_ (sub : sub_ptr) (err : option error) : frame :=
  {| f_sub := sub; f_err := err; f_exit := Returns |}.

(** [fmt]-style messages of [errors.Wrapf]. *)
Definition msg_check_subscription (name : string) : string :=
  "could not check if subscription " +:+ name +:+ " exists".
Definition msg_check_topic (name : string) : string :=
  "could not check if topic " +:+ name +:+ " exists".

(** [s.client.Topic(topicName)] only builds a handle. *)
Definition client_Topic (topicName : string) : Topic := {| topic_name := topicName |}.

Definition with_Topic (t : topic_ptr) (c : SubscriptionConfig) : SubscriptionConfig :=
  {| cfg_Topic := t; cfg_options := cfg_options c |}.

Definition with_ReceiveSettings (rs : ReceiveSettingsT) (sub : Subscription) : Subscription :=
  {| sub_id := sub_id sub; sub_name := sub_name sub; sub_ReceiveSettings := rs |}.

(** Lines 254-259. The assignment of line 257 comes before the error is
    looked at: on a nil [sub] it panics, with the named results as line 256
    left them. *)
Definition create_subscription (config : SubscriberConfig) (subscriptionName : string)
    (t : topic_ptr) : prog frame :=
  let config' := with_Topic t (SubscriptionConfig_ config) in
  let* (sub, err) := client_CreateSubscription subscriptionName config' in
  match sub with
  | None => Ret {| f_sub := None; f_err := err; f_exit := Panics |}
  | Some h => Ret (return_ (Some (with_ReceiveSettings (ReceiveSettings config) h)) err)
  end.

(** Lines 223-259: what runs between [Lock] and the deferred calls. *)
Definition slow_path (config : SubscriberConfig) (subscriptionName topicName : string)
    : prog frame :=
  let* sub := client_Subscription subscriptionName in
  let* (exists_, err) := sub_Exists sub in
  match err with
  | Some e => Ret (return_ None (Some (errors_Wrap e (msg_check_subscription subscriptionName))))
  | None =>
  if exists_ then Ret (return_ (Some sub) None) else
  if DoNotCreateSubscriptionIfMissing config
  then Ret (return_ None (Some (errors_Wrap ErrSubscriptionDoesNotExist subscriptionName)))
  else
  let t := client_Topic topicName in
  let* (exists_, err) := topic_Exists t in
  match err with
  | Some e => Ret (return_ None (Some (errors_Wrap e (msg_check_topic topicName))))
  | None =>
  if negb exists_ && DoNotCreateTopicIfMissing config
  then Ret (return_ None (Some (errors_Wrap ErrTopicDoesNotExist topicName)))
  else
  if negb exists_ then
    let* (t', err) := client_CreateTopic topicName in
    match err with
    | Some e => Ret (return_ None (Some (errors_Wrap e "could not create topic for subscription")))
    | None => create_subscription config subscriptionName t'
    end
  else create_subscription config subscriptionName (Some t)
  end
  end.

(** Lines 216-221, run last-registered first when [subscription] is left. *)
Definition deferred (subscriptionName : string) (fr : frame) : prog unit :=
  match f_err fr with
  | None => Store subscriptionName (f_sub fr) ;; Unlock ;; Ret tt
  | Some _ => Unlock ;; Ret tt
  end.

Inductive result : Type :=
| Returned (sub : sub_ptr) (err : option error)
| Panicked.

Definition leave (fr : frame) : result :=
  match f_exit fr with
  | Returns => Returned (f_sub fr) (f_err fr)
  | Panics => Panicked
  end.

(** Lines 215-260. *)
Definition locked_path (config : SubscriberConfig) (subscriptionName topicName : string)
    : prog result :=
  Lock ;;
  bind (slow_path config subscriptionName topicName) (fun fr =>
  bind (deferred subscriptionName fr) (fun _ =>
  Ret (leave fr))).

(** Lines 207-260. *)
Definition subscription (config : SubscriberConfig) (subscriptionName topicName : string)
    : prog result :=
  RLock ;;
  let* r := Load subscriptionName in
  RUnlock ;;
  match r with
  | Some sub => Ret (Returned sub None)
  | None => locked_path config subscriptionName topicName
  end.

(** *** One caller alone: [subscription] as a function of the world *)

Definition lock_free (w : World) : Prop :=
  activeSubscriptionsLock w = {| writer := false; readers := 0 |}.

Ltac crunch :=
  repeat (simpl in *; unfold next_fault in *; simpl in *;
          first [ progress simplify_eq | case_match ]).

(** The part between [Lock] and the deferred calls makes no lock or map
    call: alone or not, it runs to its end and leaves both as they are. A
    panic comes with an error and a nil handle; a return without error comes
    with a handle. *)
Lemma slow_path_runs config n t w :
  exists fr w',
    exec (slow_path config n t) w = Finished fr w'
    /\ activeSubscriptions w' = activeSubscriptions w
    /\ activeSubscriptionsLock w' = activeSubscriptionsLock w
    /\ faults w' = faults w
    /\ (f_exit fr = Panics -> f_sub fr = None /\ is_Some (f_err fr))
    /\ (f_exit fr = Returns -> f_err fr = None -> is_Some (f_sub fr)).
Proof.
  unfold slow_path, create_subscription. destruct w as [c l b h lg f].
  crunch; eexists _, _; (split; [done |]); cbn; split_and!; try done; eauto.
Qed.

Local Arguments slow_path : simpl never.
Local Arguments deferred : simpl never.

Lemma exec_bind {R S : Type} (p : prog R) (f : R -> prog S) w :
  exec (bind p f) w =
  match exec p w with
  | Finished r w' => exec (f r) w'
  | Blocked w' => Blocked w'
  end.
Proof.
  revert w. induction p as [r | X a k IH]; intros w; simpl; [done |].
  destruct (perform a w) as [[x w'] |]; [apply IH | done].
Qed.

(** What [subscription] leaves behind after a miss, from what [slow_path]
    returned: the deferred store, then the unlock. *)
Definition after_deferred (n : string) (fr : frame) (w : World) : World :=
  set_lock {| writer := false; readers := 0 |}
    (match f_err fr with
     | None => set_cache (insert n (f_sub fr)) w
     | Some _ => w
     end).

Lemma exec_subscription_hit config n t w sub :
  lock_free w -> activeSubscriptions w !! n = Some sub ->
  exec (subscription config n t) w = Finished (Returned sub None) w.
Proof.
  unfold lock_free. intros Hl Hc. destruct w as [c l b h lg f]; cbn in *; subst.
  cbn. by rewrite Hc.
Qed.

Lemma exec_subscription_miss config n t w :
  lock_free w -> activeSubscriptions w !! n = None ->
  exists fr w',
    exec (slow_path config n t) (set_lock {| writer := true; readers := 0 |} w)
      = Finished fr w'
    /\ exec (subscription config n t) w = Finished (leave fr) (after_deferred n fr w').
Proof.
  unfold lock_free. intros Hl Hc.
  destruct (slow_path_runs config n t (set_lock {| writer := true; readers := 0 |} w))
    as (fr & w' & He & Hc' & Hl' & _).
  exists fr, w'. split; [done |].
  destruct w as [c l b h lg f]; cbn in *; subst. cbn. rewrite Hc. cbn.
  rewrite exec_bind. unfold set_lock in He. cbn in He. unfold set_lock; cbn. rewrite He.
  rewrite exec_bind. unfold deferred, after_deferred.
  destruct w' as [c' l' b' h' lg' f']; cbn in *; subst.
  by destruct (f_err fr).
Qed.

(** [subscription] never blocks when nobody else holds the lock, and gives
    the lock back, also when it panics. *)
Lemma subscription_total config n t w :
  lock_free w ->
  exists r w', exec (subscription config n t) w = Finished r w' /\ lock_free w'.
Proof.
  intros Hl. destruct (activeSubscriptions w !! n) as [sub |] eqn:Hc.
  - exists (Returned sub None), w. by rewrite (exec_subscription_hit _ _ _ _ sub).
  - destruct (exec_subscription_miss config n t w Hl Hc) as (fr & w' & _ & ->).
    eexists _, _. split; [done |]. unfold lock_free, after_deferred.
    by destruct (f_err fr).
Qed.

(** The next [k] requests to the broker are answered (no transport or
    service error). *)
Definition answered (w : World) (k : nat) : Prop :=
  forall i, i < k -> faults w (length (rpc_log w) + i) = None.

Lemma answered_0 w k : 0 < k -> answered w k -> next_fault w = None.
Proof. intros Hk H. unfold next_fault. rewrite <- (H 0 Hk). f_equal. lia. Qed.


Lemma answered_faults w w' k :
  faults w' = faults w -> rpc_log w' = rpc_log w -> answered w k -> answered w' k.
Proof. intros Hf Hl H i Hi. rewrite Hf, Hl. by apply H. Qed.

Definition missing_sub_error (n : string) : error :=
  errors_Wrap ErrSubscriptionDoesNotExist n.
Definition missing_topic_error (t : string) : error :=
  errors_Wrap ErrTopicDoesNotExist t.


(** One step of [exec] for each client call that is answered. *)
Lemma exec_client_Subscription {R} n (k : Subscription -> prog R) w :
  exec (Vis (client_Subscription n) k) w
  = exec (k {| sub_id := next_handle w; sub_name := n;
               sub_ReceiveSettings := zeroReceiveSettings |}) (bump_handle w).
Proof. done. Qed.

Lemma exec_sub_Exists {R} sub (k : bool * option error -> prog R) w j :
  answered w (S j) ->
  exec (Vis (sub_Exists sub) k) w
  = exec (k (bool_decide (is_Some (b_subs (broker w) !! sub_name sub)), None))
      (log_rpc (rpc_SubscriptionExists (sub_name sub)) None w).
Proof. intros Ha. cbn. by rewrite (answered_0 w (S j)) by (lia || done). Qed.









Local Arguments subscription : simpl never.

(** Several calls one after the other, none overlapping another. *)
Fixpoint exec_calls (config : SubscriberConfig) (calls : list (string * string))
    (w : World) : World :=
  match calls with
  | [] => w
  | (n, t) :: calls' =>
      match exec (subscription config n t) w with
      | Finished _ w' => exec_calls config calls' w'
      | Blocked w' => w'
      end
  end.

Lemma subscription_cache_cases config n t w r w' :
  lock_free w -> exec (subscription config n t) w = Finished r w' ->
  lock_free w'
  /\ match r with
     | Returned sub None =>
         activeSubscriptions w' !! n = Some sub
         /\ (activeSubscriptions w' = activeSubscriptions w
             \/ activeSubscriptions w !! n = None
                /\ activeSubscriptions w' = <[ n := sub ]> (activeSubscriptions w))
     | _ => activeSubscriptions w' = activeSubscriptions w
     end.
Proof.
  intros Hl He. destruct (activeSubscriptions w !! n) as [sub |] eqn:Hc.
  - rewrite (exec_subscription_hit _ _ _ _ sub) in He by done.
    simplify_eq. auto.
  - destruct (exec_subscription_miss config n t w Hl Hc) as (fr & w1 & He1 & He2).
    rewrite He2 in He. injection He as <- <-.
    destruct (slow_path_runs config n t (set_lock {| writer := true; readers := 0 |} w))
      as (fr' & w1' & He1' & Hc1 & _ & _ & Hp & _).
    rewrite He1 in He1'. injection He1' as <- <-.
    split; [unfold lock_free, after_deferred; by destruct (f_err fr) |].
    unfold leave, after_deferred. destruct fr as [sub [e |] [|]]; cbn in *; try done.
    + rewrite Hc1, lookup_insert_eq. auto.
    + by destruct Hp as [_ [? ?]].
Qed.

Lemma exec_calls_keeps config calls w n sub :
  lock_free w -> activeSubscriptions w !! n = Some sub ->
  lock_free (exec_calls config calls w)
  /\ activeSubscriptions (exec_calls config calls w) !! n = Some sub.
Proof.
  revert w. induction calls as [| [m t] calls IH]; intros w Hl Hc; [done |].
  cbn [exec_calls]. destruct (subscription_total config m t w Hl) as (r & w' & He & Hl').
  rewrite He. apply IH; [done |].
  destruct (subscription_cache_cases _ _ _ _ _ _ Hl He) as [_ Hr].
  destruct r as [s [e |] |]; try (by rewrite Hr).
  destruct Hr as [_ [-> | [Hm ->]]]; [done |].
  rewrite lookup_insert_ne; [done | congruence].
Qed.


(** C10 (amended). For calls that do not overlap: a call that returns a
    handle without error leaves the name cached with that handle, and any
    later call for the name, whatever calls were made in between, returns
    that handle and leaves the world as it found it (no request to the
    broker, no cache write); a call that returns an error, or panics,
    leaves the cache as it found it. No call blocks. *)
Theorem subscription_cache_idempotent config n t w r w' :
  lock_free w ->
  exec (subscription config n t) w = Finished r w' ->
  match r with
  | Returned sub None =>
      activeSubscriptions w' !! n = Some sub
      /\ forall calls t2,
           exec (subscription config n t2) (exec_calls config calls w')
           = Finished (Returned sub None) (exec_calls config calls w')
  | Returned _ (Some _) | Panicked => activeSubscriptions w' = activeSubscriptions w
  end.
Proof.
  intros Hl He.
  destruct (subscription_cache_cases _ _ _ _ _ _ Hl He) as [Hl' Hr].
  destruct r as [sub [e |] |]; try done.
  destruct Hr as [Hc _]. split; [done |]. intros calls t2.
  destruct (exec_calls_keeps config calls w' n sub Hl' Hc) as [Hl2 Hc2].
  by apply exec_subscription_hit.
Qed.

(** *** The ways [subscription] is left, one caller alone *)


(** The request that came back with the error [e0] is the last one made,
    and [e0] is what the transport answered to it. *)
Definition failed_last (w w' : World) (r : rpc) (e0 : error) : Prop :=
  exists l, rpc_log w' = rpc_log w ++ l ++ [(r, Some e0)]
            /\ faults w (length (rpc_log w) + length l) = Some e0.

Lemma is_Some_decided_false {A} (o : option A) :
  bool_decide (is_Some o) = false -> o = None.
Proof. intros H. apply bool_decide_eq_false in H. by apply eq_None_not_Some. Qed.

Ltac crunch_slow_path :=
  unfold slow_path, create_subscription;
  repeat (simpl in *; unfold next_fault in *; simpl in *;
          first [ progress simplify_eq | case_match ]).

Ltac absurd_membership :=
  match goal with
  | H : bool_decide (_ ∈ _) = false |- _ => apply bool_decide_eq_false in H; set_solver
  end.

Ltac show_failed_last :=
  unfold failed_last; cbn;
  let finish :=
    (split; [cbn; rewrite <- ?app_assoc; reflexivity |]);
    match goal with
    | H : ?f ?a = Some ?e |- ?f ?b = Some ?e =>
        replace b with a; [exact H | rewrite ?length_app; cbn; lia]
    end in
  first [ exists []; finish | eexists [_]; finish | eexists [_; _]; finish
        | eexists [_; _; _]; finish ].

Lemma slow_path_error config n t w fr w' e :
  exec (slow_path config n t) w = Finished fr w' ->
  f_exit fr = Returns -> f_err fr = Some e ->
  f_sub fr = None /\ broker w' = broker w
  /\ ((e = missing_sub_error n
       /\ DoNotCreateSubscriptionIfMissing config = true
       /\ b_subs (broker w) !! n = None
       /\ rpc_log w' = rpc_log w ++ [(rpc_SubscriptionExists n, None)])
      \/ (e = missing_topic_error t
          /\ DoNotCreateTopicIfMissing config = true
          /\ b_subs (broker w) !! n = None /\ (t ∉ b_topics (broker w))
          /\ rpc_log w'
             = rpc_log w ++ [(rpc_SubscriptionExists n, None); (rpc_TopicExists t, None)])
      \/ (exists e0, e = errors_Wrap e0 (msg_check_subscription n)
                     /\ failed_last w w' (rpc_SubscriptionExists n) e0)
      \/ (exists e0, e = errors_Wrap e0 (msg_check_topic t)
                     /\ failed_last w w' (rpc_TopicExists t) e0)
      \/ (exists e0, e = errors_Wrap e0 "could not create topic for subscription"
                     /\ failed_last w w' (rpc_CreateTopic t) e0)).
Proof.
  destruct w as [c l b h lg f]. intros He Hx Hr. revert He.
  crunch_slow_path; intros; simplify_eq/=; try absurd_membership;
    (split; [done |]); (split; [done |]).
  all: first
    [ right; right; left; eexists; split; [reflexivity | show_failed_last]
    | right; right; right; left; eexists; split; [reflexivity | show_failed_last]
    | right; right; right; right; eexists; split; [reflexivity | show_failed_last]
    | left; split_and!; try done; by apply is_Some_decided_false
    | right; left;
      match goal with
      | H : negb _ && _ = true |- _ =>
          apply andb_true_iff in H as [Hnb Hflag];
          apply negb_true_iff, bool_decide_eq_false in Hnb
      end;
      split_and!;
      [done | done | by apply is_Some_decided_false | done | by rewrite <- app_assoc] ].
Qed.



Lemma slow_path_frame config n t w fr w' :
  exec (slow_path config n t) w = Finished fr w' ->
  (exists l, rpc_log w' = rpc_log w ++ l /\ 1 <= length l <= 4)
  /\ (forall m, m <> n -> b_subs (broker w') !! m = b_subs (broker w) !! m)
  /\ (forall v, b_subs (broker w) !! n = Some v -> b_subs (broker w') !! n = Some v)
  /\ b_topics (broker w) ⊆ b_topics (broker w')
  /\ b_topics (broker w') ⊆ {[ t ]} ∪ b_topics (broker w).
Proof.
  destruct w as [c l b h lg f]. intros He. revert He.
  crunch_slow_path; intros; simplify_eq/=; try absurd_membership.
  all: split; [eexists; split; [rewrite <- ?app_assoc; reflexivity | cbn; lia] |].
  all: split; [intros m Hm; by rewrite ?lookup_insert_ne by done |].
  all: split;
    [ intros v Hv;
      try match goal with
          | H : bool_decide (is_Some _) = false |- _ =>
              apply is_Some_decided_false in H; congruence
          end; done |].
  all: split; set_solver.
Qed.

Lemma slow_path_existing config n t w :
  answered w 1 -> is_Some (b_subs (broker w) !! n) ->
  exec (slow_path config n t) w
  = Finished (return_ (Some {| sub_id := next_handle w; sub_name := n;
                               sub_ReceiveSettings := zeroReceiveSettings |}) None)
      (log_rpc (rpc_SubscriptionExists n) None (bump_handle w)).
Proof.
  intros Ha Hs. unfold slow_path.
  rewrite exec_client_Subscription. rewrite (exec_sub_Exists _ _ _ 0) by done. cbn.
  by rewrite bool_decide_eq_true_2.
Qed.

(** X7. When [subscription], called alone, returns an error, it returns
    no handle with it, and it leaves the cache and the broker as they were
    and the lock free. The error is one of five: the not-found error on the
    subscription, under [DoNotCreateSubscriptionIfMissing]; the not-found
    error on the topic, under [DoNotCreateTopicIfMissing]; or the error the
    transport answered to the existence query on the subscription, to the
    existence query on the topic or to the creation of the topic, wrapped
    with a message that names the step, cause kept. That failed request is
    the last one made. *)
Theorem subscription_error_leaves_no_trace config n t w sub e w' :
  lock_free w ->
  exec (subscription config n t) w = Finished (Returned sub (Some e)) w' ->
  sub = None
  /\ activeSubscriptions w' = activeSubscriptions w
  /\ broker w' = broker w
  /\ lock_free w'
  /\ ((e = missing_sub_error n /\ is_not_found e
       /\ DoNotCreateSubscriptionIfMissing config = true
       /\ b_subs (broker w) !! n = None)
      \/ (e = missing_topic_error t /\ is_not_found e
          /\ DoNotCreateTopicIfMissing config = true
          /\ b_subs (broker w) !! n = None /\ (t ∉ b_topics (broker w)))
      \/ (exists e0, e = errors_Wrap e0 (msg_check_subscription n) /\ Cause e = Cause e0
                     /\ failed_last w w' (rpc_SubscriptionExists n) e0)
      \/ (exists e0, e = errors_Wrap e0 (msg_check_topic t) /\ Cause e = Cause e0
                     /\ failed_last w w' (rpc_TopicExists t) e0)
      \/ (exists e0, e = errors_Wrap e0 "could not create topic for subscription"
                     /\ Cause e = Cause e0
                     /\ failed_last w w' (rpc_CreateTopic t) e0)).
Proof.
  intros Hl He. destruct (activeSubscriptions w !! n) as [s0 |] eqn:Hc.
  { rewrite (exec_subscription_hit _ _ _ _ s0) in He by done. done. }
  destruct (exec_subscription_miss config n t w Hl Hc) as (fr & w1 & He1 & He2).
  rewrite He2 in He. injection He as Hleave <-.
  destruct (slow_path_runs config n t (set_lock {| writer := true; readers := 0 |} w))
    as (fr' & w1' & He1' & Hc1 & _).
  rewrite He1 in He1'. injection He1' as <- <-.
  unfold leave in Hleave. destruct fr as [fsub ferr [|]]; cbn in *; [| done].
  injection Hleave as -> ->.
  destruct (slow_path_error _ _ _ _ _ _ e He1 eq_refl eq_refl) as (Hs & Hb & Hcase).
  cbn in Hs, Hb. unfold after_deferred. cbn.
  split_and!; [done | done | done | done |].
  destruct Hcase as [(-> & ? & ? & _) | [(-> & ? & ? & ? & _) | [(e0 & -> & ?)
                    | [(e0 & -> & ?) | (e0 & -> & ?)]]]].
  - left. split_and!; try done. by left.
  - right; left. split_and!; try done. by right.
  - right; right; left. by exists e0.
  - right; right; right; left. by exists e0.
  - right; right; right; right. by exists e0.
Qed.


(** X9. When the broker has the subscription and answers the existence
    query, [subscription], called alone for a name that is not cached,
    returns a new handle for it and caches it, after that single request:
    whatever the two policy flags, whatever the topic asked for and whatever
    topic the subscription is bound to. The handle keeps the receive
    settings the client gave it: line 257 is not reached. *)
Theorem subscription_adopts_existing config n t w :
  lock_free w ->
  activeSubscriptions w !! n = None ->
  is_Some (b_subs (broker w) !! n) ->
  answered w 1 ->
  exists h w',
    exec (subscription config n t) w = Finished (Returned (Some h) None) w'
    /\ sub_name h = n
    /\ sub_ReceiveSettings h = zeroReceiveSettings
    /\ activeSubscriptions w' = <[ n := Some h ]> (activeSubscriptions w)
    /\ broker w' = broker w
    /\ rpc_log w' = rpc_log w ++ [(rpc_SubscriptionExists n, None)]
    /\ lock_free w'.
Proof.
  intros Hl Hc Hs Ha.
  destruct (exec_subscription_miss config n t w Hl Hc) as (fr & w1 & He1 & ->).
  rewrite slow_path_existing in He1; [| by apply (answered_faults w) | done].
  injection He1 as <- <-. eexists _, _. split; [done |]. by split_and!.
Qed.

(** X10. What a call of [subscription], made alone, never does: it makes
    at most four requests to the broker, and none when the name is cached;
    it leaves the cache entries and the broker's subscriptions of all other
    names as they are; it neither removes nor rebinds a subscription the
    broker has; it removes no topic, and the only topic it may add is the
    one it was called with. *)
Theorem subscription_frame config n t w r w' :
  lock_free w ->
  exec (subscription config n t) w = Finished r w' ->
  (exists l, rpc_log w' = rpc_log w ++ l /\ length l <= 4
             /\ (is_Some (activeSubscriptions w !! n) -> l = []))
  /\ (forall m, m <> n -> activeSubscriptions w' !! m = activeSubscriptions w !! m)
  /\ (forall m, m <> n -> b_subs (broker w') !! m = b_subs (broker w) !! m)
  /\ (forall v, b_subs (broker w) !! n = Some v -> b_subs (broker w') !! n = Some v)
  /\ b_topics (broker w) ⊆ b_topics (broker w')
  /\ b_topics (broker w') ⊆ {[ t ]} ∪ b_topics (broker w).
Proof.
  intros Hl He. destruct (activeSubscriptions w !! n) as [s0 |] eqn:Hc.
  { rewrite (exec_subscription_hit _ _ _ _ s0) in He by done. simplify_eq.
    split_and!; try done; [| set_solver].
    exists []. rewrite app_nil_r. split_and!; [done | cbn; lia | done]. }
  destruct (exec_subscription_miss config n t w Hl Hc) as (fr & w1 & He1 & He2).
  rewrite He2 in He. injection He as <- <-.
  destruct (slow_path_runs config n t (set_lock {| writer := true; readers := 0 |} w))
    as (fr' & w1' & He1' & Hc1 & _).
  rewrite He1 in He1'. injection He1' as <- <-.
  destruct (slow_path_frame _ _ _ _ _ _ He1) as ((l & Hlog & Hlen) & Hbs & Hbn & Hb1 & Hb2).
  assert (Hb : broker (after_deferred n fr w1) = broker w1).
  { unfold after_deferred. by destruct (f_err fr). }
  rewrite Hb. split_and!; try done.
  - exists l. split_and!; [| lia | by intros [? ?]].
    unfold after_deferred. by destruct (f_err fr).
  - intros m Hm. unfold after_deferred. destruct (f_err fr); cbn; rewrite ?Hc1; [done |].
    by rewrite lookup_insert_ne.
Qed.

(** A handle that is not nil and is the handle of the subscription [n]. *)
Definition good_handle (n : string) (sub : sub_ptr) : Prop :=
  exists h, sub = Some h /\ sub_name h = n.

Definition cache_good (w : World) : Prop :=
  forall n sub, activeSubscriptions w !! n = Some sub -> good_handle n sub.

Lemma slow_path_handle config n t w fr w' :
  exec (slow_path config n t) w = Finished fr w' ->
  f_exit fr = Returns -> f_err fr = None -> good_handle n (f_sub fr).
Proof.
  destruct w as [c l b h lg f]. intros He Hx Hr. revert He.
  crunch_slow_path; intros; simplify_eq/=; by eexists.
Qed.

Lemma subscription_keeps_cache_good config n t w r w' :
  lock_free w -> cache_good w ->
  exec (subscription config n t) w = Finished r w' ->
  cache_good w'
  /\ (forall sub, r = Returned sub None ->
        good_handle n sub /\ activeSubscriptions w' !! n = Some sub).
Proof.
  intros Hl Hg He.
  destruct (subscription_cache_cases _ _ _ _ _ _ Hl He) as [Hl' Hr].
  destruct (activeSubscriptions w !! n) as [s0 |] eqn:Hc.
  - rewrite (exec_subscription_hit _ _ _ _ s0) in He by done. simplify_eq.
    split; [done |]. intros sub [= <-]. split; [by eapply Hg | done].
  - destruct (exec_subscription_miss config n t w Hl Hc) as (fr & w1 & He1 & He2).
    rewrite He2 in He. injection He as <- <-.
    destruct (slow_path_runs config n t (set_lock {| writer := true; readers := 0 |} w))
      as (fr' & w1' & He1' & Hc1 & _ & _ & Hp & _).
    rewrite He1 in He1'. injection He1' as <- <-.
    pose proof (slow_path_handle _ _ _ _ _ _ He1) as Hh.
    unfold leave, after_deferred, cache_good in *.
    destruct fr as [fsub [e |] [|]]; cbn in *.
    + split; [| done]. intros m sub. rewrite Hc1. apply Hg.
    + split; [| done]. intros m sub. rewrite Hc1. apply Hg.
    + specialize (Hh eq_refl eq_refl). split.
      * intros m sub. rewrite Hc1. destruct (decide (m = n)) as [-> | Hne].
        -- rewrite lookup_insert_eq. by intros [= <-].
        -- rewrite lookup_insert_ne by done. apply Hg.
      * intros sub [= <-]. split; [done |]. by rewrite lookup_insert_eq.
    + destruct (Hp eq_refl) as [_ [? ?]]. done.
Qed.

(** After a miss, the first request is the existence query on the
    subscription. *)
Lemma slow_path_first_request config n t w fr w' :
  exec (slow_path config n t) w = Finished fr w' ->
  exists e l, rpc_log w' = rpc_log w ++ (rpc_SubscriptionExists n, e) :: l.
Proof.
  destruct w as [c l b h lg f]. intros He. revert He.
  crunch_slow_path; intros; simplify_eq/=; try absurd_membership.
  all: eexists _, _; rewrite <- ?app_assoc; cbn; reflexivity.
Qed.

Lemma subscription_first_request config n t w r w' :
  lock_free w -> activeSubscriptions w !! n = None ->
  exec (subscription config n t) w = Finished r w' ->
  exists e l, rpc_log w' = rpc_log w ++ (rpc_SubscriptionExists n, e) :: l.
Proof.
  intros Hl Hc He.
  destruct (exec_subscription_miss config n t w Hl Hc) as (fr & w1 & He1 & He2).
  rewrite He2 in He. injection He as <- <-.
  destruct (slow_path_first_request _ _ _ _ _ _ He1) as (e & l & Hlog).
  exists e, l. unfold after_deferred. by destruct (f_err fr).
Qed.

(** X11. [subscription], called alone on a cache that holds no nil
    handle and files each handle under its subscription's name, never
    returns a nil handle without an error: the handle it returns is the
    handle of the subscription it was asked for, and is the one cached under
    that name afterwards. The cache stays as described, so this holds for
    every call of a sequence, from the empty cache of a new subscriber on. *)
Theorem subscription_never_nil_without_error config n t w r w' :
  lock_free w -> cache_good w ->
  exec (subscription config n t) w = Finished r w' ->
  cache_good w'
  /\ (forall sub, r = Returned sub None ->
        good_handle n sub /\ activeSubscriptions w' !! n = Some sub)
  /\ forall calls, cache_good (exec_calls config calls w').
Proof.
  intros Hl Hg He.
  destruct (subscription_keeps_cache_good _ _ _ _ _ _ Hl Hg He) as [Hg' Hr].
  split; [done |]. split; [done |].
  destruct (subscription_cache_cases _ _ _ _ _ _ Hl He) as [Hl' _].
  clear He Hr Hg Hl. intros calls. revert w' Hl' Hg'.
  induction calls as [| [m t2] calls IH]; intros w1 Hl1 Hg1; [done |].
  cbn [exec_calls]. destruct (subscription_total config m t2 w1 Hl1) as (r2 & w2 & He2 & Hl2).
  rewrite He2. apply IH; [done |].
  by destruct (subscription_keeps_cache_good _ _ _ _ _ _ Hl1 Hg1 He2).
Qed.


(** *** Several callers at once

    Each caller is a program; a step performs the first call of one of them
    on the shared world. A schedule is the order in which callers step; a
    caller whose call cannot proceed (the lock is taken) cannot be scheduled. *)

Inductive label : Type :=
| L_RLock | L_RUnlock | L_Lock | L_Unlock
| L_Load (name : string)
| L_Store (name : string) (sub : sub_ptr)
| L_client_Subscription (name : string)
| L_sub_Exists (name : string)
| L_topic_Exists (topic : string)
| L_CreateTopic (topic : string)
| L_CreateSubscription (name : string) (cfg : SubscriptionConfig).

Definition label_of {X : Type} (a : act X) : label :=
  match a with
  | RLock => L_RLock
  | RUnlock => L_RUnlock
  | Lock => L_Lock
  | Unlock => L_Unlock
  | Load n => L_Load n
  | Store n s => L_Store n s
  | client_Subscription n => L_client_Subscription n
  | sub_Exists sub => L_sub_Exists (sub_name sub)
  | topic_Exists t => L_topic_Exists (topic_name t)
  | client_CreateTopic t => L_CreateTopic t
  | client_CreateSubscription n c => L_CreateSubscription n c
  end.

(** The call a caller is about to make, if it has not returned. *)
Definition head {R : Type} (p : prog R) : option label :=
  match p with
  | Ret _ => None
  | Vis a _ => Some (label_of a)
  end.

(** The calls [subscription] makes between [Lock] and [Unlock], [Unlock]
    included. *)
Definition under_lock (l : label) : bool :=
  match l with
  | L_RLock | L_RUnlock | L_Lock | L_Load _ => false
  | _ => true
  end.

Definition step (i : nat) (st : list (prog result) * World)
    : option (list (prog result) * World) :=
  match st.1 !! i with
  | Some (Vis a k) =>
      match perform a st.2 with
      | Some (x, w') => Some (<[ i := k x ]> st.1, w')
      | None => None
      end
  | _ => None
  end.

Fixpoint run (sched : list nat) (st : list (prog result) * World)
    : option (list (prog result) * World) :=
  match sched with
  | [] => Some st
  | i :: sched' =>
      match step i st with
      | Some st' => run sched' st'
      | None => None
      end
  end.

Definition start (config : SubscriberConfig) (calls : list (string * string))
    : list (prog result) :=
  map (fun c => subscription config c.1 c.2) calls.

(** Successful creations of subscription [n] among the requests made. *)
Definition creates (n : string) (e : rpc * option error) : bool :=
  match e with
  | (rpc_CreateSubscription m _, None) => bool_decide (m = n)
  | _ => false
  end.

Fixpoint created (n : string) (log : list (rpc * option error)) : nat :=
  match log with
  | [] => 0
  | e :: log' => (if creates n e then 1 else 0) + created n log'
  end.

(** **** The lock discipline as an invariant

    A caller is outside the lock, holds it for reading, or holds it for
    writing; the programs it can be at are listed for each case. *)

Inductive kind : Type := KOut | KRead | KIn.

Definition after_load (config : SubscriberConfig) (n t : string) (r : option sub_ptr)
    : prog result :=
  match r with
  | Some sub => Ret (Returned sub None)
  | None => locked_path config n t
  end.

Definition finish (n : string) (fr : frame) : prog result :=
  bind (deferred n fr) (fun _ => Ret (leave fr)).

(** What the code between [Lock] and the deferred calls may do at broker
    state [B]: no lock or map call, and [CreateSubscription] only for a name
    the broker does not have. *)
Definition allowed (l : label) (B : Broker) : Prop :=
  match l with
  | L_RLock | L_RUnlock | L_Lock | L_Unlock | L_Load _ | L_Store _ _ => False
  | L_CreateSubscription n _ => b_subs B !! n = None
  | _ => True
  end.

Fixpoint safe {R : Type} (p : prog R) (B : Broker) : Prop :=
  match p with
  | Ret _ => True
  | Vis a k =>
      allowed (label_of a) B
      /\ forall w x w', broker w = B -> perform a w = Some (x, w') -> safe (k x) (broker w')
  end.

Definition thread_ok (config : SubscriberConfig) (w : World) (p : prog result) (k : kind)
    : Prop :=
  match k with
  | KOut =>
      (exists n t, p = subscription config n t)
      \/ (exists n t, p = locked_path config n t)
      \/ (exists r, p = Ret r)
  | KRead =>
      (exists n t, p = Vis (Load n) (fun r => Vis RUnlock (fun _ => after_load config n t r)))
      \/ (exists n t r, p = Vis RUnlock (fun _ => after_load config n t r))
  | KIn =>
      (exists n b, p = bind b (finish n) /\ safe b (broker w))
      \/ (exists r, p = Vis Unlock (fun _ => Ret r))
  end.

Fixpoint count_in (ks : list kind) : nat :=
  match ks with
  | [] => 0
  | KIn :: ks' => S (count_in ks')
  | _ :: ks' => count_in ks'
  end.

Definition weight (k : kind) : nat := match k with KIn => 1 | _ => 0 end.

Definition log_ok (w : World) : Prop :=
  forall n, created n (rpc_log w) <= 1
            /\ (0 < created n (rpc_log w) -> is_Some (b_subs (broker w) !! n)).

Definition inv (config : SubscriberConfig) (st : list (prog result) * World) : Prop :=
  exists ks,
    Forall2 (thread_ok config st.2) st.1 ks
    /\ count_in ks = (if writer (activeSubscriptionsLock st.2) then 1 else 0)
    /\ log_ok st.2.

Lemma count_in_insert ks i k k' :
  ks !! i = Some k -> count_in (<[ i := k' ]> ks) + weight k = count_in ks + weight k'.
Proof.
  revert i. induction ks as [| k0 ks IH]; intros [| i] Hi; simplify_eq/=.
  - destruct k, k'; simpl; lia.
  - specialize (IH _ Hi). destruct k0; simpl; lia.
Qed.

Lemma count_in_unique ks i j :
  count_in ks <= 1 -> ks !! i = Some KIn -> ks !! j = Some KIn -> i = j.
Proof.
  revert i j. induction ks as [| k0 ks IH]; intros i j Hc Hi Hj; [done |].
  assert (Hpos : forall m, ks !! m = Some KIn -> 0 < count_in ks).
  { clear. induction ks as [| k ks IH]; intros [| m] Hm; simplify_eq/=; [lia | ].
    specialize (IH _ Hm). destruct k; lia. }
  destruct i as [| i], j as [| j]; simplify_eq/=; try done.
  - specialize (Hpos _ Hj). lia.
  - specialize (Hpos _ Hi). lia.
  - f_equal. apply IH; [| done | done]. destruct k0; lia.
Qed.

Lemma created_app n l1 l2 : created n (l1 ++ l2) = created n l1 + created n l2.
Proof. induction l1 as [| e l1 IH]; simpl; [done | rewrite IH; lia]. Qed.

(** The broker alone refuses a second creation: every call keeps [log_ok]. *)
Lemma perform_log_ok {X} (a : act X) w x w' :
  perform a w = Some (x, w') -> log_ok w -> log_ok w'.
Proof.
  intros Hp Hok n. specialize (Hok n).
  destruct a; cbn in Hp; unfold next_fault in Hp;
    repeat case_match; simplify_eq/=; try done;
    rewrite ?created_app; cbn; try (rewrite Nat.add_0_r; done).
  match goal with H : bool_decide (is_Some _) = false |- _ =>
    apply bool_decide_eq_false in H; rename H into Hnew end.
  destruct Hok as [Hle Hex]. destruct (decide (name = n)) as [-> | Hne].
  - rewrite bool_decide_eq_true_2 by done. split.
    + destruct (created n (rpc_log w)) as [| c]; [lia |].
      exfalso. apply Hnew, Hex. lia.
    + intros _. rewrite lookup_insert_eq. by eexists.
  - rewrite bool_decide_eq_false_2 by done. rewrite !Nat.add_0_r. split; [done |].
    intros Hpos. rewrite lookup_insert_ne by done. auto.
Qed.

Lemma not_is_Some_false {A} (o : option A) :
  bool_decide (is_Some o) = false -> o = None.
Proof. intros H. apply bool_decide_eq_false in H. by apply eq_None_not_Some. Qed.

Lemma safe_create_subscription config n t B :
  b_subs B !! n = None -> safe (create_subscription config n t) B.
Proof.
  intros Hn. unfold create_subscription. cbn. split; [done |].
  intros w [[h |] e] w' _ _; done.
Qed.

Lemma safe_slow_path config n t B : safe (slow_path config n t) B.
Proof.
  unfold slow_path. cbn. split; [done |].
  intros w0 sub w1 <- H1. simplify_eq/=. split; [done |].
  intros w1 [ex err] w2 Hb H2.
  assert (broker w2 = broker w0 /\ (err = None -> ex = false -> b_subs (broker w0) !! n = None))
    as [Hb2 Hn].
  { unfold next_fault in H2. destruct (faults w1 _); simplify_eq/=; [done |].
    rewrite Hb. split; [done |]. intros _. apply not_is_Some_false. }
  destruct err as [e |]; [done |]. destruct ex; [done |].
  specialize (Hn eq_refl eq_refl).
  destruct (DoNotCreateSubscriptionIfMissing config); [done |].
  cbn. split; [done |].
  intros w3 [ex err] w4 Hb3 H4.
  assert (broker w4 = broker w0) as Hb4.
  { unfold next_fault in H4. destruct (faults w3 _); simplify_eq/=; congruence. }
  destruct err as [e |]; [done |].
  destruct (negb ex && DoNotCreateTopicIfMissing config); [done |].
  destruct (negb ex).
  - cbn. split; [done |]. intros w5 [t' err] w6 Hb5 H6.
    destruct err as [e |]; [done |].
    apply safe_create_subscription.
    unfold next_fault in H6. destruct (faults w5 _); simplify_eq/=.
    case_bool_decide; simplify_eq/=. congruence.
  - apply safe_create_subscription. congruence.
Qed.

(** Calls allowed under the lock leave the lock as it is. *)
Lemma allowed_perform_lock {X} (a : act X) w x w' :
  allowed (label_of a) (broker w) -> perform a w = Some (x, w') ->
  activeSubscriptionsLock w' = activeSubscriptionsLock w.
Proof.
  intros Hal Hp. destruct a; cbn in Hal, Hp; try done; unfold next_fault in Hp;
    repeat case_match; by simplify_eq/=.
Qed.

Lemma thread_ok_frame config w w' p k :
  (k = KIn -> broker w' = broker w) ->
  thread_ok config w p k -> thread_ok config w' p k.
Proof. destruct k; cbn; try done. intros ->; done. Qed.

Lemma others_ok config w w' ks i k :
  count_in ks <= 1 -> ks !! i = Some k ->
  k = KIn \/ broker w' = broker w ->
  forall j (a : prog result) b, j <> i -> ks !! j = Some b ->
    thread_ok config w a b -> thread_ok config w' a b.
Proof.
  intros Hc Hi Hor j a b Hne Hj. apply thread_ok_frame. intros ->.
  destruct Hor as [-> | ?]; [| done]. exfalso. apply Hne. by eapply count_in_unique.
Qed.

Lemma log_ok_same w w' :
  rpc_log w' = rpc_log w -> broker w' = broker w -> log_ok w -> log_ok w'.
Proof. unfold log_ok. by intros -> ->. Qed.

Lemma step_inv config i st st' :
  inv config st -> step i st = Some st' -> inv config st'.
Proof.
  destruct st as [ts w], st' as [ts' w']. intros (ks & Hall & Hcnt & Hlog) Hstep.
  cbn [fst snd] in *. unfold step in Hstep. cbn [fst snd] in Hstep.
  destruct (ts !! i) as [p |] eqn:Hp; [| done].
  destruct (Forall2_lookup_l _ _ _ _ _ Hall Hp) as (k & Hk & Hok).
  assert (Hle : count_in ks <= 1) by (destruct (writer _); lia).
  pose proof (fun k' => count_in_insert ks i k k' Hk) as Hins.
  destruct k; cbn in Hok.
  - (* outside the lock *)
    destruct Hok as [(n & t & ->) | [(n & t & ->) | (r & ->)]]; [| | done].
    + (* RLock *)
      unfold subscription in Hstep. cbn in Hstep.
      destruct (writer (activeSubscriptionsLock w)) eqn:Hw; simplify_eq/=.
      exists (<[ i := KRead ]> ks). cbn [fst snd]. split_and!.
      * eapply Forall2_step; [done | left; by exists n, t |].
        intros j a b Hne _ Hkj;
          refine (others_ok config _ _ ks i _ Hle Hk _ j a b Hne Hkj); first [by left | by right].
      * specialize (Hins KRead). cbn in *. lia.
      * by eapply log_ok_same.
    + (* Lock *)
      unfold locked_path in Hstep. cbn in Hstep.
      destruct (writer (activeSubscriptionsLock w)) eqn:Hw; simplify_eq/=.
      destruct (readers (activeSubscriptionsLock w)); simplify_eq/=.
      exists (<[ i := KIn ]> ks). cbn [fst snd]. split_and!.
      * eapply Forall2_step; [done | |].
        -- left. exists n, (slow_path config n t). split; [done |]. apply safe_slow_path.
        -- intros j a b Hne _ Hkj;
          refine (others_ok config _ _ ks i _ Hle Hk _ j a b Hne Hkj); first [by left | by right].
      * specialize (Hins KIn). cbn in *. lia.
      * by eapply log_ok_same.
  - (* holding the lock for reading *)
    destruct Hok as [(n & t & ->) | (n & t & r & ->)].
    + (* the map lookup *)
      cbn in Hstep. simplify_eq/=.
      exists (<[ i := KRead ]> ks). cbn [fst snd]. split_and!.
      * eapply Forall2_step; [done | right; by eexists n, t, _ |].
        intros j a b Hne _ Hkj;
          refine (others_ok config _ _ ks i _ Hle Hk _ j a b Hne Hkj); first [by left | by right].
      * specialize (Hins KRead). cbn in *. lia.
      * done.
    + (* RUnlock *)
      cbn in Hstep. destruct (readers (activeSubscriptionsLock w)) eqn:Hr; simplify_eq/=.
      exists (<[ i := KOut ]> ks). cbn [fst snd]. split_and!.
      * eapply Forall2_step; [done | |].
        -- destruct r as [sub |]; cbn; [right; right; by eexists | right; left; by exists n, t].
        -- intros j a b Hne _ Hkj;
          refine (others_ok config _ _ ks i _ Hle Hk _ j a b Hne Hkj); first [by left | by right].
      * specialize (Hins KOut). cbn in *. lia.
      * by eapply log_ok_same.
  - (* holding the lock for writing *)
    destruct Hok as [(n & b & -> & Hsafe) | (r & ->)].
    + destruct b as [fr | X a kk].
      * (* the deferred calls begin *)
        cbn in Hstep. unfold finish, deferred in Hstep.
        destruct (f_err fr) eqn:Herr; cbn in Hstep.
        -- destruct (writer (activeSubscriptionsLock w)) eqn:Hw; simplify_eq/=.
           exists (<[ i := KOut ]> ks). cbn [fst snd]. split_and!.
           ++ eapply Forall2_step; [done | right; right; by eexists |].
              intros j a b Hne _ Hkj;
          refine (others_ok config _ _ ks i _ Hle Hk _ j a b Hne Hkj); first [by left | by right].
           ++ specialize (Hins KOut). cbn in *. lia.
           ++ by eapply log_ok_same.
        -- simplify_eq/=.
           exists (<[ i := KIn ]> ks). cbn [fst snd]. split_and!.
           ++ eapply Forall2_step; [done | right; by eexists |].
              intros j a b Hne _ Hkj;
          refine (others_ok config _ _ ks i _ Hle Hk _ j a b Hne Hkj); first [by left | by right].
           ++ specialize (Hins KIn). cbn in *. lia.
           ++ by eapply log_ok_same.
      * (* a call of the slow path *)
        cbn in Hstep. destruct (perform a w) as [[x w1] |] eqn:Hperf; simplify_eq/=.
        destruct Hsafe as [Hal Hnext].
        exists (<[ i := KIn ]> ks). cbn [fst snd]. split_and!.
        -- eapply Forall2_step; [done | |].
           ++ left. exists n, (kk x). split; [done |]. by eapply Hnext.
           ++ intros j a0 b Hne _ Hkj;
          refine (others_ok config _ _ ks i _ Hle Hk _ j a0 b Hne Hkj); first [by left | by right].
        -- specialize (Hins KIn). cbn in *.
           rewrite (allowed_perform_lock _ _ _ _ Hal Hperf). lia.
        -- by eapply perform_log_ok.
    + (* Unlock *)
      cbn in Hstep. destruct (writer (activeSubscriptionsLock w)) eqn:Hw; simplify_eq/=.
      exists (<[ i := KOut ]> ks). cbn [fst snd]. split_and!.
      * eapply Forall2_step; [done | right; right; by eexists |].
        intros j a b Hne _ Hkj;
          refine (others_ok config _ _ ks i _ Hle Hk _ j a b Hne Hkj); first [by left | by right].
      * specialize (Hins KOut). cbn in *. lia.
      * by eapply log_ok_same.
Qed.

Lemma run_inv config sched st st' :
  inv config st -> run sched st = Some st' -> inv config st'.
Proof.
  revert st. induction sched as [| i sched IH]; intros st Hinv Hrun; simplify_eq/=; [done |].
  destruct (step i st) as [st1 |] eqn:Hstep; [| done].
  eapply IH; [| done]. by eapply step_inv.
Qed.

Lemma start_inv config calls w :
  lock_free w -> rpc_log w = [] -> inv config (start config calls, w).
Proof.
  intros Hl Hlog. exists (replicate (length calls) KOut). cbn [fst snd]. split_and!.
  - unfold start. induction calls as [| [n t] calls IH]; cbn; constructor; [| done].
    left. by exists n, t.
  - rewrite Hl. cbn. induction (length calls); [done | done].
  - intros n. rewrite Hlog. cbn. split; lia.
Qed.

Lemma under_lock_in config w p k l :
  thread_ok config w p k -> head p = Some l -> under_lock l = true -> k = KIn.
Proof.
  destruct k; cbn; [| | done].
  - intros [(n & t & ->) | [(n & t & ->) | (r & ->)]] Hh Hu; by simplify_eq/=.
  - intros [(n & t & ->) | (n & t & r & ->)] Hh Hu; by simplify_eq/=.
Qed.

Lemma creation_step_fresh config w p n c :
  thread_ok config w p KIn -> head p = Some (L_CreateSubscription n c) ->
  b_subs (broker w) !! n = None.
Proof.
  cbn. intros [(n0 & b & -> & Hsafe) | (r & ->)] Hh; [| by simplify_eq/=].
  destruct b as [fr | X a kk]; cbn in *.
  - unfold finish, deferred in Hh. destruct (f_err fr); by simplify_eq/=.
  - destruct Hsafe as [Hal _]. simplify_eq/=. by rewrite Hh in Hal.
Qed.

(** C1 (amended). Whatever the interleaving of any number of callers of
    [subscription], from a world where the lock is free and no request has
    been made: (1) at most one caller at a time is between [Lock] and
    [Unlock]; (2) a caller about to call [CreateSubscription] for a name
    does so in a broker state that does not have that name, because it asked
    the broker under the same hold of the lock; (3) no name has more than one
    successful creation among the requests made. The cache is not looked at
    again under the exclusive lock. *)
Theorem registry_mutual_exclusion config calls w0 sched ts w :
  lock_free w0 -> rpc_log w0 = [] ->
  run sched (start config calls, w0) = Some (ts, w) ->
  (forall i j pi pj li lj,
      ts !! i = Some pi -> ts !! j = Some pj ->
      head pi = Some li -> head pj = Some lj ->
      under_lock li = true -> under_lock lj = true -> i = j)
  /\ (forall i p n c,
        ts !! i = Some p -> head p = Some (L_CreateSubscription n c) ->
        b_subs (broker w) !! n = None)
  /\ (forall n, created n (rpc_log w) <= 1).
Proof.
  intros Hl Hlog Hrun.
  destruct (run_inv config sched _ _ (start_inv config calls w0 Hl Hlog) Hrun)
    as (ks & Hall & Hcnt & Hok).
  cbn [fst snd] in *.
  assert (Hle : count_in ks <= 1) by (destruct (writer _); lia).
  split_and!.
  - intros i j pi pj li lj Hi Hj Hhi Hhj Hui Huj.
    destruct (Forall2_lookup_l _ _ _ _ _ Hall Hi) as (ki & Hki & Hoki).
    destruct (Forall2_lookup_l _ _ _ _ _ Hall Hj) as (kj & Hkj & Hokj).
    rewrite (under_lock_in _ _ _ _ _ Hoki Hhi Hui) in Hki.
    rewrite (under_lock_in _ _ _ _ _ Hokj Hhj Huj) in Hkj.
    by eapply count_in_unique.
  - intros i p n c Hi Hh.
    destruct (Forall2_lookup_l _ _ _ _ _ Hall Hi) as (k & Hk & Hokk).
    assert (k = KIn) as -> by (by eapply under_lock_in).
    by eapply creation_step_fresh.
  - intros n. apply Hok.
Qed.

(** **** Progress and the cache, whatever the interleaving

    A second invariant: the readers the lock counts are the callers between
    [RLock] and [RUnlock], and what a caller under the exclusive lock will
    store is a handle of the name it resolves. *)

Fixpoint count_read (ks : list kind) : nat :=
  match ks with
  | [] => 0
  | KRead :: ks' => S (count_read ks')
  | _ :: ks' => count_read ks'
  end.

Definition weight_read (k : kind) : nat := match k with KRead => 1 | _ => 0 end.

Lemma count_read_insert ks i k k' :
  ks !! i = Some k ->
  count_read (<[ i := k' ]> ks) + weight_read k = count_read ks + weight_read k'.
Proof.
  revert i. induction ks as [| k0 ks IH]; intros [| i] Hi; simplify_eq/=.
  - destruct k, k'; simpl; lia.
  - specialize (IH _ Hi). destruct k0; simpl; lia.
Qed.

Lemma count_in_pos ks : 0 < count_in ks -> exists i, ks !! i = Some KIn.
Proof.
  induction ks as [| k ks IH]; cbn; [lia |]. intros H.
  destruct k; try (destruct (IH H) as [i Hi]; by exists (S i)). by exists 0.
Qed.

Lemma count_read_pos ks : 0 < count_read ks -> exists i, ks !! i = Some KRead.
Proof.
  induction ks as [| k ks IH]; cbn; [lia |]. intros H.
  destruct k; try (destruct (IH H) as [i Hi]; by exists (S i)). by exists 0.
Qed.

Lemma count_none ks i k :
  count_in ks = 0 -> count_read ks = 0 -> ks !! i = Some k -> k = KOut.
Proof.
  revert i. induction ks as [| k0 ks IH]; intros [| i] Hin Hr Hi; simplify_eq/=.
  - by destruct k.
  - destruct k0; try done; by eapply IH.
Qed.

Definition good_frame (n : string) (fr : frame) : Prop :=
  f_err fr = None -> good_handle n (f_sub fr).

(** Whatever the answers to its calls, [p] ends with a result in [P]. *)
Fixpoint ends_in {R : Type} (P : R -> Prop) (p : prog R) : Prop :=
  match p with
  | Ret r => P r
  | Vis a k => forall w x w', perform a w = Some (x, w') -> ends_in P (k x)
  end.

Lemma ends_in_create_subscription config n t :
  ends_in (good_frame n) (create_subscription config n t).
Proof.
  unfold create_subscription, good_frame, good_handle. cbn.
  intros w [sub err] w' H. unfold next_fault in H.
  repeat case_match; simplify_eq/=; try done; intros _; by eexists.
Qed.

Lemma ends_in_slow_path config n t : ends_in (good_frame n) (slow_path config n t).
Proof.
  unfold slow_path. cbn. intros w sub w1 H1. simplify_eq/=.
  intros w2 [ex err] w3 H2. destruct err as [e |]; [done |].
  destruct ex; [intros _; by eexists |].
  destruct (DoNotCreateSubscriptionIfMissing config); [done |]. cbn.
  intros w4 [ex2 err2] w5 H4. destruct err2 as [e |]; [done |].
  destruct (negb ex2 && DoNotCreateTopicIfMissing config); [done |].
  destruct (negb ex2); [| apply ends_in_create_subscription].
  cbn. intros w6 [t' err3] w7 H6. destruct err3 as [e |]; [done |].
  apply ends_in_create_subscription.
Qed.

Definition thread_ok2 (config : SubscriberConfig) (w : World) (p : prog result) (k : kind)
    : Prop :=
  match k with
  | KIn =>
      (exists n b, p = bind b (finish n) /\ safe b (broker w) /\ ends_in (good_frame n) b)
      \/ (exists r, p = Vis Unlock (fun _ => Ret r))
  | _ => thread_ok config w p k
  end.

(** Every entry of the cache was there at the start, as in [C], or is a
    handle of the name it is filed under. *)
Definition cache_from (C : gmap string sub_ptr) (w : World) : Prop :=
  forall n sub, activeSubscriptions w !! n = Some sub ->
    good_handle n sub \/ C !! n = Some sub.

Definition inv2 (config : SubscriberConfig) (C : gmap string sub_ptr)
    (st : list (prog result) * World) : Prop :=
  exists ks,
    Forall2 (thread_ok2 config st.2) st.1 ks
    /\ count_in ks = (if writer (activeSubscriptionsLock st.2) then 1 else 0)
    /\ readers (activeSubscriptionsLock st.2) = count_read ks
    /\ (writer (activeSubscriptionsLock st.2) = true -> count_read ks = 0)
    /\ cache_from C st.2.

Lemma thread_ok2_frame config w w' p k :
  (k = KIn -> broker w' = broker w) ->
  thread_ok2 config w p k -> thread_ok2 config w' p k.
Proof. destruct k; cbn; try done. intros ->; done. Qed.

Lemma others_ok2 config w w' ks i k :
  count_in ks <= 1 -> ks !! i = Some k ->
  k = KIn \/ broker w' = broker w ->
  forall j (a : prog result) b, j <> i -> ks !! j = Some b ->
    thread_ok2 config w a b -> thread_ok2 config w' a b.
Proof.
  intros Hc Hi Hor j a b Hne Hj. apply thread_ok2_frame. intros ->.
  destruct Hor as [-> | ?]; [| done]. exfalso. apply Hne. by eapply count_in_unique.
Qed.

Ltac others2 config ks i Hle Hk :=
  let j := fresh "j" in let q := fresh "q" in let kj := fresh "kj" in
  let Hne := fresh "Hne" in let Hkj := fresh "Hkj" in
  intros j q kj Hne _ Hkj;
  refine (others_ok2 config _ _ ks i _ Hle Hk _ j q kj Hne Hkj); first [by left | by right].

Lemma step_inv2 config C i st st' :
  inv2 config C st -> step i st = Some st' -> inv2 config C st'.
Proof.
  destruct st as [ts w], st' as [ts' w']. intros (ks & Hall & Hcnt & Hrd & Hwr & Hcache) Hstep.
  cbn [fst snd] in *. unfold step in Hstep. cbn [fst snd] in Hstep.
  destruct (ts !! i) as [p |] eqn:Hp; [| done].
  destruct (Forall2_lookup_l _ _ _ _ _ Hall Hp) as (k & Hk & Hok).
  assert (Hle : count_in ks <= 1) by (destruct (writer _); lia).
  pose proof (fun k' => count_in_insert ks i k k' Hk) as Hins.
  pose proof (fun k' => count_read_insert ks i k k' Hk) as Hinr.
  destruct k; cbn in Hok.
  - (* outside the lock *)
    destruct Hok as [(n & t & ->) | [(n & t & ->) | (r & ->)]]; [| | done].
    + (* RLock *)
      unfold subscription in Hstep. cbn in Hstep.
      destruct (writer (activeSubscriptionsLock w)) eqn:Hw; simplify_eq/=.
      exists (<[ i := KRead ]> ks). cbn [fst snd]. split_and!.
      * eapply Forall2_step; [done | left; by exists n, t | others2 config ks i Hle Hk].
      * specialize (Hins KRead). cbn in *. lia.
      * specialize (Hinr KRead). cbn in *. lia.
      * done.
      * done.
    + (* Lock *)
      unfold locked_path in Hstep. cbn in Hstep.
      destruct (writer (activeSubscriptionsLock w)) eqn:Hw; simplify_eq/=.
      destruct (readers (activeSubscriptionsLock w)) eqn:Hr; simplify_eq/=.
      exists (<[ i := KIn ]> ks). cbn [fst snd]. split_and!.
      * eapply Forall2_step; [done | | others2 config ks i Hle Hk].
        left. exists n, (slow_path config n t).
        split_and!; [done | apply safe_slow_path | apply ends_in_slow_path].
      * specialize (Hins KIn). cbn in *. lia.
      * specialize (Hinr KIn). cbn in *. lia.
      * intros _. specialize (Hinr KIn). cbn in *. lia.
      * done.
  - (* holding the lock for reading *)
    destruct Hok as [(n & t & ->) | (n & t & r & ->)].
    + (* the map lookup *)
      cbn in Hstep. simplify_eq/=.
      exists (<[ i := KRead ]> ks). cbn [fst snd]. split_and!.
      * eapply Forall2_step; [done | right; by eexists n, t, _ | others2 config ks i Hle Hk].
      * specialize (Hins KRead). cbn in *. lia.
      * specialize (Hinr KRead). cbn in *. lia.
      * intros Hw. specialize (Hinr KRead). specialize (Hwr Hw). cbn in *. lia.
      * done.
    + (* RUnlock *)
      cbn in Hstep. destruct (readers (activeSubscriptionsLock w)) eqn:Hr; simplify_eq/=.
      exists (<[ i := KOut ]> ks). cbn [fst snd]. split_and!.
      * eapply Forall2_step; [done | | others2 config ks i Hle Hk].
        destruct r as [sub |]; cbn; [right; right; by eexists | right; left; by exists n, t].
      * specialize (Hins KOut). cbn in *. lia.
      * specialize (Hinr KOut). cbn in *. lia.
      * intros Hw. specialize (Hwr Hw). lia.
      * done.
  - (* holding the lock for writing *)
    destruct Hok as [(n & b & -> & Hsafe & Hends) | (r & ->)].
    + destruct b as [fr | X a kk].
      * (* the deferred calls begin *)
        cbn in Hstep, Hends. unfold finish, deferred in Hstep.
        destruct (f_err fr) eqn:Herr; cbn in Hstep.
        -- destruct (writer (activeSubscriptionsLock w)) eqn:Hw; simplify_eq/=.
           exists (<[ i := KOut ]> ks). cbn [fst snd]. split_and!.
           ++ eapply Forall2_step; [done | right; right; by eexists | others2 config ks i Hle Hk].
           ++ specialize (Hins KOut). cbn in *. lia.
           ++ specialize (Hinr KOut). cbn in *. lia.
           ++ done.
           ++ done.
        -- simplify_eq/=.
           exists (<[ i := KIn ]> ks). cbn [fst snd]. split_and!.
           ++ eapply Forall2_step; [done | right; by eexists | others2 config ks i Hle Hk].
           ++ specialize (Hins KIn). cbn in *. lia.
           ++ specialize (Hinr KIn). cbn in *. lia.
           ++ intros Hw. specialize (Hwr Hw). specialize (Hinr KIn). cbn in *. lia.
           ++ intros m sub. cbn. destruct (decide (m = n)) as [-> | Hne].
              ** rewrite lookup_insert_eq. intros [= <-]. left. by apply Hends.
              ** rewrite lookup_insert_ne by done. apply Hcache.
      * (* a call of the slow path *)
        cbn in Hstep. destruct (perform a w) as [[x w1] |] eqn:Hperf; simplify_eq/=.
        destruct Hsafe as [Hal Hnext].
        pose proof (allowed_perform_lock _ _ _ _ Hal Hperf) as Hlock.
        exists (<[ i := KIn ]> ks). cbn [fst snd]. split_and!.
        -- eapply Forall2_step; [done | | others2 config ks i Hle Hk].
           left. exists n, (kk x). split_and!; [done | by eapply Hnext | by eapply Hends].
        -- specialize (Hins KIn). cbn in *. rewrite Hlock. lia.
        -- specialize (Hinr KIn). cbn in *. rewrite Hlock. lia.
        -- rewrite Hlock. intros Hw. specialize (Hwr Hw). specialize (Hinr KIn). cbn in *. lia.
        -- intros m sub Hm. apply (Hcache m sub). rewrite <- Hm.
           destruct a; cbn in Hal, Hperf; try done; unfold next_fault in Hperf;
             repeat case_match; by simplify_eq/=.
    + (* Unlock *)
      cbn in Hstep. destruct (writer (activeSubscriptionsLock w)) eqn:Hw; simplify_eq/=.
      exists (<[ i := KOut ]> ks). cbn [fst snd]. split_and!.
      * eapply Forall2_step; [done | right; right; by eexists | others2 config ks i Hle Hk].
      * specialize (Hins KOut). cbn in *. lia.
      * specialize (Hinr KOut). cbn in *. lia.
      * done.
      * done.
Qed.

Lemma run_inv2 config C sched st st' :
  inv2 config C st -> run sched st = Some st' -> inv2 config C st'.
Proof.
  revert st. induction sched as [| i sched IH]; intros st Hinv Hrun; simplify_eq/=; [done |].
  destruct (step i st) as [st1 |] eqn:Hstep; [| done].
  eapply IH; [| done]. by eapply step_inv2.
Qed.

Lemma start_inv2 config calls w :
  lock_free w -> inv2 config (activeSubscriptions w) (start config calls, w).
Proof.
  intros Hl. exists (replicate (length calls) KOut). cbn [fst snd]. split_and!.
  - unfold start. induction calls as [| [n t] calls IH]; cbn; constructor; [| done].
    left. by exists n, t.
  - rewrite Hl. cbn. induction (length calls); [done | done].
  - rewrite Hl. cbn. induction (length calls); [done | done].
  - intros _. induction (length calls); [done | done].
  - intros n sub Hn. by right.
Qed.

Lemma allowed_performs {X} (a : act X) w :
  allowed (label_of a) (broker w) -> is_Some (perform a w).
Proof.
  destruct a; cbn; try done; intros _; unfold next_fault; repeat case_match; eauto.
Qed.

(** The caller has returned. *)
Definition has_returned (p : prog result) : bool :=
  match p with
  | Ret _ => true
  | Vis _ _ => false
  end.

Lemma can_step (ts : list (prog result)) w i X (a : act X) k :
  ts !! i = Some (Vis a k) -> is_Some (perform a w) -> is_Some (step i (ts, w)).
Proof.
  intros Hi [[x w'] Hp]. unfold step. cbn [fst snd].
  match goal with |- context [match ?t with _ => _ end] => destruct t as [q |] eqn:Hq end;
    simplify_eq.
  rewrite Hp. by eexists.
Qed.

(** X18. Callers of [subscription] never deadlock: whatever the
    interleaving of any number of callers, from a world where the lock is
    free, either some caller can make its next call, or every caller has
    returned and the lock is free again. A caller that holds the lock,
    for reading or for writing, can always make its next call. *)
Theorem registry_never_deadlocks config calls w0 sched ts w :
  lock_free w0 ->
  run sched (start config calls, w0) = Some (ts, w) ->
  ((exists i, is_Some (step i (ts, w)))
   \/ (forallb has_returned ts = true /\ lock_free w))
  /\ (forall i p l, ts !! i = Some p -> head p = Some l ->
        l <> L_RLock -> l <> L_Lock -> is_Some (step i (ts, w))).
Proof.
  intros Hl Hrun.
  destruct (run_inv2 config _ sched _ _ (start_inv2 config calls w0 Hl) Hrun)
    as (ks & Hall & Hcnt & Hrd & Hwr & _).
  cbn [fst snd] in *.
  assert (Hheld : forall i p k, ts !! i = Some p -> ks !! i = Some k -> k <> KOut ->
                    is_Some (step i (ts, w))).
  { intros i p k Hi Hk Hne.
    pose proof (Forall2_lookup_lr _ _ _ _ _ _ Hall Hi Hk) as Hok.
    destruct k; [done | |]; cbn in Hok.
    - destruct Hok as [(n & t & ->) | (n & t & r & ->)].
      + eapply can_step; [done | by eexists].
      + eapply can_step; [done |]. cbn.
        assert (0 < count_read ks).
        { clear -Hk. revert i Hk. induction ks as [| k0 ks IH]; intros [| i] Hk;
            simplify_eq/=; [lia |]. specialize (IH _ Hk). destruct k0; lia. }
        destruct (readers (activeSubscriptionsLock w)); [lia | by eexists].
    - assert (Hw : writer (activeSubscriptionsLock w) = true).
      { destruct (writer (activeSubscriptionsLock w)); [done |]. exfalso.
        clear -Hk Hcnt. revert i Hk. induction ks as [| k0 ks IH]; intros [| i] Hk;
          simplify_eq/=. destruct k0; eauto; lia. }
      destruct Hok as [(n & b & -> & Hsafe & _) | (r & ->)].
      + destruct b as [fr | X a kk]; cbn in *.
        * unfold finish, deferred in Hi. destruct (f_err fr); cbn in Hi.
          -- eapply can_step; [exact Hi |]. cbn. rewrite Hw. by eexists.
          -- eapply can_step; [exact Hi | by eexists].
        * destruct Hsafe as [Hal _]. eapply can_step; [done | by apply allowed_performs].
      + eapply can_step; [done |]. cbn. rewrite Hw. by eexists. }
  split.
  - destruct (writer (activeSubscriptionsLock w)) eqn:Hw.
    + left. destruct (count_in_pos ks ltac:(lia)) as [i Hi].
      destruct (Forall2_lookup_r _ _ _ _ _ Hall Hi) as (p & Hp & _).
      exists i. by eapply Hheld.
    + destruct (decide (0 < count_read ks)) as [Hpos | Hzero].
      * left. destruct (count_read_pos ks Hpos) as [i Hi].
        destruct (Forall2_lookup_r _ _ _ _ _ Hall Hi) as (p & Hp & _).
        exists i. by eapply Hheld.
      * assert (Hr0 : readers (activeSubscriptionsLock w) = 0) by lia.
        assert (Hout : forall i p, ts !! i = Some p ->
                         has_returned p = true \/ is_Some (step i (ts, w))).
        { intros i p Hi. destruct (Forall2_lookup_l _ _ _ _ _ Hall Hi) as (k & Hk & Hok).
          assert (k = KOut) as -> by (eapply count_none; [done | lia | done]).
          destruct Hok as [(n & t & ->) | [(n & t & ->) | (r & ->)]]; [right | right | by left].
          - eapply can_step; [done |]. cbn. rewrite Hw. by eexists.
          - eapply can_step; [done |]. cbn. rewrite Hw, Hr0. by eexists. }
        destruct (forallb has_returned ts) eqn:Hfa.
        -- right. split; [done |]. unfold lock_free. revert Hw Hr0.
           destruct (activeSubscriptionsLock w) as [wr rd]; cbn. by intros -> ->.
        -- left. destruct (forallb_false_lookup _ _ Hfa) as (i & p & Hi & Hnot). exists i.
           destruct (Hout _ _ Hi) as [Hret | ?]; [| done]. by rewrite Hret in Hnot.
  - intros i p l Hi Hh Hn1 Hn2.
    destruct (Forall2_lookup_l _ _ _ _ _ Hall Hi) as (k & Hk & Hok).
    eapply Hheld; [done | done |]. intros ->.
    destruct Hok as [(n & t & ->) | [(n & t & ->) | (r & ->)]]; by simplify_eq/=.
Qed.

(** X19. Whatever the interleaving of any number of callers of
    [subscription], every entry of the cache is an entry that was there at
    the start or a handle, not nil, of the subscription whose name it is
    filed under: concurrent callers may replace each other's handles, but
    never with a nil handle or with the handle of another subscription. *)
Theorem cache_holds_named_handles config calls w0 sched ts w :
  lock_free w0 ->
  run sched (start config calls, w0) = Some (ts, w) ->
  forall n sub, activeSubscriptions w !! n = Some sub ->
    good_handle n sub \/ activeSubscriptions w0 !! n = Some sub.
Proof.
  intros Hl Hrun.
  destruct (run_inv2 config _ sched _ _ (start_inv2 config calls w0 Hl) Hrun)
    as (ks & _ & _ & _ & _ & Hcache).
  apply Hcache.
Qed.

(** The calls [subscription] makes between [RLock] and [RUnlock],
    [RUnlock] included. *)
Definition under_read_lock (l : label) : bool :=
  match l with
  | L_Load _ | L_RUnlock => true
  | _ => false
  end.

Lemma count_in_at ks i : ks !! i = Some KIn -> 0 < count_in ks.
Proof.
  revert i. induction ks as [| k ks IH]; intros [| i] Hi; simplify_eq/=; [lia |].
  specialize (IH _ Hi). destruct k; lia.
Qed.

Lemma count_read_at ks i : ks !! i = Some KRead -> 0 < count_read ks.
Proof.
  revert i. induction ks as [| k ks IH]; intros [| i] Hi; simplify_eq/=; [lia |].
  specialize (IH _ Hi). destruct k; lia.
Qed.

Lemma kind_of_head config w p k l :
  thread_ok2 config w p k -> head p = Some l ->
  (under_read_lock l = true -> k = KRead) /\ (under_lock l = true -> k = KIn).
Proof.
  destruct k; cbn.
  - intros [(n & t & ->) | [(n & t & ->) | (r & ->)]] Hh; by simplify_eq/=.
  - intros [(n & t & ->) | (n & t & r & ->)] Hh; by simplify_eq/=.
  - intros [(n & b & -> & Hsafe & _) | (r & ->)] Hh; [| by simplify_eq/=].
    split; [| done]. destruct b as [fr | X a kk]; cbn in *.
    + unfold finish, deferred in Hh. destruct (f_err fr); by simplify_eq/=.
    + destruct Hsafe as [Hal _]. simplify_eq/=. by destruct (label_of a).
Qed.

(** X23. The cache map is never read while it is written: whatever the
    interleaving of any number of callers of [subscription], from a free
    lock, a caller between [RLock] and [RUnlock] (where the map is read)
    finds the lock held by readers only, a caller between [Lock] and
    [Unlock] (where the map is written) finds it held by the writer only, and
    so no caller is at the map lookup while another is under the exclusive
    lock. *)
Theorem cache_reads_never_overlap_writes config calls w0 sched ts w :
  lock_free w0 ->
  run sched (start config calls, w0) = Some (ts, w) ->
  (forall i p l, ts !! i = Some p -> head p = Some l -> under_read_lock l = true ->
     writer (activeSubscriptionsLock w) = false /\ 0 < readers (activeSubscriptionsLock w))
  /\ (forall i p l, ts !! i = Some p -> head p = Some l -> under_lock l = true ->
        writer (activeSubscriptionsLock w) = true /\ readers (activeSubscriptionsLock w) = 0)
  /\ (forall i j pi pj li lj,
        ts !! i = Some pi -> ts !! j = Some pj ->
        head pi = Some li -> head pj = Some lj ->
        under_read_lock li = true -> under_lock lj = true -> False).
Proof.
  intros Hl Hrun.
  destruct (run_inv2 config _ sched _ _ (start_inv2 config calls w0 Hl) Hrun)
    as (ks & Hall & Hcnt & Hrd & Hwr & _).
  cbn [fst snd] in *.
  assert (Hread : forall i p l, ts !! i = Some p -> head p = Some l ->
                    under_read_lock l = true ->
                    writer (activeSubscriptionsLock w) = false
                    /\ 0 < readers (activeSubscriptionsLock w)).
  { intros i p l Hi Hh Hu.
    destruct (Forall2_lookup_l _ _ _ _ _ Hall Hi) as (k & Hk & Hok).
    destruct (kind_of_head _ _ _ _ _ Hok Hh) as [Hkr _]. rewrite (Hkr Hu) in Hk.
    pose proof (count_read_at _ _ Hk) as Hpos. split; [| lia].
    destruct (writer (activeSubscriptionsLock w)); [| done]. specialize (Hwr eq_refl). lia. }
  assert (Hwrite : forall i p l, ts !! i = Some p -> head p = Some l ->
                     under_lock l = true ->
                     writer (activeSubscriptionsLock w) = true
                     /\ readers (activeSubscriptionsLock w) = 0).
  { intros i p l Hi Hh Hu.
    destruct (Forall2_lookup_l _ _ _ _ _ Hall Hi) as (k & Hk & Hok).
    destruct (kind_of_head _ _ _ _ _ Hok Hh) as [_ Hki]. rewrite (Hki Hu) in Hk.
    pose proof (count_in_at _ _ Hk) as Hpos.
    destruct (writer (activeSubscriptionsLock w)); [| lia]. split; [done |].
    specialize (Hwr eq_refl). lia. }
  split; [done |]. split; [done |].
  intros i j pi pj li lj Hi Hj Hhi Hhj Hui Huj.
  destruct (Hread _ _ _ Hi Hhi Hui) as [Hw _]. destruct (Hwrite _ _ _ Hj Hhj Huj) as [Hw' _].
  congruence.
Qed.

End Model.

Arguments Subscription : clear implicits.
Arguments SubscriptionConfig : clear implicits.
Arguments SubscriberConfig : clear implicits.
Arguments Broker : clear implicits.
Arguments World : clear implicits.

(** A run on a concrete broker: topic [orders] exists, nothing else does. *)
Definition broker0 : Broker nat :=
  {| b_topics := {[ "orders" ]}; b_subs := ∅ |}.
Definition world0 (f : nat -> option error) : World nat nat :=
  {| activeSubscriptions := ∅;
     activeSubscriptionsLock := {| writer := false; readers := 0 |};
     broker := broker0; next_handle := 0; rpc_log := []; faults := f |}.
Definition config0 (noSub noTopic : bool) : SubscriberConfig nat nat :=
  {| SubscriptionName := fun t => t;
     DoNotCreateSubscriptionIfMissing := noSub;
     DoNotCreateTopicIfMissing := noTopic;
     ReceiveSettings := 7;
     SubscriptionConfig_ := {| cfg_Topic := None; cfg_options := 3 |} |}.

(** The third request fails ([Unavailable]); the others are answered. *)
Definition third_fails (k : nat) : option error :=
  if decide (k = 2) then Some (errors_New "rpc error: code = Unavailable") else None.

Definition all_answered (k : nat) : option error := None.

Definition two_callers : list (program (@act nat nat) (@result nat)) :=
  start (config0 false false) [("orders", "orders"); ("orders", "orders")].

(** Both callers miss the cache before either takes the exclusive lock; the
    first then runs its slow path to the end. *)
Definition both_miss_first_creates : list nat :=
  [0; 0; 0; 1; 1; 1; 0; 0; 0; 0; 0; 0; 0].


Lemma subscription_cache_idempotent_witness :
  lock_free (world0 all_answered)
  /\ exists h w',
       exec 0 (subscription (config0 false false) "orders" "orders") (world0 all_answered)
       = Finished (Returned (Some h) None) w'
       /\ activeSubscriptions w' !! "orders" = Some (Some h).
Proof.
  split; [done |].
  pose proof (subscription_cache_idempotent 0 (config0 false false) "orders" "orders"
                  (world0 all_answered)) as H.
  remember (exec 0 (subscription (config0 false false) "orders" "orders") (world0 all_answered)) as o eqn:Ho.
  vm_compute in Ho. subst o.
  eexists _, _. split; [reflexivity |].
  exact (proj1 (H _ _ eq_refl eq_refl)).
Defined.

Lemma registry_mutual_exclusion_witness :
  lock_free (world0 all_answered)
  /\ rpc_log (world0 all_answered) = []
  /\ exists ts w,
       run 0 (both_miss_first_creates ++ [1; 1; 1; 1; 1]) (two_callers, world0 all_answered)
       = Some (ts, w)
       /\ created "orders" (rpc_log w) <= 1.
Proof.
  split; [done |]. split; [done |].
  pose proof (registry_mutual_exclusion 0 (config0 false false)
                         [("orders", "orders"); ("orders", "orders")]
                         (world0 all_answered) (both_miss_first_creates ++ [1; 1; 1; 1; 1])) as H.
  fold two_callers in H.
  remember (run 0 (both_miss_first_creates ++ [1; 1; 1; 1; 1]) (two_callers, world0 all_answered)) as o eqn:Ho.
  vm_compute in Ho. subst o.
  eexists _, _. split; [reflexivity |].
  exact (proj2 (proj2 (H _ _  eq_refl eq_refl eq_refl)) "orders").
Defined.

(** C1, as stated, fails: the second caller, holding the exclusive lock,
    is about to ask the broker whether [orders] exists while the cache
    already has it. *)
Lemma second_caller_queries_broker_despite_cache :
  exists ts w h,
    run 0 (both_miss_first_creates ++ [1; 1]) (two_callers, world0 all_answered)
    = Some (ts, w)
    /\ activeSubscriptions w !! "orders" = Some (Some h)
    /\ head <$> ts !! 1 = Some (Some (L_sub_Exists "orders")).
Proof.
  remember (run 0 (both_miss_first_creates ++ [1; 1]) (two_callers, world0 all_answered)) as o eqn:Ho.
  vm_compute in Ho. subst o.
  eexists _, _, _. split; [reflexivity |]. split; vm_compute; reflexivity.
Qed.

(** C10, as stated, fails when callers overlap: the first caller was
    returned handle 1, the second caller then stores handle 2 in the cache,
    and a later call returns handle 2. *)
Lemma overlapping_callers_replace_cached_handle :
  exists ts w h1 h2,
    run 0 (both_miss_first_creates ++ [1; 1; 1; 1; 1]) (two_callers, world0 all_answered)
    = Some (ts, w)
    /\ ts !! 0 = Some (Ret (Returned (Some h1) None))
    /\ exec 0 (subscription (config0 false false) "orders" "orders") w
       = Finished (Returned (Some h2) None) w
    /\ sub_id h1 <> sub_id h2.
Proof.
  remember (run 0 (both_miss_first_creates ++ [1; 1; 1; 1; 1]) (two_callers, world0 all_answered)) as o eqn:Ho.
  vm_compute in Ho. subst o.
  eexists _, _, _, _. split; [reflexivity |].
  split; [reflexivity |]. split; [vm_compute; reflexivity |].
  vm_compute. lia.
Qed.

(** C9: with the topic present and the creation request failing, line 257
    dereferences the nil handle: [subscription] panics. The deferred calls
    still run: nothing is cached and the lock is released. *)
Theorem failed_creation_dereferences_nil :
  exists w',
    exec 0 (subscription (config0 false false) "orders" "orders") (world0 third_fails)
    = Finished Panicked w'
    /\ rpc_log w'
       = [(rpc_SubscriptionExists "orders", None);
          (rpc_TopicExists "orders", None);
          (rpc_CreateSubscription "orders"
             {| cfg_Topic := Some {| topic_name := "orders" |}; cfg_options := 3 |},
           Some (errors_New "rpc error: code = Unavailable"))]
    /\ activeSubscriptions w' = ∅
    /\ lock_free w'.
Proof.
  remember (exec 0 (subscription (config0 false false) "orders" "orders") (world0 third_fails)) as o eqn:Ho.
  vm_compute in Ho. subst o.
  eexists. split; [reflexivity |]. split; [vm_compute; reflexivity |].
  split; vm_compute; reflexivity.
Qed.

(** A broker that has the subscription [orders], bound to the topic
    [invoices]. *)
Definition broker1 : Broker nat :=
  {| b_topics := {[ "invoices" ]}; b_subs := {[ "orders" := ("invoices", 5) ]} |}.
Definition world1 : World nat nat :=
  {| activeSubscriptions := ∅;
     activeSubscriptionsLock := {| writer := false; readers := 0 |};
     broker := broker1; next_handle := 0; rpc_log := []; faults := all_answered |}.

Lemma subscription_error_leaves_no_trace_witness :
  lock_free (world0 all_answered)
  /\ exists w',
       exec 0 (subscription (config0 true false) "orders" "orders") (world0 all_answered)
       = Finished (Returned None (Some (missing_sub_error "orders"))) w'
       /\ broker w' = broker (world0 all_answered)
       /\ activeSubscriptions w' = activeSubscriptions (world0 all_answered).
Proof.
  split; [done |].
  pose proof (subscription_error_leaves_no_trace 0 (config0 true false) "orders" "orders"
                (world0 all_answered)) as H.
  remember (exec 0 (subscription (config0 true false) "orders" "orders")
              (world0 all_answered)) as o eqn:Ho.
  vm_compute in Ho. subst o.
  eexists. split; [reflexivity |].
  destruct (H _ _ _ eq_refl eq_refl) as (_ & Hc & Hb & _).
  split; [exact Hb | exact Hc].
Defined.


Lemma subscription_adopts_existing_witness :
  lock_free world1
  /\ activeSubscriptions world1 !! "orders" = None
  /\ is_Some (b_subs (broker world1) !! "orders")
  /\ answered world1 1
  /\ exists h w',
       exec 0 (subscription (config0 true true) "orders" "payments") world1
       = Finished (Returned (Some h) None) w'
       /\ sub_ReceiveSettings h = 0
       /\ broker w' = broker world1.
Proof.
  assert (Hs : is_Some (b_subs (broker world1) !! "orders"))
    by (exists ("invoices", 5); vm_compute; reflexivity).
  assert (Ha : answered world1 1) by (intros i _; reflexivity).
  split; [done |]. split; [done |]. split; [exact Hs |]. split; [exact Ha |].
  destruct (subscription_adopts_existing 0 (config0 true true) "orders" "payments" world1
              eq_refl eq_refl Hs Ha) as (h & w' & He & _ & Hrs & _ & Hb & _).
  exists h, w'. split; [exact He |]. split; [exact Hrs | exact Hb].
Defined.

Lemma subscription_frame_witness :
  lock_free (world0 all_answered)
  /\ exists r w',
       exec 0 (subscription (config0 false false) "orders" "orders") (world0 all_answered)
       = Finished r w'
       /\ exists l, rpc_log w' = rpc_log (world0 all_answered) ++ l /\ length l <= 4.
Proof.
  split; [done |].
  pose proof (subscription_frame 0 (config0 false false) "orders" "orders"
                (world0 all_answered)) as H.
  remember (exec 0 (subscription (config0 false false) "orders" "orders")
              (world0 all_answered)) as o eqn:Ho.
  vm_compute in Ho. subst o.
  eexists _, _. split; [reflexivity |].
  destruct (H _ _ eq_refl eq_refl) as ((l & Hlog & Hlen & _) & _).
  exists l. split; [exact Hlog | exact Hlen].
Defined.

Lemma subscription_never_nil_without_error_witness :
  lock_free (world0 all_answered)
  /\ cache_good (world0 all_answered)
  /\ exists r w',
       exec 0 (subscription (config0 false false) "orders" "orders") (world0 all_answered)
       = Finished r w'
       /\ cache_good w'.
Proof.
  assert (Hg : cache_good (world0 all_answered)) by (intros n sub Hn; discriminate Hn).
  split; [done |]. split; [exact Hg |].
  pose proof (subscription_never_nil_without_error 0 (config0 false false) "orders" "orders"
                (world0 all_answered)) as H.
  remember (exec 0 (subscription (config0 false false) "orders" "orders")
              (world0 all_answered)) as o eqn:Ho.
  vm_compute in Ho. subst o.
  eexists _, _. split; [reflexivity |].
  exact (proj1 (H _ _ eq_refl Hg eq_refl)).
Defined.

Lemma registry_never_deadlocks_witness :
  lock_free (world0 all_answered)
  /\ exists ts w,
       run 0 both_miss_first_creates (two_callers, world0 all_answered) = Some (ts, w)
       /\ ((exists i, is_Some (step 0 i (ts, w)))
           \/ (forallb has_returned ts = true /\ lock_free w)).
Proof.
  split; [done |].
  pose proof (registry_never_deadlocks 0 (config0 false false)
                [("orders", "orders"); ("orders", "orders")]
                (world0 all_answered) both_miss_first_creates) as H.
  fold two_callers in H.
  remember (run 0 both_miss_first_creates (two_callers, world0 all_answered)) as o eqn:Ho.
  vm_compute in Ho. subst o.
  eexists _, _. split; [reflexivity |].
  exact (proj1 (H _ _ eq_refl eq_refl)).
Defined.

Lemma cache_holds_named_handles_witness :
  lock_free (world0 all_answered)
  /\ exists ts w,
       run 0 (both_miss_first_creates ++ [1; 1; 1; 1; 1]) (two_callers, world0 all_answered)
       = Some (ts, w)
       /\ forall n sub, activeSubscriptions w !! n = Some sub ->
            good_handle n sub \/ activeSubscriptions (world0 all_answered) !! n = Some sub.
Proof.
  split; [done |].
  pose proof (cache_holds_named_handles 0 (config0 false false)
                [("orders", "orders"); ("orders", "orders")]
                (world0 all_answered) (both_miss_first_creates ++ [1; 1; 1; 1; 1])) as H.
  fold two_callers in H.
  remember (run 0 (both_miss_first_creates ++ [1; 1; 1; 1; 1])
              (two_callers, world0 all_answered)) as o eqn:Ho.
  vm_compute in Ho. subst o.
  eexists _, _. split; [reflexivity |].
  exact (H _ _ eq_refl eq_refl).
Defined.

Lemma cache_reads_never_overlap_writes_witness :
  lock_free (world0 all_answered)
  /\ exists ts w,
       run 0 [0; 0; 1] (two_callers, world0 all_answered) = Some (ts, w)
       /\ writer (activeSubscriptionsLock w) = false
       /\ 0 < readers (activeSubscriptionsLock w).
Proof.
  split; [done |].
  pose proof (cache_reads_never_overlap_writes 0 (config0 false false)
                [("orders", "orders"); ("orders", "orders")]
                (world0 all_answered) [0; 0; 1]) as H.
  fold two_callers in H.
  remember (run 0 [0; 0; 1] (two_callers, world0 all_answered)) as o eqn:Ho.
  vm_compute in Ho. subst o.
  eexists _, _. split; [reflexivity |].
  exact (proj1 (H _ _ eq_refl eq_refl) 0 _ L_RUnlock eq_refl eq_refl eq_refl).
Defined.

End Registry.

(** ** Messages *)

(** Modelled from the spec: [message.Message] lives in the [message]
    package, which is not part of the sources at hand. The spec gives it a
    UUID, a payload, metadata, and an acknowledgment state that leaves
    [Pending] at most once. *)
Record Message : Type := {
  UUID : string;
  Payload : string;
  Metadata : gmap string string;
}.

(** Modelled from the spec: the acknowledgment state of a message; [Ack]
    and [Nack] take it out of [Pending], the first call only, and the signal
    of [Acked()], of [Nacked()], is there exactly in the state of that name. *)
Inductive AckState : Type := Pending | Acked | Nacked.

(** * The NATS Streaming publisher *)

Module Nats.

Section Publisher.

(** What the marshaler produces ([[]byte] in Go). *)
Context {Bytes : Type}.

(** [p.config.Marshaler.Marshal]: the codec is the caller's. *)
Context (Marshal : string -> Message -> Bytes + error).

(** A call of [p.conn.Publish] and the error it returned, which is nil once
    the server has acknowledged the message. *)
Record submission : Type := {
  s_topic : string;
  s_data : Bytes;
  s_err : option error;
}.

(** The publisher's surroundings: the log, the marshaler (its calls are
    recorded) and the connection. [conn_faults n] is the error, if any, of
    the submission number [n]. *)
Record State : Type := {
  traces : list (string * string);
  marshaled : list (string * Message * (Bytes + error));
  submitted : list submission;
  conn_faults : nat -> option error;
}.

Definition logger_Trace (message_uuid topic_name : string) (s : State) : State :=
  {| traces := traces s ++ [(message_uuid, topic_name)];
     marshaled := marshaled s; submitted := submitted s; conn_faults := conn_faults s |}.

Definition Marshaler_Marshal (topic : string) (msg : Message) (s : State)
    : (Bytes + error) * State :=
  (Marshal topic msg,
   {| traces := traces s;
      marshaled := marshaled s ++ [(topic, msg, Marshal topic msg)];
      submitted := submitted s; conn_faults := conn_faults s |}).

Definition conn_Publish (topic : string) (b : Bytes) (s : State) : option error * State :=
  let e := conn_faults s (length (submitted s)) in
  (e,
   {| traces := traces s; marshaled := marshaled s;
      submitted := submitted s ++ [{| s_topic := topic; s_data := b; s_err := e |}];
      conn_faults := conn_faults s |}).

(** [StreamingPublisher.Publish], lines 68-88. *)
Fixpoint Publish (topic : string) (messages : list Message) (s : State)
    : option error * State :=
  match messages with
  | [] => (None, s)
  | msg :: messages' =>
      let s := logger_Trace (UUID msg) topic s in
      match Marshaler_Marshal topic msg s with
      | (inr err, s) => (Some err, s)
      | (inl b, s) =>
          match conn_Publish topic b s with
          | (Some err, s) => (Some (errors_Wrap err "sending message failed"), s)
          | (None, s) => Publish topic messages' s
          end
      end
  end.

(** The submissions of messages [msgs], in order, all acknowledged. *)
Definition acknowledged (topic : string) (msgs : list Message) (subs : list submission)
    : Prop :=
  Forall2 (fun m s => Marshal topic m = inl (s_data s) /\ s_topic s = topic /\ s_err s = None)
          msgs subs.



(** *** What a call of [Publish] does, whatever its outcome *)

(** The log lines of the messages [msgs]: line 75 logs the UUID and the
    topic. *)
Definition traces_of (topic : string) (msgs : list Message) : list (string * string) :=
  map (fun m => (UUID m, topic)) msgs.

(** The marshaler calls made for the messages [msgs]. *)
Definition marshaled_of (topic : string) (msgs : list Message)
    : list (string * Message * (Bytes + error)) :=
  map (fun m => (topic, m, Marshal topic m)) msgs.

Definition marshals (topic : string) (m : Message) : Prop :=
  exists b, Marshal topic m = inl b.

(** The server acknowledges the next [k] submissions. *)
Definition accepting (s : State) (k : nat) : Prop :=
  forall i, i < k -> conn_faults s (length (submitted s) + i) = None.

(** The state after the message [m] went through the loop body without
    error. *)
Definition published (topic : string) (m : Message) (b : Bytes) (s : State) : State :=
  {| traces := traces s ++ [(UUID m, topic)];
     marshaled := marshaled s ++ [(topic, m, inl b)];
     submitted := submitted s ++ [{| s_topic := topic; s_data := b; s_err := None |}];
     conn_faults := conn_faults s |}.

Lemma Publish_cons topic m msgs s :
  Publish topic (m :: msgs) s
  = match Marshal topic m with
    | inr err =>
        (Some err,
         {| traces := traces s ++ [(UUID m, topic)];
            marshaled := marshaled s ++ [(topic, m, inr err)];
            submitted := submitted s; conn_faults := conn_faults s |})
    | inl b =>
        match conn_faults s (length (submitted s)) with
        | Some err =>
            (Some (errors_Wrap err "sending message failed"),
             {| traces := traces s ++ [(UUID m, topic)];
                marshaled := marshaled s ++ [(topic, m, inl b)];
                submitted := submitted s
                             ++ [{| s_topic := topic; s_data := b; s_err := Some err |}];
                conn_faults := conn_faults s |})
        | None => Publish topic msgs (published topic m b s)
        end
    end.
Proof.
  cbn. destruct (Marshal topic m) as [b | err]; cbn; [| done].
  by destruct (conn_faults s (length (submitted s))).
Qed.

Lemma accepting_published topic m b s k :
  accepting s (S k) -> accepting (published topic m b s) k.
Proof.
  intros H i Hi. cbn. rewrite length_app. cbn.
  rewrite <- (H (S i)) by lia. f_equal. lia.
Qed.

Lemma accepting_cons topic m b s k :
  conn_faults s (length (submitted s)) = None ->
  accepting (published topic m b s) k -> accepting s (S k).
Proof.
  intros H0 H [| i] Hi; [by rewrite Nat.add_0_r |].
  rewrite <- (H i) by lia. cbn. rewrite length_app. cbn. f_equal. lia.
Qed.

(** X1. A call of [Publish] returns nil exactly when the codec marshals
    every message of the call and the server acknowledges as many
    submissions as there are messages. *)
Theorem Publish_nil_iff topic msgs s :
  (Publish topic msgs s).1 = None
  <-> Forall (marshals topic) msgs /\ accepting s (length msgs).
Proof.
  revert s. induction msgs as [| m msgs IH]; intros s.
  - cbn. split; [intros _ | done]. split; [constructor | intros i Hi; lia].
  - rewrite Publish_cons. destruct (Marshal topic m) as [b | err] eqn:Hm.
    + destruct (conn_faults s (length (submitted s))) as [ce |] eqn:Hf.
      * split; [done |]. intros [_ Ha]. specialize (Ha 0 ltac:(cbn; lia)).
        rewrite Nat.add_0_r in Ha. congruence.
      * rewrite IH. split.
        -- intros [HF Ha]. split; [constructor; [by exists b | done] |].
           by eapply accepting_cons.
        -- intros [HF Ha]. apply Forall_cons in HF as [_ HF]. split; [done |].
           by apply accepting_published.
    + split; [done |]. intros [HF _]. apply Forall_cons in HF as [[b Hb] _]. congruence.
Qed.

(** X2. When a call of [Publish] returns nil, it has logged one line per
    message, marshaled every message once and submitted the result of each
    to the connection, all in the order of the input, every submission
    acknowledged; it has made no other call. *)
Theorem Publish_nil_submits_all topic msgs s :
  (Publish topic msgs s).1 = None ->
  exists subs,
    submitted (Publish topic msgs s).2 = submitted s ++ subs
    /\ acknowledged topic msgs subs
    /\ traces (Publish topic msgs s).2 = traces s ++ traces_of topic msgs
    /\ marshaled (Publish topic msgs s).2 = marshaled s ++ marshaled_of topic msgs.
Proof.
  revert s. induction msgs as [| m msgs IH]; intros s.
  - cbn. intros _. exists []. rewrite !app_nil_r. split_and!; [done | constructor | done | done].
  - rewrite Publish_cons. destruct (Marshal topic m) as [b | err] eqn:Hm; [| done].
    destruct (conn_faults s (length (submitted s))) as [ce |] eqn:Hf; [done |].
    intros Hr. destruct (IH _ Hr) as (subs & Hs & Hack & Ht & Hma).
    exists ({| s_topic := topic; s_data := b; s_err := None |} :: subs).
    rewrite Hs, Ht, Hma. cbn. rewrite <- !app_assoc, Hm. split_and!; try done.
    constructor; [by rewrite Hm | done].
Qed.

(** X3. When a call of [Publish] returns an error, there is one message
    [m], at some position [i], at which the loop stopped: the call logged
    the lines of the messages up to [m] and no other, the [i] messages
    before [m] were submitted in order and acknowledged, and either the
    codec refused [m], the error returned is the codec's own and [m] was not
    submitted, or the connection refused [m]'s bytes, which is the last
    submission made, and the error returned wraps the connection's error as
    "sending message failed" and keeps its cause. *)
Theorem Publish_error_stops_at_first_failure topic msgs s err :
  (Publish topic msgs s).1 = Some err ->
  exists i m subs,
    msgs !! i = Some m
    /\ acknowledged topic (take i msgs) subs
    /\ traces (Publish topic msgs s).2 = traces s ++ traces_of topic (take (S i) msgs)
    /\ marshaled (Publish topic msgs s).2 = marshaled s ++ marshaled_of topic (take (S i) msgs)
    /\ ((Marshal topic m = inr err
         /\ submitted (Publish topic msgs s).2 = submitted s ++ subs)
        \/ (exists b e,
              Marshal topic m = inl b
              /\ conn_faults s (length (submitted s) + i) = Some e
              /\ err = errors_Wrap e "sending message failed"
              /\ Cause err = Cause e
              /\ submitted (Publish topic msgs s).2
                 = submitted s ++ subs
                   ++ [{| s_topic := topic; s_data := b; s_err := Some e |}])).
Proof.
  revert s. induction msgs as [| m msgs IH]; intros s; [done |].
  rewrite Publish_cons. destruct (Marshal topic m) as [b | e0] eqn:Hm.
  - destruct (conn_faults s (length (submitted s))) as [ce |] eqn:Hf.
    + intros [= <-]. exists 0, m, []. cbn. rewrite Hm, Nat.add_0_r.
      split_and!; [done | constructor | done | done |].
      right. exists b, ce. by split_and!.
    + intros Hr. destruct (IH _ Hr) as (i & m' & subs & Hi & Hack & Ht & Hma & Hcase).
      exists (S i), m', ({| s_topic := topic; s_data := b; s_err := None |} :: subs).
      rewrite Ht, Hma. cbn [published traces marshaled submitted].
      rewrite <- !app_assoc. split_and!; [done | | by cbn | by cbn; rewrite Hm |].
      * cbn. constructor; [by rewrite Hm | done].
      * destruct Hcase as [[Hme Hs] | (b' & e & Hmb & Hcf & He & Hc & Hs)].
        -- left. split; [done |]. rewrite Hs. cbn. by rewrite <- app_assoc.
        -- right. exists b', e. split_and!; try done.
           ++ rewrite <- Hcf. cbn. rewrite length_app. cbn. f_equal. lia.
           ++ rewrite Hs. cbn. by rewrite <- !app_assoc.
  - intros [= <-]. exists 0, m, []. cbn. rewrite Hm, app_nil_r.
    split_and!; [done | constructor | done | done |]. by left.
Qed.

(** X4. Publishing a batch is publishing its parts one after the other: a
    call with the messages [l1 ++ l2] does what a call with [l1] does and,
    when that one returns nil, what a call with [l2] then does; when the
    call with [l1] returns an error, nothing of [l2] is touched. A call
    with no message does nothing and returns nil. *)
Theorem Publish_app topic l1 l2 s :
  Publish topic (l1 ++ l2) s
  = match Publish topic l1 s with
    | (None, s') => Publish topic l2 s'
    | (Some err, s') => (Some err, s')
    end.
Proof.
  revert s. induction l1 as [| m l1 IH]; intros s; [done |].
  rewrite <- app_comm_cons, !Publish_cons.
  destruct (Marshal topic m) as [b | err]; [| done].
  destruct (conn_faults s (length (submitted s))); [done |]. apply IH.
Qed.

End Publisher.

Arguments State : clear implicits.

(** A codec that refuses the message whose UUID is [bad], and a connection
    that acknowledges everything. *)
Definition marshal0 (topic : string) (m : Message) : string + error :=
  if decide (UUID m = "bad") then inr (errors_New "cannot marshal") else inl (Payload m).

Definition msg0 (uuid payload : string) : Message :=
  {| UUID := uuid; Payload := payload; Metadata := ∅ |}.

Definition state0 : State string :=
  {| traces := []; marshaled := []; submitted := []; conn_faults := fun _ => None |}.


(** The connection refuses the second submission. *)
Definition state1 : State string :=
  {| traces := []; marshaled := []; submitted := [];
     conn_faults := fun k => if decide (k = 1) then Some (errors_New "stan: publish ack timeout")
                             else None |}.

Lemma Publish_nil_submits_all_witness :
  (Publish marshal0 "orders" [msg0 "1" "x"; msg0 "2" "y"] state0).1 = None
  /\ exists subs,
       submitted (Publish marshal0 "orders" [msg0 "1" "x"; msg0 "2" "y"] state0).2
       = submitted state0 ++ subs
       /\ acknowledged marshal0 "orders" [msg0 "1" "x"; msg0 "2" "y"] subs.
Proof.
  assert (H : (Publish marshal0 "orders" [msg0 "1" "x"; msg0 "2" "y"] state0).1 = None)
    by (vm_compute; reflexivity).
  split; [exact H |].
  destruct (Publish_nil_submits_all marshal0 "orders" _ state0 H) as (subs & Hs & Hack & _).
  exists subs. split; [exact Hs | exact Hack].
Defined.

Lemma Publish_error_stops_at_first_failure_witness :
  (Publish marshal0 "orders" [msg0 "1" "x"; msg0 "2" "y"; msg0 "3" "z"] state1).1
  = Some (errors_Wrap (errors_New "stan: publish ack timeout") "sending message failed")
  /\ exists i m,
       [msg0 "1" "x"; msg0 "2" "y"; msg0 "3" "z"] !! i = Some m
       /\ traces (Publish marshal0 "orders" [msg0 "1" "x"; msg0 "2" "y"; msg0 "3" "z"] state1).2
          = traces state1
            ++ traces_of "orders" (take (S i) [msg0 "1" "x"; msg0 "2" "y"; msg0 "3" "z"]).
Proof.
  assert (H : (Publish marshal0 "orders" [msg0 "1" "x"; msg0 "2" "y"; msg0 "3" "z"] state1).1
              = Some (errors_Wrap (errors_New "stan: publish ack timeout")
                        "sending message failed"))
    by (vm_compute; reflexivity).
  split; [exact H |].
  destruct (Publish_error_stops_at_first_failure marshal0 "orders" _ state1 _ H)
    as (i & m & subs & Hi & _ & Ht & _).
  exists i, m. split; [exact Hi | exact Ht].
Defined.

(** *** [NewStreamingPublisher], [Validate] and [StreamingPublisher.Close] *)

Section Connection.

Context {Bytes : Type}.

(** [stan.Option], [stan.Conn] and [watermill.LoggerAdapter] are not this
    package's. *)
Context {StanOption Conn Logger : Type}.

Record StreamingPublisherConfig : Type := {
  ClusterID : string;
  ClientID : string;
  StanOptions : list StanOption;
  (** an interface value; [None] is nil *)
  Marshaler : option (string -> Message -> Bytes + error);
}.

(** Lines 25-31. *)
Definition Validate (c : StreamingPublisherConfig) : option error :=
  match Marshaler c with
  | None => Some (errors_New "StreamingPublisherConfig.Marshaler is missing")
  | Some _ => None
  end.

Record StreamingPublisher : Type := {
  conn : Conn;
  config : StreamingPublisherConfig;
  logger : Logger;
}.

(** What the publisher's functions do to the NATS Streaming client and to
    the log, oldest first. *)
Inductive event : Type :=
| stan_Connect (clusterID clientID : string) (opts : list StanOption)
| conn_Close (c : Conn)
| Trace (l : Logger) (msg : string).

(** The client: what was done so far, and its answers to a connection
    attempt and to the closing of a connection, which may depend on all that
    happened before. *)
Record Client : Type := {
  history : list event;
  answer_Connect : list event -> Conn + error;
  answer_Close : list event -> option error;
}.

Definition record (ev : event) (c : Client) : Client :=
  {| history := history c ++ [ev];
     answer_Connect := answer_Connect c; answer_Close := answer_Close c |}.

(** Lines 47-62. *)
Definition NewStreamingPublisher (config : StreamingPublisherConfig) (logger : Logger)
    (c : Client) : (StreamingPublisher + error) * Client :=
  match Validate config with
  | Some err => (inr err, c)
  | None =>
      let r := answer_Connect c (history c) in
      let c := record (stan_Connect (ClusterID config) (ClientID config) (StanOptions config)) c in
      match r with
      | inr err => (inr (errors_Wrap err "cannot connect to nats"), c)
      | inl conn => (inl {| conn := conn; config := config; logger := logger |}, c)
      end
  end.

(** Lines 90-99. The call deferred at line 92 runs when [Close] is left, on
    either path. *)
Definition Close (p : StreamingPublisher) (c : Client) : option error * Client :=
  let c := record (Trace (logger p) "Closing publisher") c in
  let deferred := record (Trace (logger p) "StreamingPublisher closed") in
  let r := answer_Close c (history c) in
  let c := record (conn_Close (conn p)) c in
  match r with
  | Some err => (Some (errors_Wrap err "closing NATS conn failed"), deferred c)
  | None => (None, deferred c)
  end.

(** How a call of [Publish] on a publisher value is left. *)
Inductive left_by : Type :=
| returns (err : option error) (s : State Bytes)
| nil_Marshaler (s : State Bytes).

(** [Publish] as a method of the publisher value, lines 68-88: the
    marshaler is the one of the publisher's configuration, and calling
    [Marshal] on a nil interface at line 77 is a run-time panic, after the
    log call of line 75. *)
Definition StreamingPublisher_Publish (p : StreamingPublisher) (topic : string)
    (messages : list Message) (s : State Bytes) : left_by :=
  match Marshaler (config p) with
  | Some m => let r := Publish m topic messages s in returns r.1 r.2
  | None =>
      match messages with
      | [] => returns None s
      | msg :: _ => nil_Marshaler (logger_Trace (UUID msg) topic s)
      end
  end.

(** X5. [NewStreamingPublisher] with a configuration without marshaler
    returns the validation error and does not try to connect. Otherwise it
    connects once, with the cluster id, the client id and the options of the
    configuration; when that fails it returns the client's error wrapped as
    "cannot connect to nats", cause kept; when it succeeds it returns a
    publisher holding that connection, the configuration and the logger it
    was given, and [Publish] on that publisher never calls a nil marshaler:
    it is [Publish] with the configured codec. *)
Theorem NewStreamingPublisher_cases cfg lg c :
  match Marshaler cfg, answer_Connect c (history c) with
  | None, _ =>
      NewStreamingPublisher cfg lg c
      = (inr (errors_New "StreamingPublisherConfig.Marshaler is missing"), c)
  | Some m, inr e =>
      exists err,
        NewStreamingPublisher cfg lg c
        = (inr err, record (stan_Connect (ClusterID cfg) (ClientID cfg) (StanOptions cfg)) c)
        /\ err = errors_Wrap e "cannot connect to nats" /\ Cause err = Cause e
  | Some m, inl cn =>
      exists p,
        NewStreamingPublisher cfg lg c
        = (inl p, record (stan_Connect (ClusterID cfg) (ClientID cfg) (StanOptions cfg)) c)
        /\ conn p = cn /\ config p = cfg /\ logger p = lg
        /\ Validate (config p) = None
        /\ forall topic msgs s,
             StreamingPublisher_Publish p topic msgs s
             = returns (Publish m topic msgs s).1 (Publish m topic msgs s).2
  end.
Proof.
  unfold NewStreamingPublisher, Validate, StreamingPublisher_Publish.
  destruct (Marshaler cfg) as [m |] eqn:Hm; [| done].
  destruct (answer_Connect c (history c)) as [cn | e].
  - eexists. split; [done |]. cbn. by rewrite Hm.
  - by eexists.
Qed.

(** X6. A call of [StreamingPublisher.Close] logs "Closing publisher",
    closes the publisher's connection once, and logs "StreamingPublisher
    closed", in this order and also when closing the connection failed; it
    does nothing else. It returns nil when the connection closed, and
    otherwise the connection's error wrapped as "closing NATS conn failed",
    cause kept. Nothing keeps a second call from closing the connection
    again. *)
Theorem Close_logs_and_closes_once p c :
  let asked := history c ++ [Trace (logger p) "Closing publisher"] in
  history (Close p c).2
  = history c ++ [Trace (logger p) "Closing publisher"; conn_Close (conn p);
                  Trace (logger p) "StreamingPublisher closed"]
  /\ match answer_Close c asked with
     | None => (Close p c).1 = None
     | Some e =>
         exists err, (Close p c).1 = Some err
                     /\ err = errors_Wrap e "closing NATS conn failed"
                     /\ Cause err = Cause e
     end
  /\ history (Close p (Close p c).2).2
     = history (Close p c).2
       ++ [Trace (logger p) "Closing publisher"; conn_Close (conn p);
           Trace (logger p) "StreamingPublisher closed"].
Proof.
  assert (H : forall c0, history (Close p c0).2
                         = history c0 ++ [Trace (logger p) "Closing publisher";
                                          conn_Close (conn p);
                                          Trace (logger p) "StreamingPublisher closed"]).
  { intros c0. unfold Close. cbn.
    destruct (answer_Close c0 _); cbn; by rewrite <- !app_assoc. }
  cbv zeta. split; [apply H |]. split; [| apply H].
  unfold Close. cbn. destruct (answer_Close c _); [by eexists | done].
Qed.

End Connection.

End Nats.

(** * The Google Cloud subscriber: [Subscribe], [Close] and the goroutines *)

Module Lifecycle.

Import Registry.

Section Model.

Context {ReceiveSettingsT SubscriptionOptionsT : Type}.
Context (zeroReceiveSettings : ReceiveSettingsT).

(** [*pubsub.Message], the broker's native message, and the codec
    [s.config.Unmarshaler.Unmarshal]. *)
Context {NativeMsg : Type}.
Context (Unmarshal : NativeMsg -> Message + error).

Context (config : @SubscriberConfig ReceiveSettingsT SubscriptionOptionsT).

Local Abbreviation sub_ptr := (@sub_ptr ReceiveSettingsT).
Local Abbreviation World := (@World ReceiveSettingsT SubscriptionOptionsT).

(** What the broker is told about a native message. *)
Inductive broker_ack : Type := BrokerAck | BrokerNack.

(** The case a [select] statement takes: lines 175-185 and lines 187-194. *)
Inductive select_send : Type := send_closing | send_delivered.
Inductive select_ack : Type := ack_closing | ack_acked | ack_nacked.

(** The calls of [Close], of the two goroutines of [Subscribe] and of the
    receive callback. The calls on [ctx], [receiveFinished] and [output] are
    those of the [Subscribe] call the goroutine belongs to; the calls on
    [pubsubMsg] and on the message's signals are those of the callback's own
    native message. *)
Inductive call : Type -> Type :=
| read_closed : call bool
| set_closed : call unit
| close_closing : call unit
| recv_closing : call unit
| wg_Wait : call unit
| wg_Done : call unit
| client_Close : call (option error)
| logger (msg : string) : call unit
| cancel : call unit
| recv_receiveFinished : call unit
| close_receiveFinished : call unit
| close_output : call unit
| sub_Receive : call (option error)
| pubsubMsg_Nack : call unit
| pubsubMsg_Ack : call unit
| select_closing_or_send (msg : Message) : call select_send
| select_closing_acked_nacked : call select_ack.

Local Open Scope prog_scope.

(** The callback given to [sub.Receive], lines 167-195. *)
Definition callback (pubsubMsg : NativeMsg) : program call unit :=
  match Unmarshal pubsubMsg with
  | inr err =>
      logger "Could not unmarshal Google Cloud PubSub message" ;;
      pubsubMsg_Nack ;;
      Ret tt
  | inl msg =>
      let* c := select_closing_or_send msg in
      match c with
      | send_closing =>
          logger "Message not consumed, subscriber is closing" ;;
          pubsubMsg_Nack ;;
          Ret tt
      | send_delivered =>
          let* c := select_closing_acked_nacked in
          match c with
          | ack_closing => pubsubMsg_Nack ;; Ret tt
          | ack_acked => pubsubMsg_Ack ;; Ret tt
          | ack_nacked => pubsubMsg_Nack ;; Ret tt
          end
      end
  end.

(** [Subscriber.receive], lines 161-203; [s.closed] is read only when [err]
    is not nil. *)
Definition receive : program call (option error) :=
  let* err := sub_Receive in
  match err with
  | Some e =>
      let* closed := read_closed in
      if negb closed then logger "Receive failed" ;; Ret (Some e) else Ret None
  | None => Ret None
  end.

(** The goroutine of lines 122-128. *)
Definition receive_goroutine : program call unit :=
  bind receive (fun err =>
    match err with
    | Some _ => logger "Receiving messages failed" ;; close_receiveFinished ;; Ret tt
    | None => close_receiveFinished ;; Ret tt
    end).

(** The goroutine of lines 130-138. *)
Definition closer_goroutine : program call unit :=
  recv_closing ;;
  logger "Closing message consumer" ;;
  cancel ;;
  recv_receiveFinished ;;
  close_output ;;
  wg_Done ;;
  Ret tt.

(** [Subscriber.Close], lines 143-159. *)
Definition Close : program call (option error) :=
  let* closed := read_closed in
  if closed then Ret None else
  set_closed ;;
  close_closing ;;
  wg_Wait ;;
  let* err := client_Close in
  match err with
  | Some e => Ret (Some e)
  | None => logger "Google Cloud PubSub subscriber closed" ;; Ret None
  end.

(** *** The state *)

(** One call of the callback: its native message, where it is in its code,
    the acknowledgment state of the message it unmarshaled, and what it told
    the broker about the native message. *)
Record Callback : Type := {
  pubsubMsg : NativeMsg;
  cb_code : program call unit;
  cb_state : AckState;
  cb_acks : list broker_ack;
}.

(** One successful [Subscribe] call: its handle, the state of [ctx],
    [receiveFinished] and [output], what was sent on [output] (the
    callback's number and the message, oldest first), its two goroutines and
    the callbacks [sub.Receive] started. *)
Record Sub : Type := {
  sub_handle : sub_ptr;
  cancelled : bool;
  receiveFinished : bool;
  output_closed : bool;
  output : list (nat * Message);
  receiver : program call unit;
  closer : program call unit;
  callbacks : list Callback;
}.

Inductive call_result : Type :=
| SubscribeReturned (output : option nat) (err : option error)
| CloseReturned (err : option error).

(** The subscriber and its surroundings. The calls of the caller are the
    caller's own goroutine: one at a time. *)
Record Sys : Type := {
  closed : bool;
  closing : bool;
  wg : nat;
  registry : World;
  subs : list Sub;
  client_closes : nat;
  logs : list string;
  caller : option (program call (option error));
  returned : list call_result;
  panicked : bool;
}.

Definition with_cb_code (v : program call unit) (s : Callback) : Callback :=
  {| pubsubMsg := pubsubMsg s; cb_code := v; cb_state := cb_state s;
     cb_acks := cb_acks s |}.

Definition with_cb_state (v : AckState) (s : Callback) : Callback :=
  {| pubsubMsg := pubsubMsg s; cb_code := cb_code s; cb_state := v;
     cb_acks := cb_acks s |}.

Definition with_cb_acks (v : list broker_ack) (s : Callback) : Callback :=
  {| pubsubMsg := pubsubMsg s; cb_code := cb_code s; cb_state := cb_state s;
     cb_acks := v |}.

Definition with_cancelled (v : bool) (s : Sub) : Sub :=
  {| sub_handle := sub_handle s; cancelled := v; receiveFinished := receiveFinished s;
     output_closed := output_closed s; output := output s; receiver := receiver s;
     closer := closer s; callbacks := callbacks s |}.

Definition with_receiveFinished (v : bool) (s : Sub) : Sub :=
  {| sub_handle := sub_handle s; cancelled := cancelled s; receiveFinished := v;
     output_closed := output_closed s; output := output s; receiver := receiver s;
     closer := closer s; callbacks := callbacks s |}.

Definition with_output_closed (v : bool) (s : Sub) : Sub :=
  {| sub_handle := sub_handle s; cancelled := cancelled s;
     receiveFinished := receiveFinished s; output_closed := v; output := output s;
     receiver := receiver s; closer := closer s; callbacks := callbacks s |}.

Definition with_output (v : list (nat * Message)) (s : Sub) : Sub :=
  {| sub_handle := sub_handle s; cancelled := cancelled s;
     receiveFinished := receiveFinished s; output_closed := output_closed s;
     output := v; receiver := receiver s; closer := closer s;
     callbacks := callbacks s |}.

Definition with_receiver (v : program call unit) (s : Sub) : Sub :=
  {| sub_handle := sub_handle s; cancelled := cancelled s;
     receiveFinished := receiveFinished s; output_closed := output_closed s;
     output := output s; receiver := v; closer := closer s; callbacks := callbacks s |}.

Definition with_closer (v : program call unit) (s : Sub) : Sub :=
  {| sub_handle := sub_handle s; cancelled := cancelled s;
     receiveFinished := receiveFinished s; output_closed := output_closed s;
     output := output s; receiver := receiver s; closer := v;
     callbacks := callbacks s |}.

Definition with_callbacks (v : list Callback) (s : Sub) : Sub :=
  {| sub_handle := sub_handle s; cancelled := cancelled s;
     receiveFinished := receiveFinished s; output_closed := output_closed s;
     output := output s; receiver := receiver s; closer := closer s; callbacks := v |}.

Definition with_closed (v : bool) (s : Sys) : Sys :=
  {| closed := v; closing := closing s; wg := wg s; registry := registry s;
     subs := subs s; client_closes := client_closes s; logs := logs s;
     caller := caller s; returned := returned s; panicked := panicked s |}.

Definition with_closing (v : bool) (s : Sys) : Sys :=
  {| closed := closed s; closing := v; wg := wg s; registry := registry s;
     subs := subs s; client_closes := client_closes s; logs := logs s;
     caller := caller s; returned := returned s; panicked := panicked s |}.

Definition with_wg (v : nat) (s : Sys) : Sys :=
  {| closed := closed s; closing := closing s; wg := v; registry := registry s;
     subs := subs s; client_closes := client_closes s; logs := logs s;
     caller := caller s; returned := returned s; panicked := panicked s |}.

Definition with_registry (v : World) (s : Sys) : Sys :=
  {| closed := closed s; closing := closing s; wg := wg s; registry := v;
     subs := subs s; client_closes := client_closes s; logs := logs s;
     caller := caller s; returned := returned s; panicked := panicked s |}.

Definition with_subs (v : list Sub) (s : Sys) : Sys :=
  {| closed := closed s; closing := closing s; wg := wg s; registry := registry s;
     subs := v; client_closes := client_closes s; logs := logs s; caller := caller s;
     returned := returned s; panicked := panicked s |}.

Definition with_client_closes (v : nat) (s : Sys) : Sys :=
  {| closed := closed s; closing := closing s; wg := wg s; registry := registry s;
     subs := subs s; client_closes := v; logs := logs s; caller := caller s;
     returned := returned s; panicked := panicked s |}.

Definition with_logs (v : list string) (s : Sys) : Sys :=
  {| closed := closed s; closing := closing s; wg := wg s; registry := registry s;
     subs := subs s; client_closes := client_closes s; logs := v; caller := caller s;
     returned := returned s; panicked := panicked s |}.

Definition with_caller (v : option (program call (option error))) (s : Sys) : Sys :=
  {| closed := closed s; closing := closing s; wg := wg s; registry := registry s;
     subs := subs s; client_closes := client_closes s; logs := logs s; caller := v;
     returned := returned s; panicked := panicked s |}.

Definition with_returned (v : list call_result) (s : Sys) : Sys :=
  {| closed := closed s; closing := closing s; wg := wg s; registry := registry s;
     subs := subs s; client_closes := client_closes s; logs := logs s;
     caller := caller s; returned := v; panicked := panicked s |}.

Definition with_panicked (v : bool) (s : Sys) : Sys :=
  {| closed := closed s; closing := closing s; wg := wg s; registry := registry s;
     subs := subs s; client_closes := client_closes s; logs := logs s;
     caller := caller s; returned := returned s; panicked := v |}.


Definition upd_sub (k : nat) (f : Sub -> Sub) (s : Sys) : Sys :=
  with_subs (alter f k (subs s)) s.

Definition upd_cb (k j : nat) (f : Callback -> Callback) (s : Sys) : Sys :=
  upd_sub k (fun sb => with_callbacks (alter f j (callbacks sb)) sb) s.

Definition finished (cb : Callback) : bool :=
  match cb_code cb with
  | Ret _ => true
  | Vis _ _ => false
  end.

Definition delivered (j : nat) (sb : Sub) : bool :=
  bool_decide (j ∈ (output sb).*1).

(** *** The calls *)

Inductive thread : Type :=
| t_caller
| t_receiver (k : nat)
| t_closer (k : nat)
| t_callback (k j : nat).

Definition sub_of (t : thread) : option nat :=
  match t with
  | t_caller => None
  | t_receiver k | t_closer k | t_callback k _ => Some k
  end.

Definition callback_of (t : thread) : option (nat * nat) :=
  match t with
  | t_callback k j => Some (k, j)
  | _ => None
  end.

(** What the surroundings answer: the errors of [client.Close] and of
    [sub.Receive], and the case a [select] takes among those that can
    proceed. *)
Record env : Type := {
  answer_Close : option error;
  answer_Receive : option error;
  pick_send : select_send;
  pick_ack : select_ack;
}.

Definition panic {X : Type} (x : X) (s : Sys) : option (X * Sys) :=
  Some (x, with_panicked true s).

(** [perform t e a s]: thread [t] makes the call [a]. [None]: the call
    blocks. Closing a closed channel, sending on a closed channel and a
    negative wait group counter are run-time panics. [sub.Receive] is the
    client library's: it returns only once the callbacks it started have
    returned, with or without an error, whether or not [ctx] is cancelled. *)
Definition perform (t : thread) (e : env) {X : Type} (a : call X) (s : Sys)
    : option (X * Sys) :=
  match a in call X return option (X * Sys) with
  | read_closed => Some (closed s, s)
  | set_closed => Some (tt, with_closed true s)
  | close_closing =>
      if closing s then panic tt s else Some (tt, with_closing true s)
  | recv_closing => if closing s then Some (tt, s) else None
  | wg_Wait => match wg s with O => Some (tt, s) | S _ => None end
  | wg_Done =>
      match wg s with
      | O => panic tt s
      | S n => Some (tt, with_wg n s)
      end
  | client_Close => Some (answer_Close e, with_client_closes (S (client_closes s)) s)
  | logger msg => Some (tt, with_logs (logs s ++ [msg]) s)
  | cancel =>
      k ← sub_of t; Some (tt, upd_sub k (with_cancelled true) s)
  | recv_receiveFinished =>
      k ← sub_of t; sb ← subs s !! k;
      if receiveFinished sb then Some (tt, s) else None
  | close_receiveFinished =>
      k ← sub_of t; sb ← subs s !! k;
      if receiveFinished sb then panic tt s
      else Some (tt, upd_sub k (with_receiveFinished true) s)
  | close_output =>
      k ← sub_of t; sb ← subs s !! k;
      if output_closed sb then panic tt s
      else Some (tt, upd_sub k (with_output_closed true) s)
  | sub_Receive =>
      k ← sub_of t; sb ← subs s !! k;
      if forallb finished (callbacks sb) then Some (answer_Receive e, s) else None
  | pubsubMsg_Nack =>
      '(k, j) ← callback_of t;
      Some (tt, upd_cb k j (fun cb => with_cb_acks (cb_acks cb ++ [BrokerNack]) cb) s)
  | pubsubMsg_Ack =>
      '(k, j) ← callback_of t;
      Some (tt, upd_cb k j (fun cb => with_cb_acks (cb_acks cb ++ [BrokerAck]) cb) s)
  | select_closing_or_send msg =>
      '(k, j) ← callback_of t; sb ← subs s !! k;
      match pick_send e with
      | send_closing => if closing s then Some (send_closing, s) else None
      | send_delivered =>
          if output_closed sb then panic send_delivered s
          else Some (send_delivered,
                     upd_sub k (fun sb => with_output (output sb ++ [(j, msg)]) sb) s)
      end
  | select_closing_acked_nacked =>
      '(k, j) ← callback_of t; sb ← subs s !! k; cb ← callbacks sb !! j;
      match pick_ack e with
      | ack_closing => if closing s then Some (ack_closing, s) else None
      | ack_acked =>
          match cb_state cb with Acked => Some (ack_acked, s) | _ => None end
      | ack_nacked =>
          match cb_state cb with Nacked => Some (ack_nacked, s) | _ => None end
      end
  end.

(** A thread makes its next call; the caller whose [Close] is at its end
    returns. *)
Definition step_thread (t : thread) (e : env) (s : Sys) : option Sys :=
  match t with
  | t_caller =>
      match caller s with
      | Some (Vis a k) =>
          '(x, s') ← perform t e a s; Some (with_caller (Some (k x)) s')
      | Some (Ret r) =>
          Some (with_returned (returned s ++ [CloseReturned r]) (with_caller None s))
      | None => None
      end
  | t_receiver k =>
      sb ← subs s !! k;
      match receiver sb with
      | Vis a kk =>
          '(x, s') ← perform t e a s; Some (upd_sub k (with_receiver (kk x)) s')
      | Ret _ => None
      end
  | t_closer k =>
      sb ← subs s !! k;
      match closer sb with
      | Vis a kk =>
          '(x, s') ← perform t e a s; Some (upd_sub k (with_closer (kk x)) s')
      | Ret _ => None
      end
  | t_callback k j =>
      sb ← subs s !! k; cb ← callbacks sb !! j;
      match cb_code cb with
      | Vis a kk =>
          '(x, s') ← perform t e a s; Some (upd_cb k j (with_cb_code (kk x)) s')
      | Ret _ => None
      end
  end.

(** [Subscriber.Subscribe], lines 97-141. It runs on the caller's goroutine
    and blocks nowhere; of what the goroutines write it reads nothing, and it
    writes the wait group counter only to add to it: it is taken in one step.
    [None]: the registry's lock is held, which no state between two calls
    has. *)
Definition Subscribe (topic : string) (s : Sys) : option Sys :=
  if closed s
  then Some (with_returned
               (returned s ++ [SubscribeReturned None (Some ErrSubscriberClosed)]) s)
  else
    let subscriptionName := SubscriptionName config topic in
    let s := with_logs (logs s ++ ["Subscribing to Google Cloud PubSub topic"]) s in
    match exec zeroReceiveSettings (subscription config subscriptionName topic) (registry s) with
    | Finished (Returned sub (Some err)) w =>
        let s := with_registry w s in
        let s := with_logs (logs s ++ ["Could not obtain subscription"]) s in
        Some (with_returned (returned s ++ [SubscribeReturned None (Some err)]) s)
    | Finished (Returned sub None) w =>
        let s := with_registry w s in
        let s := with_wg (S (wg s)) s in
        let k := length (subs s) in
        let s := with_subs
                   (subs s ++ [{| sub_handle := sub; cancelled := false;
                                  receiveFinished := false; output_closed := false;
                                  output := []; receiver := receive_goroutine;
                                  closer := closer_goroutine; callbacks := [] |}]) s in
        Some (with_returned (returned s ++ [SubscribeReturned (Some k) None]) s)
    | Finished Panicked w => Some (with_panicked true (with_registry w s))
    | Blocked _ => None
    end.

(** [sub.Receive] is waiting for messages. *)
Definition in_Receive (p : program call unit) : bool :=
  match p with
  | Vis a _ => match a with sub_Receive => true | _ => false end
  | Ret _ => false
  end.

Definition new_callback (m : NativeMsg) : Callback :=
  {| pubsubMsg := m; cb_code := callback m; cb_state := Pending; cb_acks := [] |}.

(** The consumer calls [Ack] or [Nack] on a message it got from the channel;
    only the first such call changes the message's state. *)
Definition consumer (k j : nat) (st : AckState) (s : Sys) : option Sys :=
  sb ← subs s !! k; cb ← callbacks sb !! j;
  match cb_state cb with
  | Pending =>
      if delivered j sb then Some (upd_cb k j (with_cb_state st) s) else None
  | _ => None
  end.

(** What can happen next: the caller calls [Subscribe] or [Close], a thread
    makes its next call, the broker hands a native message to a
    [sub.Receive], the consumer acknowledges a message. Nothing happens after
    a panic. *)
Inductive move : Type :=
| call_Subscribe (topic : string)
| call_Close
| run_thread (t : thread) (e : env)
| deliver (k : nat) (m : NativeMsg)
| consumer_Ack (k j : nat)
| consumer_Nack (k j : nat).

Definition step (mv : move) (s : Sys) : option Sys :=
  if panicked s then None else
  match mv with
  | call_Subscribe topic =>
      match caller s with
      | None => Subscribe topic s
      | Some _ => None
      end
  | call_Close =>
      match caller s with
      | None => Some (with_caller (Some Close) s)
      | Some _ => None
      end
  | run_thread t e => step_thread t e s
  | deliver k m =>
      sb ← subs s !! k;
      if in_Receive (receiver sb)
      then Some (upd_sub k (fun sb => with_callbacks (callbacks sb ++ [new_callback m]) sb) s)
      else None
  | consumer_Ack k j => consumer k j Acked s
  | consumer_Nack k j => consumer k j Nacked s
  end.

Fixpoint run (mvs : list move) (s : Sys) : option Sys :=
  match mvs with
  | [] => Some s
  | mv :: mvs' =>
      match step mv s with
      | Some s' => run mvs' s'
      | None => None
      end
  end.

(** [NewSubscriber], lines 69-95, once the client is connected. *)
Definition NewSubscriber (w : World) : Sys :=
  {| closed := false; closing := false; wg := 0; registry := w; subs := [];
     client_closes := 0; logs := []; caller := None; returned := [];
     panicked := false |}.

(** *** Where each thread is in its code *)

(** The closer goroutine after [n] of its calls. *)
Definition closer_at (n : nat) : program call unit :=
  match n with
  | 0 => closer_goroutine
  | 1 => logger "Closing message consumer" ;; cancel ;; recv_receiveFinished ;;
         close_output ;; wg_Done ;; Ret tt
  | 2 => cancel ;; recv_receiveFinished ;; close_output ;; wg_Done ;; Ret tt
  | 3 => recv_receiveFinished ;; close_output ;; wg_Done ;; Ret tt
  | 4 => close_output ;; wg_Done ;; Ret tt
  | 5 => wg_Done ;; Ret tt
  | _ => Ret tt
  end.

(** [Close] after [n] of its calls, on the path that does the shutdown. *)
Definition close_at (n : nat) : program call (option error) :=
  match n with
  | 0 => Close
  | 1 => set_closed ;; close_closing ;; wg_Wait ;;
         let* err := client_Close in
         match err with
         | Some e => Ret (Some e)
         | None => logger "Google Cloud PubSub subscriber closed" ;; Ret None
         end
  | 2 => close_closing ;; wg_Wait ;;
         let* err := client_Close in
         match err with
         | Some e => Ret (Some e)
         | None => logger "Google Cloud PubSub subscriber closed" ;; Ret None
         end
  | 3 => wg_Wait ;;
         let* err := client_Close in
         match err with
         | Some e => Ret (Some e)
         | None => logger "Google Cloud PubSub subscriber closed" ;; Ret None
         end
  | 4 => let* err := client_Close in
         match err with
         | Some e => Ret (Some e)
         | None => logger "Google Cloud PubSub subscriber closed" ;; Ret None
         end
  | _ => logger "Google Cloud PubSub subscriber closed" ;; Ret None
  end.

Inductive caller_pos : Type :=
| c_idle
| c_at (n : nat)
| c_ret (r : option error).

Definition caller_is (s : Sys) (pos : caller_pos) : Prop :=
  match pos with
  | c_idle => caller s = None
  | c_at n => caller s = Some (close_at n) /\ n <= 5
  | c_ret r => caller s = Some (Ret r)
  end.

(** The caller is past [s.closed = true]. *)
Definition past_set_closed (pos : caller_pos) : Prop :=
  match pos with
  | c_idle => False
  | c_at n => 2 <= n
  | c_ret _ => True
  end.

(** The caller is between [s.closed = true] and the return of [Wait]. *)
Definition before_wait (pos : caller_pos) : Prop := pos = c_at 2 \/ pos = c_at 3.

Definition between_calls (pos : caller_pos) : Prop :=
  pos = c_idle \/ pos = c_at 0 \/ exists r, pos = c_ret r.

Definition Close_returned (s : Sys) : Prop := exists r, CloseReturned r ∈ returned s.

(** The code of the receive goroutine after [sub.Receive] has returned:
    reads of [s.closed] and log calls, then [close(receiveFinished)], then
    the end. *)
Fixpoint post_receive (p : program call unit) : Prop :=
  match p with
  | Ret _ => False
  | Vis a k =>
      match a in call X return (X -> program call unit) -> Prop with
      | read_closed => fun k => forall x, post_receive (k x)
      | logger _ => fun k => forall x, post_receive (k x)
      | close_receiveFinished => fun k => forall x, k x = Ret tt
      | _ => fun _ => False
      end k
  end.

Definition all_finished (sb : Sub) : Prop := forallb finished (callbacks sb) = true.

Definition receiver_ok (sb : Sub) : Prop :=
  (receiver sb = receive_goroutine /\ receiveFinished sb = false)
  \/ (post_receive (receiver sb) /\ receiveFinished sb = false /\ all_finished sb)
  \/ (receiver sb = Ret tt /\ receiveFinished sb = true /\ all_finished sb).

Definition unmarshals (m : NativeMsg) : bool :=
  match Unmarshal m with
  | inl _ => true
  | inr _ => false
  end.

(** The second [select] of the callback, lines 187-194. *)
Definition await_ack : program call unit :=
  let* c := select_closing_acked_nacked in
  match c with
  | ack_closing => pubsubMsg_Nack ;; Ret tt
  | ack_acked => pubsubMsg_Ack ;; Ret tt
  | ack_nacked => pubsubMsg_Nack ;; Ret tt
  end.

(** Where a callback can be, with [c] whether [s.closing] is closed and [d]
    whether its message has been sent on [output]. Before the send: at its
    start; then, when unmarshaling failed or the closing case was taken, at
    the log call, at [Nack], at the end. After the send: at the second
    [select]; at [Nack], taken on the closing or the nack signal; at [Ack],
    taken on the ack signal; at the end. *)
Inductive cb_ok (c d : bool) (cb : Callback) : Prop :=
| at_start :
    d = false -> cb_state cb = Pending -> cb_acks cb = [] ->
    cb_code cb = callback (pubsubMsg cb) -> cb_ok c d cb
| at_log msg :
    d = false -> cb_state cb = Pending -> cb_acks cb = [] ->
    (unmarshals (pubsubMsg cb) = false \/ c = true) ->
    cb_code cb = (logger msg ;; pubsubMsg_Nack ;; Ret tt) -> cb_ok c d cb
| at_nack_unsent :
    d = false -> cb_state cb = Pending -> cb_acks cb = [] ->
    (unmarshals (pubsubMsg cb) = false \/ c = true) ->
    cb_code cb = (pubsubMsg_Nack ;; Ret tt) -> cb_ok c d cb
| at_end_unsent :
    d = false -> cb_state cb = Pending -> cb_acks cb = [BrokerNack] ->
    (unmarshals (pubsubMsg cb) = false \/ c = true) ->
    cb_code cb = Ret tt -> cb_ok c d cb
| at_await :
    d = true -> cb_acks cb = [] -> unmarshals (pubsubMsg cb) = true ->
    cb_code cb = await_ack -> cb_ok c d cb
| at_nack_sent :
    d = true -> cb_acks cb = [] -> unmarshals (pubsubMsg cb) = true ->
    (c = true \/ cb_state cb = Nacked) ->
    cb_code cb = (pubsubMsg_Nack ;; Ret tt) -> cb_ok c d cb
| at_ack_sent :
    d = true -> cb_acks cb = [] -> unmarshals (pubsubMsg cb) = true ->
    cb_state cb = Acked ->
    cb_code cb = (pubsubMsg_Ack ;; Ret tt) -> cb_ok c d cb
| at_end_nacked :
    d = true -> cb_acks cb = [BrokerNack] -> unmarshals (pubsubMsg cb) = true ->
    (c = true \/ cb_state cb = Nacked) ->
    cb_code cb = Ret tt -> cb_ok c d cb
| at_end_acked :
    d = true -> cb_acks cb = [BrokerAck] -> unmarshals (pubsubMsg cb) = true ->
    cb_state cb = Acked ->
    cb_code cb = Ret tt -> cb_ok c d cb.

Definition callbacks_ok (c : bool) (sb : Sub) : Prop :=
  (forall j cb, callbacks sb !! j = Some cb -> cb_ok c (delivered j sb) cb)
  /\ (forall j, delivered j sb = true -> j < length (callbacks sb)).

Definition sub_ok (c : bool) (sb : Sub) (n : nat) : Prop :=
  closer sb = closer_at n
  /\ n <= 6
  /\ output_closed sb = (5 <=? n)
  /\ (4 <= n -> receiveFinished sb = true)
  /\ receiver_ok sb
  /\ callbacks_ok c sb.

Lemma cb_ok_closing c d cb : cb_ok c d cb -> cb_ok true d cb.
Proof.
  intros H; destruct H;
    [> eapply at_start | eapply at_log | eapply at_nack_unsent | eapply at_end_unsent
     | eapply at_await | eapply at_nack_sent | eapply at_ack_sent
     | eapply at_end_nacked | eapply at_end_acked ]; eauto.
Qed.

Lemma sub_ok_closing c sb n : sub_ok c sb n -> sub_ok true sb n.
Proof.
  intros (? & ? & ? & ? & ? & Hcb & ?). unfold sub_ok, callbacks_ok. split_and!; try done.
  intros j cb Hj. eapply cb_ok_closing. by apply Hcb.
Qed.

(** The closer goroutines that have not called [Done] yet. *)
Fixpoint count_open (ns : list nat) : nat :=
  match ns with
  | [] => 0
  | n :: ns' => (if n <? 6 then 1 else 0) + count_open ns'
  end.

Definition inv (s : Sys) : Prop :=
  exists ns pos,
    Forall2 (sub_ok (closing s)) (subs s) ns
    /\ wg s = count_open ns
    /\ caller_is s pos
    /\ (past_set_closed pos -> closed s = true)
    /\ (closed s = true -> wg s = 0 \/ before_wait pos)
    /\ (Close_returned s -> closed s = true /\ between_calls pos).

Lemma count_open_app ns1 ns2 : count_open (ns1 ++ ns2) = count_open ns1 + count_open ns2.
Proof. induction ns1 as [| n ns1 IH]; cbn; [done | rewrite IH; lia]. Qed.

Lemma count_open_insert ns k n n' :
  ns !! k = Some n ->
  count_open (<[ k := n' ]> ns) + (if n <? 6 then 1 else 0)
  = count_open ns + (if n' <? 6 then 1 else 0).
Proof.
  revert k. induction ns as [| n0 ns IH]; intros [| k] Hk; simplify_eq/=; [lia |].
  specialize (IH _ Hk). lia.
Qed.

Lemma count_open_0 ns k n : count_open ns = 0 -> ns !! k = Some n -> 6 <= n.
Proof.
  revert k. induction ns as [| n0 ns IH]; intros [| k] H0 Hk; simplify_eq/=.
  - destruct (Nat.ltb_spec n 6); lia.
  - eapply IH; [| done]. lia.
Qed.

Lemma post_receive_not_in_Receive p : post_receive p -> in_Receive p = false.
Proof. destruct p as [r | X a k]; [done |]. by destruct a. Qed.

Lemma post_receive_goroutine err :
  post_receive
    (bind (match err with
           | Some e =>
               let* closed := read_closed in
               if negb closed then logger "Receive failed" ;; Ret (Some e) else Ret None
           | None => Ret None
           end)
          (fun err : option error =>
             match err with
             | Some _ => logger "Receiving messages failed" ;; close_receiveFinished ;; Ret tt
             | None => close_receiveFinished ;; Ret tt
             end)).
Proof. destruct err as [e |]; cbn; [| done]. intros [|]; cbn; done. Qed.

Lemma NewSubscriber_inv w : inv (NewSubscriber w).
Proof.
  exists [], c_idle. cbn. split_and!; try done.
  intros [r Hr]. by apply elem_of_nil in Hr.
Qed.

Ltac ez :=
  first [ assumption | done | lia | congruence
        | by (intros; first [ assumption | congruence | lia | auto with lia ]) ].

Lemma Close_returned_snoc_Subscribe (l : list call_result) o e r :
  CloseReturned r ∈ l ++ [SubscribeReturned o e] -> CloseReturned r ∈ l.
Proof.
  intros H. apply elem_of_app in H as [H | H]; [done |].
  by apply list_elem_of_singleton in H.
Qed.

Lemma caller_idle s pos : caller s = None -> caller_is s pos -> pos = c_idle.
Proof. intros Hc. destruct pos; cbn; [done | intros [? _]; congruence | congruence]. Qed.

Lemma inv_Subscribe topic s s' :
  caller s = None -> Subscribe topic s = Some s' -> inv s -> inv s'.
Proof.
  intros Hc Hs (ns & pos & Hsubs & Hwg & Hpos & Hpast & HJ & HK).
  assert (pos = c_idle) as -> by by eapply caller_idle.
  unfold Subscribe in Hs. destruct (bool_cases (closed s)) as [Hcl | Hcl]; rewrite Hcl in Hs.
  - simplify_eq. exists ns, c_idle. cbn. split_and!; try assumption; try done.
    intros [r Hr]; cbn in Hr. apply HK. exists r. by eapply Close_returned_snoc_Subscribe.
  - assert (Hno : forall l o e r,
               CloseReturned r ∈ l ++ [SubscribeReturned o e] -> returned s = l -> False).
    { intros l o e r Hr <-. apply Close_returned_snoc_Subscribe in Hr.
      destruct HK as [HK _]; [by exists r | congruence]. }
    cbv zeta in Hs. destruct (exec _ _ _) as [[sub [err |] |] w |]; simplify_eq.
    + exists ns, c_idle. cbn. split_and!; try assumption; try done; try congruence.
      intros [r Hr]; cbn in Hr. exfalso. by eapply Hno.
    + exists (ns ++ [0]), c_idle. cbn. split_and!; try assumption; try done; try congruence.
      * apply Forall2_app; [done |]. constructor; [| done].
        unfold sub_ok, receiver_ok, callbacks_ok, delivered. cbn.
        split_and!; [done | lia | done | lia | by left | done |].
        intros j Hj. apply bool_decide_eq_true in Hj. by apply elem_of_nil in Hj.
      * rewrite count_open_app. cbn. lia.
      * intros [r Hr]; cbn in Hr. exfalso. by eapply Hno.
    + exists ns, c_idle. cbn. split_and!; try assumption; try done; congruence.
Qed.

Lemma inv_call_Close s :
  caller s = None -> inv s -> inv (with_caller (Some Close) s).
Proof.
  intros Hc (ns & pos & Hsubs & Hwg & Hpos & Hpast & HJ & HK).
  assert (pos = c_idle) as -> by by eapply caller_idle.
  exists ns, (c_at 0). cbn. split_and!; try assumption; try done; try lia.
  - intros Hcl. destruct (HJ Hcl) as [? | [? | ?]]; [by left | done | done].
  - intros Hr. destruct (HK Hr) as [? _]. split; [done |]. right. by left.
Qed.

Lemma inv_step_caller e s s' :
  step_thread t_caller e s = Some s' -> inv s -> inv s'.
Proof.
  intros Hs (ns & pos & Hsubs & Hwg & Hpos & Hpast & HJ & HK).
  unfold step_thread in Hs. destruct pos as [| n | r]; cbn in Hpos.
  - by rewrite Hpos in Hs.
  - destruct Hpos as [Hpos Hn]. rewrite Hpos in Hs.
    assert (Hnot : 0 < n -> ~ Close_returned s).
    { intros Hn0 Hr. destruct (HK Hr) as [_ [? | [? | [? ?]]]]; simplify_eq. lia. }
    assert (Hw0 : 4 <= n -> wg s = 0).
    { intros Hn4. assert (closed s = true) as Hcl by (apply Hpast; cbn; lia).
      destruct (HJ Hcl) as [? | [? | ?]]; [done | |]; simplify_eq; lia. }
    assert (Hcl2 : 2 <= n -> closed s = true) by (intros; apply Hpast; cbn; lia).
    destruct n as [| [| [| [| [| n]]]]]; cbn in Hs.
    + (* if s.closed *)
      simplify_eq/=. destruct (bool_cases (closed s)) as [Hcl | Hcl]; rewrite Hcl.
      * exists ns, (c_ret None). cbn. split_and!; try ez.
        -- intros _. destruct (HJ Hcl) as [? | [? | ?]]; [by left | done | done].
        -- intros Hr. split; [done |]. right. right. by eexists.
      * exists ns, (c_at 1). cbn. split_and!; try ez.
        intros Hr. destruct (HK Hr) as [? _]. congruence.
    + (* s.closed = true *)
      simplify_eq/=. exists ns, (c_at 2). cbn. split_and!; try ez;
        first [ intros _; right; by left | intros Hr; exfalso; apply Hnot; [lia | done] ].
    + (* close(s.closing) *)
      destruct (bool_cases (closing s)) as [Hcg | Hcg]; rewrite Hcg in Hs; simplify_eq/=.
      * exists ns, (c_at 3). cbn. split_and!; try ez;
          first [ intros _; right; by right | intros Hr; exfalso; apply Hnot; [lia | done] ].
      * exists ns, (c_at 3). cbn. split_and!; try ez;
          first [ intros _; right; by right
                | intros Hr; exfalso; apply Hnot; [lia | done]
                | eapply Forall2_impl; [exact Hsubs | intros; by eapply sub_ok_closing] ].
    + (* Wait *)
      destruct (bool_cases (wg s =? 0)) as [Hw | Hw].
      2: { apply Nat.eqb_neq in Hw. destruct (wg s); [done | simplify_eq/=]. }
      apply Nat.eqb_eq in Hw. rewrite Hw in Hs. simplify_eq/=.
      exists ns, (c_at 4). cbn. split_and!; try ez;
        first [ intros _; by left | intros Hr; exfalso; apply Hnot; [lia | done] ].
    + (* s.client.Close() *)
      simplify_eq/=. destruct (answer_Close e) as [err |].
      * exists ns, (c_ret (Some err)). cbn. split_and!; try ez;
          first [ intros _; left; apply Hw0; lia
                | intros Hr; exfalso; apply Hnot; [lia | done] ].
      * exists ns, (c_at 5). cbn. split_and!; try ez;
          first [ intros _; left; apply Hw0; lia
                | intros Hr; exfalso; apply Hnot; [lia | done] ].
    + (* the last log call *)
      simplify_eq/=. exists ns, (c_ret None). cbn. split_and!; try ez;
        first [ intros _; left; apply Hw0; lia
              | intros Hr; exfalso; apply Hnot; [lia | done] ].
  - (* return *)
    rewrite Hpos in Hs. simplify_eq/=.
    assert (Hcl : closed s = true) by by apply Hpast.
    exists ns, c_idle. cbn. split_and!; try ez.
    + intros _. destruct (HJ Hcl) as [? | [? | ?]]; [by left | done | done].
    + intros _. split; [done |]. by left.
Qed.

(** [l'] is [l] with entry [k] replaced by [x]. *)
Definition replaced {A : Type} (k : nat) (x : A) (l l' : list A) : Prop :=
  length l' = length l /\ l' !! k = Some x /\ forall j, j <> k -> l' !! j = l !! j.

Lemma replaced_alter {A} (f : A -> A) k x (l : list A) :
  l !! k = Some x -> replaced k (f x) l (alter f k l).
Proof.
  intros Hk. split_and!.
  - apply length_alter.
  - by rewrite list_lookup_alter_eq, Hk.
  - intros j Hj. by apply list_lookup_alter_ne.
Qed.

Lemma replaced_same {A} k x (l : list A) : l !! k = Some x -> replaced k x l l.
Proof. by intros Hk. Qed.

Lemma replaced_trans {A} k x y (l1 l2 l3 : list A) :
  replaced k x l1 l2 -> replaced k y l2 l3 -> replaced k y l1 l3.
Proof.
  intros (Hl1 & _ & Ho1) (Hl2 & Hk2 & Ho2). split_and!; [congruence | done |].
  intros j Hj. by rewrite Ho2, Ho1.
Qed.

Lemma Forall2_replaced {A B} (P : A -> B -> Prop) k x y l l' ns :
  Forall2 P l ns -> replaced k x l l' -> P x y -> Forall2 P l' (<[ k := y ]> ns).
Proof.
  intros HF (Hlen & Hk & Ho) HP. apply Forall2_same_length_lookup_2.
  - rewrite length_insert, Hlen. by eapply Forall2_length.
  - intros j a b Ha Hb. destruct (decide (j = k)) as [-> | Hne].
    + apply list_lookup_insert_Some in Hb as [(_ & -> & _) | [? _]]; [| done]. congruence.
    + rewrite list_lookup_insert_ne in Hb by done. rewrite Ho in Ha by done.
      eapply Forall2_lookup_lr; eauto.
Qed.

(** A step that touches one [Subscribe] call only. *)
Lemma inv_replaced s s' k sb' n n' ns pos :
  Forall2 (sub_ok (closing s)) (subs s) ns -> ns !! k = Some n ->
  wg s = count_open ns -> caller_is s pos ->
  (past_set_closed pos -> closed s = true) ->
  (closed s = true -> wg s = 0 \/ before_wait pos) ->
  (Close_returned s -> closed s = true /\ between_calls pos) ->
  replaced k sb' (subs s) (subs s') -> sub_ok (closing s) sb' n' ->
  closing s' = closing s -> closed s' = closed s -> caller s' = caller s -> returned s' = returned s ->
  wg s' + (if n <? 6 then 1 else 0) = wg s + (if n' <? 6 then 1 else 0) ->
  wg s' <= wg s ->
  inv s'.
Proof.
  intros Hsubs Hn Hwg Hpos Hpast HJ HK Hrep Hok Hcg Hcl Hca Hre Hw Hle.
  exists (<[ k := n' ]> ns), pos. split_and!.
  - rewrite Hcg. by eapply Forall2_replaced.
  - pose proof (count_open_insert ns k n n' Hn). lia.
  - destruct pos; cbn in *; by rewrite Hca.
  - by rewrite Hcl.
  - rewrite Hcl. intros H. destruct (HJ H) as [? | ?]; [left; lia | by right].
  - unfold Close_returned. rewrite Hre, Hcl. apply HK.
Qed.


Lemma count_open_pos ns k n : ns !! k = Some n -> n < 6 -> 0 < count_open ns.
Proof.
  revert k. induction ns as [| n0 ns IH]; intros [| k] Hk Hn; simplify_eq/=.
  - destruct (Nat.ltb_spec n 6); lia.
  - specialize (IH _ Hk Hn). lia.
Qed.

Ltac rep Hk :=
  cbn; unfold upd_cb, upd_sub; cbn;
  first [ apply (replaced_alter _ _ _ _ Hk)
        | eapply replaced_trans;
          [ eapply (replaced_alter _ _ _ _ Hk)
          | eapply replaced_alter; rewrite list_lookup_alter_eq, Hk; reflexivity ]
        | apply replaced_same, Hk ].

Ltac ok_sub :=
  unfold sub_ok, receiver_ok, callbacks_ok, delivered in *; cbn; split_and!; try ez.

Lemma inv_step_closer k e s s' :
  step_thread (t_closer k) e s = Some s' -> inv s -> inv s'.
Proof.
  intros Hs (ns & pos & Hsubs & Hwg & Hpos & Hpast & HJ & HK).
  unfold step_thread in Hs.
  destruct (subs s !! k) as [sb |] eqn:Hk; [| done]. cbn in Hs.
  destruct (Forall2_lookup_l _ _ _ _ _ Hsubs Hk)
    as (n & Hn & Hc & Hn6 & Hout & Hrf & Hrecv & Hcbs & Hbnd).
  rewrite Hc in Hs.
  pose proof (fun sb' n' => inv_replaced s s' k sb' n n' ns pos Hsubs Hn Hwg Hpos Hpast HJ HK)
    as Hfin.
  destruct n as [| [| [| [| [| [| n]]]]]]; cbn in Hs; try done.
  - (* <-s.closing *)
    destruct (bool_cases (closing s)) as [Hcg | Hcg]; rewrite Hcg in Hs; simplify_eq/=.
    eapply (Hfin _ 1); [rep Hk | ok_sub | done ..].
  - (* the log call *)
    simplify_eq/=. eapply (Hfin _ 2); [rep Hk | ok_sub | done ..].
  - (* cancel() *)
    simplify_eq/=. eapply (Hfin _ 3); [rep Hk | ok_sub | done ..].
  - (* <-receiveFinished *)
    rewrite Hk in Hs. cbn in Hs.
    destruct (bool_cases (receiveFinished sb)) as [Hr | Hr]; rewrite Hr in Hs; simplify_eq/=.
    eapply (Hfin _ 4); [rep Hk | ok_sub | done ..].
  - (* close(output) *)
    rewrite Hk in Hs. cbn in Hs. rewrite Hout in Hs. simplify_eq/=.
    eapply (Hfin _ 5); [rep Hk | ok_sub | done ..].
  - (* Done *)
    pose proof (count_open_pos ns k 5 Hn ltac:(lia)) as Hp.
    destruct (wg s) as [| m] eqn:Hw; [lia |]. simplify_eq/=.
    eapply (Hfin _ 6); [rep Hk | ok_sub | done .. | cbn; lia | cbn; lia].
Qed.

Lemma inv_step_receiver k e s s' :
  step_thread (t_receiver k) e s = Some s' -> inv s -> inv s'.
Proof.
  intros Hs (ns & pos & Hsubs & Hwg & Hpos & Hpast & HJ & HK).
  unfold step_thread in Hs.
  destruct (subs s !! k) as [sb |] eqn:Hk; [| done]. cbn in Hs.
  destruct (Forall2_lookup_l _ _ _ _ _ Hsubs Hk)
    as (n & Hn & Hc & Hn6 & Hout & Hrf & Hrecv & Hcbs & Hbnd).
  pose proof (fun sb' => inv_replaced s s' k sb' n n ns pos Hsubs Hn Hwg Hpos Hpast HJ HK)
    as Hfin.
  destruct Hrecv as [[Hr Hrf0] | [(Hpost & Hrf0 & Hall) | (Hr & _)]].
  - (* sub.Receive returns *)
    rewrite Hr in Hs. unfold receive_goroutine, receive in Hs. cbn in Hs.
    rewrite Hk in Hs. cbn in Hs.
    destruct (bool_cases (forallb finished (callbacks sb))) as [Hall | Hall];
      rewrite Hall in Hs; simplify_eq/=.
    eapply Hfin; [rep Hk | ok_sub | done ..].
    all: right; left; split_and!; [apply post_receive_goroutine | done | done].
  - destruct (receiver sb) as [r | X a kk] eqn:Hrc; [done |].
    destruct a; try done; cbn in Hpost, Hs.
    + (* s.closed *)
      simplify_eq/=. eapply Hfin; [rep Hk | ok_sub | done ..].
      all: right; left; by split_and!.
    + (* a log call *)
      simplify_eq/=. eapply Hfin; [rep Hk | ok_sub | done ..].
      all: right; left; by split_and!.
    + (* close(receiveFinished) *)
      rewrite Hk in Hs. cbn in Hs. rewrite Hrf0 in Hs. simplify_eq/=.
      eapply Hfin; [rep Hk | ok_sub | done ..].
      all: right; right; by split_and!.
  - by rewrite Hr in Hs.
Qed.

Lemma all_finished_lookup sb j cb :
  all_finished sb -> callbacks sb !! j = Some cb -> finished cb = true.
Proof.
  unfold all_finished. generalize (callbacks sb). intros l. revert j.
  induction l as [| c l IH]; intros [| j] Hall Hj; simplify_eq/=;
    apply andb_true_iff in Hall as [? ?]; eauto.
Qed.

Lemma receiving sb j cb :
  receiver_ok sb -> callbacks sb !! j = Some cb -> finished cb = false ->
  receiver sb = receive_goroutine /\ receiveFinished sb = false.
Proof.
  intros [? | [(_ & _ & Hall) | (_ & _ & Hall)]] Hj Hf; [done | |];
    rewrite (all_finished_lookup _ _ _ Hall Hj) in Hf; done.
Qed.

Lemma delivered_snoc_ne (l : list (nat * Message)) j j' msg :
  j' <> j -> bool_decide (j' ∈ (l ++ [(j, msg)]).*1) = bool_decide (j' ∈ l.*1).
Proof.
  intros Hne. apply bool_decide_ext. rewrite fmap_app, elem_of_app. cbn.
  rewrite list_elem_of_singleton. split; [intros [? | ?]; [done | congruence] | auto].
Qed.

Lemma delivered_snoc_eq (l : list (nat * Message)) j msg :
  bool_decide (j ∈ (l ++ [(j, msg)]).*1) = true.
Proof.
  apply bool_decide_eq_true. rewrite fmap_app, elem_of_app. right. cbn.
  by apply list_elem_of_singleton.
Qed.

Lemma finished_with_cb_state st j (l : list Callback) :
  forallb finished (alter (with_cb_state st) j l) = forallb finished l.
Proof.
  revert j. induction l as [| c l IH]; intros [| j]; cbn; try done. by rewrite IH.
Qed.

Lemma inv_deliver k m s sb :
  subs s !! k = Some sb -> in_Receive (receiver sb) = true -> inv s ->
  inv (upd_sub k (fun sb => with_callbacks (callbacks sb ++ [new_callback m]) sb) s).
Proof.
  intros Hk Hin (ns & pos & Hsubs & Hwg & Hpos & Hpast & HJ & HK).
  destruct (Forall2_lookup_l _ _ _ _ _ Hsubs Hk)
    as (n & Hn & Hc & Hn6 & Hout & Hrf & Hrecv & Hcbs & Hbnd).
  eapply (inv_replaced s _ k _ n n ns pos Hsubs Hn Hwg Hpos Hpast HJ HK);
    [rep Hk | | done ..].
  assert (receiver sb = receive_goroutine /\ receiveFinished sb = false) as [Hr Hrf0].
  { destruct Hrecv as [? | [(Hp & _) | (Hr & _)]]; [done | |].
    - by rewrite (post_receive_not_in_Receive _ Hp) in Hin.
    - by rewrite Hr in Hin. }
  unfold sub_ok, receiver_ok, callbacks_ok, delivered in *. cbn.
  split_and!; try ez.
  - intros j cb Hj. apply lookup_app_Some in Hj as [Hj | [Hlen Hj]]; [by apply Hcbs |].
    apply list_lookup_singleton_Some in Hj as [_ <-].
    apply at_start; try done.
    destruct (bool_decide (j ∈ (output sb).*1)) eqn:Hd; [| done].
    apply Hbnd in Hd. lia.
  - intros j Hj. apply Hbnd in Hj. rewrite length_app. cbn. lia.
Qed.

Lemma inv_consumer k j st s s' :
  consumer k j st s = Some s' -> inv s -> inv s'.
Proof.
  intros Hs (ns & pos & Hsubs & Hwg & Hpos & Hpast & HJ & HK).
  unfold consumer in Hs.
  destruct (subs s !! k) as [sb |] eqn:Hk; [| done]. cbn in Hs.
  destruct (callbacks sb !! j) as [cb |] eqn:Hj; [| done]. cbn in Hs.
  destruct (Forall2_lookup_l _ _ _ _ _ Hsubs Hk)
    as (n & Hn & Hc & Hn6 & Hout & Hrf & Hrecv & Hcbs & Hbnd).
  destruct (cb_state cb) eqn:Hst; try done.
  destruct (bool_cases (delivered j sb)) as [Hd | Hd]; rewrite Hd in Hs; simplify_eq/=.
  eapply (inv_replaced s _ k _ n n ns pos Hsubs Hn Hwg Hpos Hpast HJ HK);
    [rep Hk | | done ..].
  unfold sub_ok, receiver_ok, callbacks_ok, all_finished in *. cbn.
  rewrite finished_with_cb_state, length_alter. split_and!; try ez.
  intros j' cb' Hj'. unfold delivered in *. cbn.
  destruct (decide (j' = j)) as [-> | Hne].
  - rewrite list_lookup_alter_eq, Hj in Hj'. simplify_eq/=.
    specialize (Hcbs _ _ Hj). rewrite Hd in *.
    destruct Hcbs; try congruence.
    + by apply at_await.
    + apply at_nack_sent; try done. destruct H2; [by left | congruence].
    + apply at_end_nacked; try done. destruct H2; [by left | congruence].
  - rewrite list_lookup_alter_ne in Hj' by done. by apply Hcbs.
Qed.

(** A step of callback [j] of a [Subscribe] call: what it may change. *)
Lemma sub_ok_callback c sb sb' n j cb cb' :
  sub_ok c sb n -> callbacks sb !! j = Some cb -> finished cb = false ->
  closer sb' = closer sb -> output_closed sb' = output_closed sb ->
  receiveFinished sb' = receiveFinished sb -> receiver sb' = receiver sb ->
  replaced j cb' (callbacks sb) (callbacks sb') ->
  (output sb' = output sb \/ exists msg, output sb' = output sb ++ [(j, msg)]) ->
  cb_ok c (delivered j sb') cb' ->
  sub_ok c sb' n.
Proof.
  intros (Hc & Hn6 & Hout & Hrf & Hrecv & Hcbs & Hbnd) Hj Hf Hc' Hout' Hrf' Hr'
    (Hlen & Hj' & Hoth) Ho Hcb.
  destruct (receiving _ _ _ Hrecv Hj Hf) as [Hr Hrf0].
  assert (Hd : forall i, i <> j -> delivered i sb' = delivered i sb).
  { intros i Hi. unfold delivered. destruct Ho as [-> | [msg ->]]; [done |].
    by apply delivered_snoc_ne. }
  unfold sub_ok, receiver_ok, callbacks_ok.
  rewrite Hc', Hout', Hrf', Hr'. split_and!; try ez.
  - intros i cbi Hi. destruct (decide (i = j)) as [-> | Hne]; [congruence |].
    rewrite Hd by done. apply Hcbs. by rewrite <- Hoth.
  - intros i Hi. rewrite Hlen. destruct (decide (i = j)) as [-> | Hne].
    + by eapply lookup_lt_Some.
    + apply Hbnd. by rewrite <- Hd.
Qed.

Ltac cb_step Hfin Hsub Hk Hj Hf form :=
  eapply Hfin;
  [ rep Hk
  | eapply Hsub;
    [ exact Hf | done | done | done | done | rep Hj
    | first [ by left | right; by eexists ]
    | unfold delivered in *; cbn; form ]
  | done .. ].

Lemma inv_step_callback k j e s s' :
  step_thread (t_callback k j) e s = Some s' -> inv s -> inv s'.
Proof.
  intros Hs (ns & pos & Hsubs & Hwg & Hpos & Hpast & HJ & HK).
  unfold step_thread in Hs.
  destruct (subs s !! k) as [sb |] eqn:Hk; [| done]. cbn in Hs.
  destruct (callbacks sb !! j) as [cb |] eqn:Hj; [| done]. cbn in Hs.
  destruct (Forall2_lookup_l _ _ _ _ _ Hsubs Hk) as (n & Hn & Hok).
  pose proof (fun sb' => inv_replaced s s' k sb' n n ns pos Hsubs Hn Hwg Hpos Hpast HJ HK)
    as Hfin.
  pose proof Hok as (Hc & Hn6 & Hout & Hrf & Hrecv & Hcbs & Hbnd).
  pose proof (Hcbs _ _ Hj) as Hcb.
  assert (Hoc : finished cb = false -> output_closed sb = false).
  { intros Hf. destruct (receiving _ _ _ Hrecv Hj Hf) as [_ Hrf0].
    rewrite Hout. apply Nat.leb_gt. destruct (decide (4 <= n)); [| lia].
    rewrite Hrf in Hrf0 by done. done. }
  pose proof (fun sb' cb' => sub_ok_callback (closing s) sb sb' n j cb cb' Hok Hj) as Hsub.
  assert (Hnil : forall a : broker_ack, cb_acks cb = [] -> cb_acks cb ++ [a] = [a])
    by (by intros a ->).
  destruct Hcb as [Hd Hst Ha Hcode | msg Hd Hst Ha Hu Hcode | Hd Hst Ha Hu Hcode
                  | Hd Hst Ha Hu Hcode | Hd Ha Hu Hcode | Hd Ha Hu Hor Hcode
                  | Hd Ha Hu Hst Hcode | Hd Ha Hu Hor Hcode | Hd Ha Hu Hst Hcode].
  - (* at its start *)
    unfold callback in Hcode.
    assert (Hum : unmarshals (pubsubMsg cb)
                  = match Unmarshal (pubsubMsg cb) with inl _ => true | inr _ => false end)
      by done.
    destruct (Unmarshal (pubsubMsg cb)) as [msg | err];
      rewrite Hcode in Hs; cbn in Hs;
      (assert (Hf : finished cb = false) by (unfold finished; by rewrite Hcode)).
    + rewrite Hk in Hs. cbn in Hs. destruct (pick_send e).
      * destruct (bool_cases (closing s)) as [Hcg | Hcg]; rewrite Hcg in Hs; cbn in Hs; simplify_eq.
        cb_step Hfin Hsub Hk Hj Hf ltac:(eapply at_log; cbn; eauto).
      * rewrite (Hoc Hf) in Hs. cbn in Hs. simplify_eq.
        cb_step Hfin Hsub Hk Hj Hf ltac:(eapply at_await; cbn; eauto using delivered_snoc_eq).
    + simplify_eq. cb_step Hfin Hsub Hk Hj Hf ltac:(eapply at_nack_unsent; cbn; eauto).
  - (* at the log call *)
    rewrite Hcode in Hs. cbn in Hs. simplify_eq.
    assert (Hf : finished cb = false) by (unfold finished; by rewrite Hcode).
    cb_step Hfin Hsub Hk Hj Hf ltac:(eapply at_nack_unsent; cbn; eauto).
  - (* at Nack, nothing sent *)
    rewrite Hcode in Hs. cbn in Hs. simplify_eq.
    assert (Hf : finished cb = false) by (unfold finished; by rewrite Hcode).
    cb_step Hfin Hsub Hk Hj Hf ltac:(eapply at_end_unsent; cbn; eauto).
  - by rewrite Hcode in Hs.
  - (* at the second select *)
    rewrite Hcode in Hs. cbn in Hs. rewrite Hk in Hs. cbn in Hs. rewrite Hj in Hs. cbn in Hs.
    assert (Hf : finished cb = false) by (unfold finished; by rewrite Hcode).
    destruct (pick_ack e).
    + destruct (bool_cases (closing s)) as [Hcg | Hcg]; rewrite Hcg in Hs; cbn in Hs; simplify_eq.
      cb_step Hfin Hsub Hk Hj Hf ltac:(eapply at_nack_sent; cbn; eauto).
    + destruct (cb_state cb) eqn:Hst; cbn in Hs; simplify_eq.
      cb_step Hfin Hsub Hk Hj Hf ltac:(eapply at_ack_sent; cbn; eauto).
    + destruct (cb_state cb) eqn:Hst; cbn in Hs; simplify_eq.
      cb_step Hfin Hsub Hk Hj Hf ltac:(eapply at_nack_sent; cbn; eauto).
  - (* at Nack, sent *)
    rewrite Hcode in Hs. cbn in Hs. simplify_eq.
    assert (Hf : finished cb = false) by (unfold finished; by rewrite Hcode).
    cb_step Hfin Hsub Hk Hj Hf ltac:(eapply at_end_nacked; cbn; eauto).
  - (* at Ack *)
    rewrite Hcode in Hs. cbn in Hs. simplify_eq.
    assert (Hf : finished cb = false) by (unfold finished; by rewrite Hcode).
    cb_step Hfin Hsub Hk Hj Hf ltac:(eapply at_end_acked; cbn; eauto).
  - by rewrite Hcode in Hs.
  - by rewrite Hcode in Hs.
Qed.


Lemma step_keeps_inv mv s s' : step mv s = Some s' -> inv s -> inv s'.
Proof.
  unfold step. destruct (panicked s); [done |]. destruct mv as [topic | | t e | k m | k j | k j].
  - destruct (caller s) eqn:Hc; [done |]. by apply inv_Subscribe.
  - destruct (caller s) eqn:Hc; [done |]. intros [= <-]. by apply inv_call_Close.
  - destruct t as [| k | k | k j].
    + apply inv_step_caller.
    + apply inv_step_receiver.
    + apply inv_step_closer.
    + apply inv_step_callback.
  - destruct (subs s !! k) as [sb |] eqn:Hk; [| done]. cbn.
    destruct (in_Receive (receiver sb)) eqn:Hin; [| done]. intros [= <-].
    by eapply inv_deliver.
  - apply inv_consumer.
  - apply inv_consumer.
Qed.

Lemma run_keeps_inv mvs s s' : run mvs s = Some s' -> inv s -> inv s'.
Proof.
  revert s. induction mvs as [| mv mvs IH]; intros s Hr Hi; simplify_eq/=; [done |].
  destruct (step mv s) as [s1 |] eqn:Hs; [| done]. eauto using step_keeps_inv.
Qed.


(** After [Close] has returned: every goroutine of every [Subscribe] call is
    at its end and its channels are closed. *)
Definition settled (s : Sys) : Prop :=
  forall k sb, subs s !! k = Some sb ->
    receiver sb = Ret tt /\ closer sb = Ret tt
    /\ receiveFinished sb = true /\ output_closed sb = true /\ all_finished sb.

Lemma inv_settled s :
  inv s -> Close_returned s ->
  settled s /\ closed s = true
  /\ (caller s = None \/ caller s = Some Close \/ exists r, caller s = Some (Ret r)).
Proof.
  intros (ns & pos & Hsubs & Hwg & Hpos & Hpast & HJ & HK) Hr.
  destruct (HK Hr) as [Hcl Hb]. split_and!; [| done |].
  - assert (wg s = 0) as Hw0.
    { destruct (HJ Hcl) as [? | [-> | ->]]; [done | |];
        destruct Hb as [? | [? | [? ?]]]; done. }
    intros k sb Hk.
    destruct (Forall2_lookup_l _ _ _ _ _ Hsubs Hk)
      as (n & Hn & Hc & Hn6 & Hout & Hrf & Hrecv & _).
    assert (n = 6) as ->.
    { rewrite Hw0 in Hwg. pose proof (count_open_0 ns k n (eq_sym Hwg) Hn). lia. }
    assert (Hrf1 : receiveFinished sb = true) by (apply Hrf; lia).
    destruct Hrecv as [[_ ?] | [(_ & ? & _) | (? & _ & ?)]]; try congruence.
    by split_and!.
  - destruct Hb as [-> | [-> | [r ->]]]; cbn in Hpos.
    + by left.
    + right. left. by destruct Hpos.
    + right. right. by exists r.
Qed.





(** C7. In every run from a new subscriber, once a [Close] call has
    returned, another [Close] call (made when the caller is between calls and
    nothing has panicked) reads [s.closed], returns nil, and leaves the
    subscriber as it was but for the record of what calls returned:
    [s.closing] is not closed again, the wait group is not waited on, the
    client is not closed again, nothing is logged. *)
Theorem Close_idempotent w mvs s e1 e2 :
  run mvs (NewSubscriber w) = Some s ->
  Close_returned s ->
  caller s = None ->
  panicked s = false ->
  run [call_Close; run_thread t_caller e1; run_thread t_caller e2] s
  = Some (with_returned (returned s ++ [CloseReturned None]) s).
Proof.
  intros Hrun Hr Hca Hp.
  pose proof (run_keeps_inv _ _ _ Hrun (NewSubscriber_inv w)) as Hinv.
  destruct (inv_settled s Hinv Hr) as (_ & Hcl & _).
  destruct s. cbn in *. subst. reflexivity.
Qed.

(** C8. In every run from a new subscriber, once a [Close] call has
    returned, a [Subscribe] call returns no channel and
    [ErrSubscriberClosed], and leaves the subscriber as it was but for the
    record of what calls returned: the registry is not asked, the wait group
    is not added to, no goroutine is started. *)
Theorem Subscribe_after_Close w mvs s topic :
  run mvs (NewSubscriber w) = Some s ->
  Close_returned s ->
  caller s = None ->
  panicked s = false ->
  step (call_Subscribe topic) s
  = Some (with_returned
            (returned s ++ [SubscribeReturned None (Some ErrSubscriberClosed)]) s).
Proof.
  intros Hrun Hr Hca Hp.
  pose proof (run_keeps_inv _ _ _ Hrun (NewSubscriber_inv w)) as Hinv.
  destruct (inv_settled s Hinv Hr) as (_ & Hcl & _).
  unfold step, Subscribe. by rewrite Hp, Hca, Hcl.
Qed.

Lemma reachable_callback w mvs s k sb j cb :
  run mvs (NewSubscriber w) = Some s ->
  subs s !! k = Some sb -> callbacks sb !! j = Some cb ->
  cb_ok (closing s) (delivered j sb) cb.
Proof.
  intros Hrun Hk Hj.
  destruct (run_keeps_inv _ _ _ Hrun (NewSubscriber_inv w)) as (ns & pos & Hsubs & _).
  destruct (Forall2_lookup_l _ _ _ _ _ Hsubs Hk) as (n & _ & _ & _ & _ & _ & _ & Hcbs & _).
  by apply Hcbs.
Qed.

(** The receiver of a [Subscribe] call, if there is such a call. *)
Definition receiver_of (k : nat) (s : Sys) : option (program call unit) :=
  receiver <$> subs s !! k.

(** C4. In every run from a new subscriber, for every native message whose
    unmarshaling fails: nothing is sent on the channel for it; while its
    callback has not returned, the broker has been told nothing about it, and
    the callback's next call does not block, does not panic and leaves the
    receive goroutine where it is; once the callback has returned, the broker
    has been told [Nack], once. Where [sub.Receive] is waiting, the broker
    can hand it the next message. *)
Theorem unmarshal_failure_is_nacked w mvs s k sb j cb err :
  run mvs (NewSubscriber w) = Some s ->
  subs s !! k = Some sb -> callbacks sb !! j = Some cb ->
  Unmarshal (pubsubMsg cb) = inr err ->
  delivered j sb = false
  /\ (finished cb = true -> cb_acks cb = [BrokerNack])
  /\ (finished cb = false ->
      cb_acks cb = []
      /\ (panicked s = false ->
          forall e, exists s',
            step (run_thread (t_callback k j) e) s = Some s'
            /\ panicked s' = false
            /\ receiver_of k s' = receiver_of k s))
  /\ (panicked s = false -> in_Receive (receiver sb) = true ->
      forall m, is_Some (step (deliver k m) s)).
Proof.
  intros Hrun Hk Hj Hu.
  pose proof (reachable_callback _ _ _ _ _ _ _ Hrun Hk Hj) as Hcb.
  assert (Hum : unmarshals (pubsubMsg cb) = false) by (unfold unmarshals; by rewrite Hu).
  assert (Hstep : forall e (X : Type) (a : call X) kk s1 x,
             panicked s = false -> cb_code cb = Vis a kk ->
             perform (t_callback k j) e a s = Some (x, s1) ->
             step (run_thread (t_callback k j) e) s
             = Some (upd_cb k j (with_cb_code (kk x)) s1)).
  { intros e X a kk s1 x Hp Hc Hperf. unfold step. rewrite Hp. cbn.
    rewrite Hk. cbn. rewrite Hj. cbn. rewrite Hc, Hperf. done. }
  split_and!.
  - destruct Hcb; congruence.
  - unfold finished. destruct Hcb as [? ? ? Hc | ? ? ? ? ? Hc | ? ? ? ? Hc | ? ? ? ? Hc
                                      | | | | |]; try congruence; rewrite Hc; try done.
    unfold callback. by rewrite Hu.
  - intros Hf. unfold finished in Hf.
    destruct Hcb as [? ? ? Hc | msg ? ? ? ? Hc | ? ? ? ? Hc | ? ? ? ? Hc
                    | | | | |]; try congruence.
    + split; [done |]. intros Hp e. unfold callback in Hc. rewrite Hu in Hc.
      eexists. split; [by eapply Hstep |]. cbn. split; [done |].
      unfold receiver_of. cbn. rewrite list_lookup_alter_eq, Hk. done.
    + split; [done |]. intros Hp e.
      eexists. split; [by eapply Hstep |]. cbn. split; [done |].
      unfold receiver_of. cbn. rewrite list_lookup_alter_eq, Hk. done.
    + split; [done |]. intros Hp e.
      eexists. split; [by eapply Hstep |]. cbn. split; [done |].
      unfold receiver_of. cbn. rewrite !list_lookup_alter_eq, Hk. done.
    + by rewrite Hc in Hf.
  - intros Hp Hin m. unfold step. rewrite Hp, Hk. cbn. rewrite Hin. by eexists.
Qed.

(** C5. In every run from a new subscriber, for every message that has been
    sent on a channel: the broker has been told at most one thing about its
    native message; once the callback has returned it has been told exactly
    one thing: [Ack], and then the consumer acknowledged the message, or
    [Nack], and then the consumer negatively acknowledged it or [s.closing]
    is closed; while the callback has not returned, the broker has been told
    nothing, and the callback can make its next call as soon as the consumer
    has decided or [s.closing] is closed. *)
Theorem delivered_message_one_ack w mvs s k sb j cb :
  run mvs (NewSubscriber w) = Some s ->
  subs s !! k = Some sb -> callbacks sb !! j = Some cb ->
  delivered j sb = true ->
  length (cb_acks cb) <= 1
  /\ (finished cb = true ->
      (cb_acks cb = [BrokerAck] /\ cb_state cb = Acked)
      \/ (cb_acks cb = [BrokerNack] /\ (cb_state cb = Nacked \/ closing s = true)))
  /\ (finished cb = false ->
      cb_acks cb = []
      /\ (panicked s = false -> closing s = true \/ cb_state cb <> Pending ->
          exists e s', step (run_thread (t_callback k j) e) s = Some s')).
Proof.
  intros Hrun Hk Hj Hd.
  pose proof (reachable_callback _ _ _ _ _ _ _ Hrun Hk Hj) as Hcb.
  assert (Hstep : forall e (X : Type) (a : call X) kk s1 x,
             panicked s = false -> cb_code cb = Vis a kk ->
             perform (t_callback k j) e a s = Some (x, s1) ->
             step (run_thread (t_callback k j) e) s
             = Some (upd_cb k j (with_cb_code (kk x)) s1)).
  { intros e X a kk s1 x Hp Hc Hperf. unfold step. rewrite Hp. cbn.
    rewrite Hk. cbn. rewrite Hj. cbn. rewrite Hc, Hperf. done. }
  pose (env_of := fun c => {| answer_Close := None; answer_Receive := None;
                               pick_send := send_closing; pick_ack := c |}).
  unfold finished.
  destruct Hcb as [| | | | ? Ha ? Hc | ? Ha ? Hor Hc | ? Ha ? Hst Hc
                  | ? Ha ? Hor Hc | ? Ha ? Hst Hc]; try congruence;
    rewrite Hc, Ha; cbn; (split_and!; [lia | try done | try done]).
  - intros _. split; [done |]. intros Hp Hsig.
    destruct (bool_cases (closing s)) as [Hcg | Hcg].
    + exists (env_of ack_closing). eexists. eapply Hstep; [done | exact Hc |].
      cbn. rewrite Hk. cbn. rewrite Hj. cbn. by rewrite Hcg.
    + destruct Hsig as [? | Hst]; [congruence |].
      destruct (cb_state cb) eqn:Hs; [done | |].
      * exists (env_of ack_acked). eexists. eapply Hstep; [done | exact Hc |].
        cbn. rewrite Hk. cbn. rewrite Hj. cbn. by rewrite Hs.
      * exists (env_of ack_nacked). eexists. eapply Hstep; [done | exact Hc |].
        cbn. rewrite Hk. cbn. rewrite Hj. cbn. by rewrite Hs.
  - intros _. split; [done |]. intros Hp _.
    exists (env_of ack_closing). eexists. by eapply Hstep.
  - intros _. split; [done |]. intros Hp _.
    exists (env_of ack_closing). eexists. by eapply Hstep.
  - intros _. right. split; [done |]. destruct Hor; auto.
  - intros _. left. by split.
Qed.

(** *** More of what every run keeps

    A second invariant, on top of [inv]: how [s.closed], [s.closing] and
    the client go with the place the caller is at in [Close], and, for each
    [Subscribe] call, that its closing goroutine waits while [s.closing] is
    open and that what was sent on its channel comes from the native
    messages it was handed. *)

(** A number for each call, to tell programs apart by their next call. *)
Definition tag {X : Type} (a : call X) : nat :=
  match a with
  | read_closed => 0
  | set_closed => 1
  | close_closing => 2
  | wg_Wait => 3
  | client_Close => 4
  | logger _ => 5
  | recv_closing => 6
  | cancel => 7
  | recv_receiveFinished => 8
  | close_output => 9
  | wg_Done => 10
  | close_receiveFinished => 11
  | sub_Receive => 12
  | pubsubMsg_Nack => 13
  | pubsubMsg_Ack => 14
  | select_closing_or_send _ => 15
  | select_closing_acked_nacked => 16
  end.

Definition next_call {R : Type} (p : program call R) : option nat :=
  match p with
  | Ret _ => None
  | Vis a _ => Some (tag a)
  end.

(** The call the caller is about to make in [Close]. *)
Definition caller_at (s : Sys) : option nat := p ← caller s; next_call p.

Definition flags_ok (s : Sys) : Prop :=
  (closed s = false -> closing s = false /\ client_closes s = 0)
  /\ (caller_at s = Some 1 -> closed s = false)
  /\ (caller_at s = Some 2 -> closing s = false)
  /\ (forall n, caller_at s = Some n -> 1 <= n <= 4 -> client_closes s = 0)
  /\ client_closes s <= 1
  /\ (caller_at s = Some 3 -> closing s = true).

(** What was sent on the channel of a [Subscribe] call: at most one message
    for each native message handed to its callback, and that message is
    what the native message unmarshals to. *)
Definition output_ok (sb : Sub) : Prop :=
  NoDup (output sb).*1
  /\ forall j msg, (j, msg) ∈ output sb ->
       exists cb, callbacks sb !! j = Some cb /\ Unmarshal (pubsubMsg cb) = inl msg.

Definition sub_more (c : bool) (sb : Sub) : Prop :=
  (c = false -> closer sb = closer_goroutine /\ cancelled sb = false)
  /\ output_ok sb.

Definition more (s : Sys) : Prop :=
  flags_ok s /\ forall k sb, subs s !! k = Some sb -> sub_more (closing s) sb.

(** What a step of a goroutine, of the broker or of the consumer may do to
    the [Subscribe] call it belongs to. *)
Definition sub_evolves (c : bool) (sb sb' : Sub) : Prop :=
  sub_handle sb' = sub_handle sb
  /\ (c = false -> closer sb' = closer sb /\ cancelled sb' = cancelled sb)
  /\ (forall j cb, callbacks sb !! j = Some cb ->
        exists cb', callbacks sb' !! j = Some cb' /\ pubsubMsg cb' = pubsubMsg cb)
  /\ (output sb' = output sb
      \/ exists j msg cb,
           callbacks sb !! j = Some cb /\ Unmarshal (pubsubMsg cb) = inl msg
           /\ delivered j sb = false /\ output sb' = output sb ++ [(j, msg)]).

(** Such a step leaves the flags, the caller and the registry alone, and
    does not panic. *)
Definition quiet (s s' : Sys) : Prop :=
  panicked s' = panicked s /\ closed s' = closed s /\ closing s' = closing s
  /\ client_closes s' = client_closes s /\ caller s' = caller s
  /\ registry s' = registry s
  /\ exists k sb sb',
       subs s !! k = Some sb /\ replaced k sb' (subs s) (subs s')
       /\ sub_evolves (closing s) sb sb'.

Lemma sub_more_evolves c sb sb' : sub_more c sb -> sub_evolves c sb sb' -> sub_more c sb'.
Proof.
  unfold sub_more, output_ok.
  intros (Hc & Hnd & Hout) (Hh & Hc' & Hcbs & Ho). split_and!.
  - intros Hf. destruct (Hc Hf) as [? ?], (Hc' Hf) as [? ?]. split; congruence.
  - destruct Ho as [-> | (j & msg & cb & Hj & Hu & Hd & ->)]; [done |].
    rewrite fmap_app. cbn. apply NoDup_app. split_and!; [done | | apply NoDup_singleton].
    intros i Hi Hi'. apply list_elem_of_singleton in Hi' as ->.
    unfold delivered in Hd. apply bool_decide_eq_false in Hd. done.
  - intros j msg Hin.
    assert (exists cb, callbacks sb !! j = Some cb /\ Unmarshal (pubsubMsg cb) = inl msg)
      as (cb & Hj & Hu).
    { destruct Ho as [Ho | (j0 & msg0 & cb0 & Hj0 & Hu0 & _ & Ho)]; rewrite Ho in Hin;
        [by apply Hout |].
      apply elem_of_app in Hin as [Hin | Hin]; [by apply Hout |].
      apply list_elem_of_singleton in Hin. simplify_eq. eauto. }
    destruct (Hcbs _ _ Hj) as (cb' & Hj' & Hp). exists cb'. by rewrite Hp.
Qed.

Lemma more_quiet s s' : more s -> quiet s s' -> more s'.
Proof.
  intros [(Ha & Hb & Hc & Hd & He & Hf) Hsubs]
    (Hp & Hcl & Hcg & Hcc & Hca & _ & k & sb & sb' & Hk & (Hlen & Hk' & Hoth) & Hev).
  split.
  - unfold flags_ok, caller_at. by rewrite Hcl, Hcg, Hcc, Hca.
  - intros k0 sb0 Hk0. rewrite Hcg. destruct (decide (k0 = k)) as [-> | Hne].
    + rewrite Hk' in Hk0. simplify_eq. eapply sub_more_evolves; [by eapply Hsubs | done].
    + rewrite Hoth in Hk0 by done. by eapply Hsubs.
Qed.

Lemma replaced_keeps {A B} (g : A -> B) j x x' (l l' : list A) :
  replaced j x' l l' -> l !! j = Some x -> g x' = g x ->
  forall i y, l !! i = Some y -> exists y', l' !! i = Some y' /\ g y' = g y.
Proof.
  intros (_ & Hj' & Hoth) Hj Hg i y Hi. destruct (decide (i = j)) as [-> | Hne].
  - exists x'. split; [done | congruence].
  - exists y. by rewrite Hoth.
Qed.

Lemma evolves_refl c sb : sub_evolves c sb sb.
Proof. unfold sub_evolves. split_and!; eauto. Qed.

Lemma closer_at_start n : n <= 6 -> closer_at n = closer_goroutine -> n = 0.
Proof.
  intros Hn H. apply (f_equal next_call) in H.
  destruct n as [| [| [| [| [| [| [| n]]]]]]]; cbn in H; try done; lia.
Qed.

Ltac keeps_callbacks Hj :=
  first [ by eauto
        | eapply (replaced_keeps pubsubMsg); [rep Hj | exact Hj | reflexivity]
        | intros ? ? ?; eexists; split; [by apply lookup_app_l_Some | reflexivity] ].

Ltac quiet_tac Hk Hj :=
  unfold quiet; cbn; split_and!; try done;
  eexists _, _, _; split; [exact Hk |]; split; [rep Hk |];
  unfold sub_evolves; cbn; split_and!;
  [ done | first [ done | intros; congruence ] | keeps_callbacks Hj | ].

Lemma quiet_step_closer k e s s' :
  step_thread (t_closer k) e s = Some s' -> inv s -> more s -> quiet s s'.
Proof.
  intros Hs (ns & pos & Hsubs & Hwg & Hpos & Hpast & HJ & HK) [_ Hmore].
  unfold step_thread in Hs.
  destruct (subs s !! k) as [sb |] eqn:Hk; [| done]. cbn in Hs.
  destruct (Forall2_lookup_l _ _ _ _ _ Hsubs Hk)
    as (n & Hn & Hc & Hn6 & Hout & Hrf & Hrecv & Hcbs & Hbnd).
  assert (Hcg : closing s = true).
  { destruct (bool_cases (closing s)) as [? | Hcg]; [done |]. exfalso.
    destruct (Hmore _ _ Hk) as [Hcl _]. destruct (Hcl Hcg) as [Hc0 _].
    rewrite Hc in Hc0. apply closer_at_start in Hc0; [| done]. subst n.
    rewrite Hc in Hs. cbn in Hs. by rewrite Hcg in Hs. }
  rewrite Hc in Hs.
  destruct n as [| [| [| [| [| [| n]]]]]]; cbn in Hs; try done.
  - rewrite Hcg in Hs; simplify_eq/=. quiet_tac Hk Hk. by left.
  - simplify_eq/=. quiet_tac Hk Hk. by left.
  - simplify_eq/=. quiet_tac Hk Hk. by left.
  - rewrite Hk in Hs. cbn in Hs.
    destruct (bool_cases (receiveFinished sb)) as [Hr | Hr]; rewrite Hr in Hs; simplify_eq/=.
    quiet_tac Hk Hk. by left.
  - rewrite Hk in Hs. cbn in Hs. rewrite Hout in Hs. simplify_eq/=.
    quiet_tac Hk Hk. by left.
  - pose proof (count_open_pos ns k 5 Hn ltac:(lia)) as Hp.
    destruct (wg s) as [| m] eqn:Hw; [lia |]. simplify_eq/=.
    quiet_tac Hk Hk. by left.
Qed.

Lemma quiet_step_receiver k e s s' :
  step_thread (t_receiver k) e s = Some s' -> inv s -> quiet s s'.
Proof.
  intros Hs (ns & pos & Hsubs & Hwg & Hpos & Hpast & HJ & HK).
  unfold step_thread in Hs.
  destruct (subs s !! k) as [sb |] eqn:Hk; [| done]. cbn in Hs.
  destruct (Forall2_lookup_l _ _ _ _ _ Hsubs Hk)
    as (n & Hn & Hc & Hn6 & Hout & Hrf & Hrecv & Hcbs & Hbnd).
  destruct Hrecv as [[Hr Hrf0] | [(Hpost & Hrf0 & Hall) | (Hr & _)]].
  - rewrite Hr in Hs. unfold receive_goroutine, receive in Hs. cbn in Hs.
    rewrite Hk in Hs. cbn in Hs.
    destruct (bool_cases (forallb finished (callbacks sb))) as [Hall | Hall];
      rewrite Hall in Hs; simplify_eq/=.
    quiet_tac Hk Hk. by left.
  - destruct (receiver sb) as [r | X a kk] eqn:Hrc; [done |].
    destruct a; try done; cbn in Hpost, Hs.
    + simplify_eq/=. quiet_tac Hk Hk. by left.
    + simplify_eq/=. quiet_tac Hk Hk. by left.
    + rewrite Hk in Hs. cbn in Hs. rewrite Hrf0 in Hs. simplify_eq/=.
      quiet_tac Hk Hk. by left.
  - by rewrite Hr in Hs.
Qed.

Lemma quiet_deliver k m s sb :
  subs s !! k = Some sb ->
  quiet s (upd_sub k (fun sb => with_callbacks (callbacks sb ++ [new_callback m]) sb) s).
Proof. intros Hk. quiet_tac Hk Hk. by left. Qed.

Lemma quiet_consumer k j st s s' : consumer k j st s = Some s' -> quiet s s'.
Proof.
  intros Hs. unfold consumer in Hs.
  destruct (subs s !! k) as [sb |] eqn:Hk; [| done]. cbn in Hs.
  destruct (callbacks sb !! j) as [cb |] eqn:Hj; [| done]. cbn in Hs.
  destruct (cb_state cb) eqn:Hst; try done.
  destruct (bool_cases (delivered j sb)) as [Hd | Hd]; rewrite Hd in Hs; simplify_eq/=.
  quiet_tac Hk Hj. by left.
Qed.

Ltac quiet_cb Hk Hj := quiet_tac Hk Hj; first [ by left | right; by eexists _, _, _ ].

Lemma quiet_step_callback k j e s s' :
  step_thread (t_callback k j) e s = Some s' -> inv s -> quiet s s'.
Proof.
  intros Hs (ns & pos & Hsubs & Hwg & Hpos & Hpast & HJ & HK).
  unfold step_thread in Hs.
  destruct (subs s !! k) as [sb |] eqn:Hk; [| done]. cbn in Hs.
  destruct (callbacks sb !! j) as [cb |] eqn:Hj; [| done]. cbn in Hs.
  destruct (Forall2_lookup_l _ _ _ _ _ Hsubs Hk) as (n & Hn & Hok).
  pose proof Hok as (Hc & Hn6 & Hout & Hrf & Hrecv & Hcbs & Hbnd).
  pose proof (Hcbs _ _ Hj) as Hcb.
  assert (Hoc : finished cb = false -> output_closed sb = false).
  { intros Hf. destruct (receiving _ _ _ Hrecv Hj Hf) as [_ Hrf0].
    rewrite Hout. apply Nat.leb_gt. destruct (decide (4 <= n)); [| lia].
    rewrite Hrf in Hrf0 by done. done. }
  destruct Hcb as [Hd Hst Ha Hcode | msg Hd Hst Ha Hu Hcode | Hd Hst Ha Hu Hcode
                  | Hd Hst Ha Hu Hcode | Hd Ha Hu Hcode | Hd Ha Hu Hor Hcode
                  | Hd Ha Hu Hst Hcode | Hd Ha Hu Hor Hcode | Hd Ha Hu Hst Hcode].
  - unfold callback in Hcode.
    destruct (Unmarshal (pubsubMsg cb)) as [msg | err] eqn:Hun;
      rewrite Hcode in Hs; cbn in Hs;
      (assert (Hf : finished cb = false) by (unfold finished; by rewrite Hcode)).
    + rewrite Hk in Hs. cbn in Hs. destruct (pick_send e).
      * destruct (bool_cases (closing s)) as [Hcg | Hcg]; rewrite Hcg in Hs; cbn in Hs;
          simplify_eq.
        quiet_cb Hk Hj.
      * rewrite (Hoc Hf) in Hs. cbn in Hs. simplify_eq. quiet_cb Hk Hj.
    + simplify_eq. quiet_cb Hk Hj.
  - rewrite Hcode in Hs. cbn in Hs. simplify_eq. quiet_cb Hk Hj.
  - rewrite Hcode in Hs. cbn in Hs. simplify_eq. quiet_cb Hk Hj.
  - by rewrite Hcode in Hs.
  - rewrite Hcode in Hs. cbn in Hs. rewrite Hk in Hs. cbn in Hs. rewrite Hj in Hs. cbn in Hs.
    destruct (pick_ack e).
    + destruct (bool_cases (closing s)) as [Hcg | Hcg]; rewrite Hcg in Hs; cbn in Hs;
        simplify_eq.
      quiet_cb Hk Hj.
    + destruct (cb_state cb) eqn:Hst; cbn in Hs; simplify_eq. quiet_cb Hk Hj.
    + destruct (cb_state cb) eqn:Hst; cbn in Hs; simplify_eq. quiet_cb Hk Hj.
  - rewrite Hcode in Hs. cbn in Hs. simplify_eq. quiet_cb Hk Hj.
  - rewrite Hcode in Hs. cbn in Hs. simplify_eq. quiet_cb Hk Hj.
  - by rewrite Hcode in Hs.
  - by rewrite Hcode in Hs.
Qed.

Lemma sub_more_closing c sb : sub_more c sb -> sub_more true sb.
Proof. intros [_ ?]. by split. Qed.

Ltac flags_tac :=
  unfold flags_ok, caller_at; cbn; split_and!; try done; try lia;
  try (intros ? [= <-] ?; first [ lia | done | eauto ]).

Lemma more_step_caller e s s' :
  step_thread t_caller e s = Some s' -> inv s -> more s ->
  more s' /\ panicked s' = panicked s /\ subs s' = subs s /\ registry s' = registry s.
Proof.
  intros Hs (ns & pos & Hsubs & Hwg & Hpos & Hpast & HJ & HK) [(Ha & Hb & Hc & Hd & He & Hf) Hmore].
  unfold step_thread in Hs. destruct pos as [| n | r]; cbn in Hpos.
  - by rewrite Hpos in Hs.
  - destruct Hpos as [Hpos Hn]. rewrite Hpos in Hs.
    assert (Hat : caller_at s = next_call (close_at n)) by (unfold caller_at; by rewrite Hpos).
    assert (Hcl2 : 2 <= n -> closed s = true) by (intros; apply Hpast; cbn; lia).
    destruct n as [| [| [| [| [| n]]]]]; cbn in Hs, Hat.
    + simplify_eq/=. split; [| done]. split; [| done].
      destruct (bool_cases (closed s)) as [Hcl | Hcl]; rewrite Hcl; cbn.
      * flags_tac.
      * destruct (Ha Hcl) as [? ?]. flags_tac.
    + simplify_eq/=. split; [| done]. split; [| done].
      destruct (Ha (Hb Hat)) as [? ?]. flags_tac.
    + assert (Hcg : closing s = false) by by apply Hc.
      assert (Hcc : client_closes s = 0) by (apply (Hd 2); [done | lia]).
      rewrite Hcg in Hs. simplify_eq/=. split; [| done]. split.
      * pose proof (Hcl2 ltac:(lia)) as Hcl. unfold flags_ok, caller_at. cbn. rewrite Hcl. flags_tac.
      * intros k sb Hk. cbn. eapply sub_more_closing. by eapply Hmore.
    + assert (Hcc : client_closes s = 0) by (apply (Hd 3); [done | lia]).
      destruct (wg s) eqn:Hw; [| done]. simplify_eq/=. split; [| done]. split; [| done].
      pose proof (Hcl2 ltac:(lia)) as Hcl. unfold flags_ok, caller_at. cbn. rewrite Hcl. flags_tac.
    + simplify_eq/=. split; [| done]. split; [| done].
      assert (Hcc : client_closes s = 0) by (apply (Hd 4); [done | lia]).
      pose proof (Hcl2 ltac:(lia)) as Hcl. unfold flags_ok, caller_at. cbn. rewrite Hcl, Hcc.
      destruct (answer_Close e); flags_tac.
    + simplify_eq/=. split; [| done]. split; [| done]. flags_tac.
  - rewrite Hpos in Hs. simplify_eq/=. split; [| done]. split; [| done]. flags_tac.
Qed.

Lemma more_call_Close s : caller s = None -> more s -> more (with_caller (Some Close) s).
Proof.
  intros Hca [(Ha & Hb & Hc & Hd & He & Hf) Hmore]. split; [| done]. flags_tac.
Qed.

Lemma more_Subscribe topic s s' :
  Subscribe topic s = Some s' -> more s ->
  more s'
  /\ (panicked s' = panicked s
      \/ closed s = false
         /\ exists w',
              exec zeroReceiveSettings
                (subscription config (SubscriptionName config topic) topic) (registry s)
              = Finished Panicked w').
Proof.
  intros Hs [(Ha & Hb & Hc & Hd & He & Hf) Hmore].
  unfold Subscribe in Hs. destruct (bool_cases (closed s)) as [Hcl | Hcl]; rewrite Hcl in Hs.
  - simplify_eq. split; [by split | by left].
  - cbv zeta in Hs. cbn [registry with_logs] in Hs.
    destruct (exec _ _ _) as [[sub [err |] |] w |] eqn:Hex; simplify_eq.
    + split; [by split | by left].
    + split; [| by left]. split; [done |]. cbn. intros k sb Hk.
      apply lookup_app_Some in Hk as [Hk | [_ Hk]]; [by eapply Hmore |].
      apply list_lookup_singleton_Some in Hk as [_ <-].
      unfold sub_more, output_ok. cbn. split_and!; [done | constructor |].
      intros j msg Hin. by apply elem_of_nil in Hin.
    + split; [by split |]. right. split; [done |]. by exists w.
Qed.

Lemma NewSubscriber_more w : more (NewSubscriber w).
Proof.
  split; [| intros k sb Hk; by cbn in Hk]. flags_tac.
Qed.

(** The step that panics, if one does: the [Subscribe] call in which
    [subscription] panics at line 257. *)
Lemma step_keeps_more mv s s' :
  step mv s = Some s' -> inv s -> more s ->
  more s'
  /\ (panicked s' = true ->
      exists topic w',
        mv = call_Subscribe topic /\ closed s = false
        /\ exec zeroReceiveSettings
             (subscription config (SubscriptionName config topic) topic) (registry s)
           = Finished Panicked w').
Proof.
  unfold step. destruct (bool_cases (panicked s)) as [Hp | Hp]; rewrite Hp; [done |].
  intros Hs Hinv Hm.
  assert (Hq : quiet s s' -> more s' /\ (panicked s' = true -> False)).
  { intros Hq. split; [by eapply more_quiet |]. destruct Hq as (Hp1 & _). congruence. }
  assert (Hquiet : quiet s s' ->
            more s'
            /\ (panicked s' = true ->
                exists topic w',
                  mv = call_Subscribe topic /\ closed s = false
                  /\ exec zeroReceiveSettings
                       (subscription config (SubscriptionName config topic) topic)
                       (registry s)
                     = Finished Panicked w')).
  { intros Hqs. destruct (Hq Hqs) as [? Hno]. split; [done |]. intros Hx. destruct (Hno Hx). }
  destruct mv as [topic | | t e | k m | k j | k j].
  - destruct (caller s) eqn:Hc; [done |].
    destruct (more_Subscribe _ _ _ Hs Hm) as [Hm' [Hp' | [Hcl [w' Hex]]]].
    + split; [done |]. rewrite Hp', Hp. intros [=].
    + split; [done |]. intros _. by exists topic, w'.
  - destruct (caller s) eqn:Hc; [done |]. simplify_eq. split; [by apply more_call_Close |].
    cbn. rewrite Hp. intros [=].
  - destruct t as [| k | k | k j].
    + destruct (more_step_caller _ _ _ Hs Hinv Hm) as (Hm' & Hp' & _).
      split; [done |]. rewrite Hp', Hp. intros [=].
    + apply Hquiet. by eapply quiet_step_receiver.
    + apply Hquiet. by eapply quiet_step_closer.
    + apply Hquiet. by eapply quiet_step_callback.
  - destruct (subs s !! k) as [sb |] eqn:Hk; [| done]. cbn in Hs.
    destruct (in_Receive (receiver sb)); [| done]. simplify_eq.
    apply Hquiet. by eapply quiet_deliver.
  - apply Hquiet. by eapply quiet_consumer.
  - apply Hquiet. by eapply quiet_consumer.
Qed.

Lemma run_keeps_more mvs s s' :
  run mvs s = Some s' -> inv s -> more s -> more s'.
Proof.
  revert s. induction mvs as [| mv mvs IH]; intros s Hr Hi Hm; simplify_eq/=; [done |].
  destruct (step mv s) as [s1 |] eqn:Hs; [| done].
  eapply IH; [done | by eapply step_keeps_inv |]. by eapply step_keeps_more.
Qed.

Lemma run_snoc mvs mv s : run (mvs ++ [mv]) s = run mvs s ≫= step mv.
Proof.
  revert s. induction mvs as [| m mvs IH]; intros s; cbn.
  - by destruct (step mv s).
  - destruct (step m s); [apply IH | done].
Qed.

Lemma reachable w mvs s :
  run mvs (NewSubscriber w) = Some s -> inv s /\ more s.
Proof.
  intros Hrun. split.
  - eapply run_keeps_inv; [done | apply NewSubscriber_inv].
  - eapply run_keeps_more; [done | apply NewSubscriber_inv | apply NewSubscriber_more].
Qed.

Lemma idle_settled s : inv s -> wg s = 0 -> settled s.
Proof.
  intros (ns & pos & Hsubs & Hwg & _) Hw0 k sb Hk.
  destruct (Forall2_lookup_l _ _ _ _ _ Hsubs Hk)
    as (n & Hn & Hc & Hn6 & Hout & Hrf & Hrecv & _).
  assert (n = 6) as ->.
  { rewrite Hw0 in Hwg. pose proof (count_open_0 ns k n (eq_sym Hwg) Hn). lia. }
  assert (Hrf1 : receiveFinished sb = true) by (apply Hrf; lia).
  destruct Hrecv as [[_ ?] | [(_ & ? & _) | (? & _ & ?)]]; try congruence.
  by split_and!.
Qed.

(** The closing goroutine of a [Subscribe] call has not returned. *)
Definition closer_running (sb : Sub) : bool :=
  match closer sb with
  | Ret _ => false
  | Vis _ _ => true
  end.

Lemma count_open_running c (l : list Sub) ns :
  Forall2 (sub_ok c) l ns -> count_open ns = length (List.filter closer_running l).
Proof.
  induction 1 as [| sb n l ns Hok _ IH]; [done |].
  destruct Hok as (Hc & Hn6 & _).
  assert (Hr : closer_running sb = (n <? 6)).
  { unfold closer_running. rewrite Hc.
    destruct n as [| [| [| [| [| [| [| n]]]]]]]; cbn; try done; lia. }
  cbn [count_open List.filter]. rewrite Hr, IH. by destruct (n <? 6).
Qed.

(** What a step is: a step of a goroutine, of the broker or of the
    consumer; a step of the caller inside [Close], or its call of [Close];
    a call of [Subscribe]. *)
Lemma step_cases mv s s' :
  step mv s = Some s' -> inv s -> more s ->
  quiet s s'
  \/ (subs s' = subs s /\ registry s' = registry s)
  \/ (exists topic, mv = call_Subscribe topic /\ caller s = None
                    /\ Subscribe topic s = Some s').
Proof.
  unfold step. destruct (panicked s); [done |]. intros Hs Hinv Hm.
  destruct mv as [topic | | t e | k m | k j | k j].
  - destruct (caller s) eqn:Hc; [done |]. right; right. by exists topic.
  - destruct (caller s) eqn:Hc; [done |]. simplify_eq. right; left. done.
  - destruct t as [| k | k | k j].
    + destruct (more_step_caller _ _ _ Hs Hinv Hm) as (_ & _ & ? & ?). right; left. done.
    + left. by eapply quiet_step_receiver.
    + left. by eapply quiet_step_closer.
    + left. by eapply quiet_step_callback.
  - destruct (subs s !! k) as [sb |] eqn:Hk; [| done]. cbn in Hs.
    destruct (in_Receive (receiver sb)); [| done]. simplify_eq.
    left. by eapply quiet_deliver.
  - left. by eapply quiet_consumer.
  - left. by eapply quiet_consumer.
Qed.

(** The registry between two calls of the caller: the lock is free, the
    cache holds no nil handle, and no [Subscribe] call was given one. *)
Definition registry_ok (s : Sys) : Prop :=
  lock_free (registry s) /\ cache_good (registry s)
  /\ forall k sb, subs s !! k = Some sb -> is_Some (sub_handle sb).

(** The channel and the goroutines of a [Subscribe] call that was given
    the handle [sub], lines 112-138. *)
Definition subscribed (sub : sub_ptr) : Sub :=
  {| sub_handle := sub; cancelled := false; receiveFinished := false;
     output_closed := false; output := []; receiver := receive_goroutine;
     closer := closer_goroutine; callbacks := [] |}.

(** The ways [Subscribe] is left on a subscriber that is not closed. *)
Definition Subscribe_outcome (topic : string) (s s' : Sys) : Prop :=
  (exists h,
     returned s' = returned s ++ [SubscribeReturned (Some (length (subs s))) None]
     /\ subs s' = subs s ++ [subscribed (Some h)]
     /\ sub_name h = SubscriptionName config topic
     /\ wg s' = S (wg s) /\ panicked s' = false)
  \/ (exists err,
        returned s' = returned s ++ [SubscribeReturned None (Some err)]
        /\ subs s' = subs s /\ wg s' = wg s /\ panicked s' = false
        /\ last (logs s') = Some "Could not obtain subscription")
  \/ (panicked s' = true /\ returned s' = returned s /\ subs s' = subs s /\ wg s' = wg s).

Lemma Subscribe_open topic s :
  closed s = false -> registry_ok s ->
  exists s', Subscribe topic s = Some s' /\ registry_ok s'
             /\ (panicked s = false -> Subscribe_outcome topic s s').
Proof.
  intros Hcl (Hl & Hg & Hh). unfold Subscribe. rewrite Hcl. cbv zeta. cbn [registry with_logs].
  destruct (subscription_total zeroReceiveSettings config (SubscriptionName config topic)
              topic (registry s) Hl) as (r & w' & He & Hl').
  destruct (subscription_keeps_cache_good _ _ _ _ _ _ _ Hl Hg He) as (Hg' & Hr).
  rewrite He. destruct r as [sub [err |] |].
  - eexists. split; [done |]. split; [by split_and! |]. intros Hp. right; left.
    exists err. cbn. split_and!; try done. by rewrite last_snoc.
  - destruct (Hr sub eq_refl) as [(h & -> & Hname) _].
    eexists. split; [done |]. split.
    + split_and!; try done. cbn. intros k sb Hk.
      apply lookup_app_Some in Hk as [Hk | [_ Hk]]; [by eapply Hh |].
      apply list_lookup_singleton_Some in Hk as [_ <-]. by eexists.
    + intros Hp. left. exists h. cbn. by split_and!.
  - eexists. split; [done |]. split; [by split_and! |]. intros Hp. right; right. done.
Qed.

Lemma registry_ok_step mv s s' :
  step mv s = Some s' -> inv s -> more s -> registry_ok s -> registry_ok s'.
Proof.
  intros Hs Hinv Hm (Hl & Hg & Hh).
  destruct (step_cases _ _ _ Hs Hinv Hm)
    as [(_ & _ & _ & _ & _ & Hreg & k & sb & sb' & Hk & (_ & Hk' & Hoth) & (Hsame & _))
       | [[Hsubs Hreg] | (topic & _ & Hca & HS)]].
  - unfold registry_ok. rewrite Hreg. split_and!; try done. intros k0 sb0 Hk0.
    destruct (decide (k0 = k)) as [-> | Hne].
    + rewrite Hk' in Hk0. simplify_eq. rewrite Hsame. by eapply Hh.
    + rewrite Hoth in Hk0 by done. by eapply Hh.
  - unfold registry_ok. by rewrite Hreg, Hsubs.
  - unfold Subscribe in HS. destruct (bool_cases (closed s)) as [Hcl | Hcl].
    + rewrite Hcl in HS. simplify_eq. done.
    + destruct (Subscribe_open topic s Hcl) as (s1 & HS1 & Hok & _); [done |].
      fold (Subscribe topic s) in HS. congruence.
Qed.

Lemma reachable_registry_ok w mvs s :
  lock_free w -> activeSubscriptions w = ∅ ->
  run mvs (NewSubscriber w) = Some s -> registry_ok s.
Proof.
  intros Hl He Hrun.
  assert (H0 : registry_ok (NewSubscriber w)).
  { split_and!; [done | | done]. intros n sub. cbn. by rewrite He. }
  pose proof (NewSubscriber_inv w) as Hi. pose proof (NewSubscriber_more w) as Hm.
  revert Hrun H0 Hi Hm. generalize (NewSubscriber w). clear.
  induction mvs as [| mv mvs IH]; intros s0 Hrun H0 Hi Hm; simplify_eq/=; [done |].
  destruct (step mv s0) as [s1 |] eqn:Hs; [| done].
  eapply IH; [done | by eapply registry_ok_step | by eapply step_keeps_inv |].
  by eapply step_keeps_more.
Qed.

(** X12. In every run from a new subscriber, the only run-time panic
    is the one of [subscription] at line 257, inside a [Subscribe] call: the
    state in which something has panicked is reached by a [Subscribe] call,
    on a subscriber that is not closed, in which [subscription] panics.
    Nothing else panics: [s.closing], [receiveFinished] and the channels
    returned are closed at most once, nothing is sent on a closed channel,
    and the wait group counter does not go below zero. The caller makes its
    calls one at a time. *)
Theorem only_panic_is_the_nil_handle w mvs s :
  run mvs (NewSubscriber w) = Some s ->
  panicked s = true ->
  exists mvs0 topic s0 w',
    mvs = mvs0 ++ [call_Subscribe topic]
    /\ run mvs0 (NewSubscriber w) = Some s0
    /\ closed s0 = false
    /\ exec zeroReceiveSettings
         (subscription config (SubscriptionName config topic) topic) (registry s0)
       = Finished Panicked w'.
Proof.
  destruct mvs as [| mv mvs0 _] using rev_ind.
  - intros [= <-]. done.
  - rewrite run_snoc. destruct (run mvs0 (NewSubscriber w)) as [s0 |] eqn:Hrun; [| done].
    cbn. intros Hs Hp. destruct (reachable _ _ _ Hrun) as [Hinv Hm].
    destruct (step_keeps_more _ _ _ Hs Hinv Hm) as [_ Hpanic].
    destruct (Hpanic Hp) as (topic & w' & -> & Hcl & Hex). by exists mvs0, topic, s0, w'.
Qed.

(** X13. In every run from a new subscriber, the Pub/Sub client is
    closed at most once, and when it has been closed, [s.closed] is set, the
    wait group counter is zero, and every goroutine of every [Subscribe] call
    has returned, with [receiveFinished] and the channel closed and every
    callback returned. *)
Theorem client_closed_once_after_all_ended w mvs s :
  run mvs (NewSubscriber w) = Some s ->
  client_closes s <= 1
  /\ (client_closes s = 1 -> closed s = true /\ wg s = 0 /\ settled s).
Proof.
  intros Hrun. destruct (reachable _ _ _ Hrun) as [Hinv [(Ha & Hb & Hc & Hd & He & Hf) _]].
  split; [done |]. intros H1.
  assert (Hcl : closed s = true).
  { destruct (bool_cases (closed s)) as [? | Hno]; [done |]. destruct (Ha Hno). lia. }
  assert (Hw : wg s = 0).
  { pose proof Hinv as (ns & pos & _ & _ & Hpos & _ & HJ & _).
    destruct (HJ Hcl) as [? | [-> | ->]]; [done | |]; destruct Hpos as [Hpos _].
    - specialize (Hd 2). unfold caller_at in Hd. rewrite Hpos in Hd. cbn in Hd.
      rewrite Hd in H1; [done | done | lia].
    - specialize (Hd 3). unfold caller_at in Hd. rewrite Hpos in Hd. cbn in Hd.
      rewrite Hd in H1; [done | done | lia]. }
  split_and!; [done | done | by apply idle_settled].
Qed.

(** X14. In every run from a new subscriber, as long as [s.closed] is
    not set (no [Close] call has got past line 148), nothing is shut down:
    [s.closing] is open, the client has not been closed, and for every
    [Subscribe] call that returned a channel, its closing goroutine is still
    at its first line, its context is not cancelled and its channel is
    open. *)
Theorem nothing_closed_before_Close w mvs s :
  run mvs (NewSubscriber w) = Some s ->
  closed s = false ->
  closing s = false /\ client_closes s = 0
  /\ forall k sb, subs s !! k = Some sb ->
       closer sb = closer_goroutine /\ cancelled sb = false /\ output_closed sb = false.
Proof.
  intros Hrun Hcl. destruct (reachable _ _ _ Hrun) as [Hinv [(Ha & _) Hmore]].
  destruct (Ha Hcl) as [Hcg Hcc]. split_and!; try done.
  intros k sb Hk. destruct (Hmore _ _ Hk) as [Hc _]. destruct (Hc Hcg) as [Hc0 Hcan].
  split_and!; try done.
  destruct Hinv as (ns & pos & Hsubs & _).
  destruct (Forall2_lookup_l _ _ _ _ _ Hsubs Hk) as (n & Hn & Hcn & Hn6 & Hout & _).
  rewrite Hcn in Hc0. apply closer_at_start in Hc0; [| done]. by subst.
Qed.

(** X15. In every run from a new subscriber, what has been sent on the
    channel of a [Subscribe] call comes from the native messages handed to
    its callback: at most one message for each native message, and that
    message is what [Unmarshal] made of the native message. *)
Theorem output_is_unmarshaled_once w mvs s k sb :
  run mvs (NewSubscriber w) = Some s ->
  subs s !! k = Some sb ->
  NoDup (output sb).*1
  /\ forall j msg, (j, msg) ∈ output sb ->
       exists cb, callbacks sb !! j = Some cb /\ Unmarshal (pubsubMsg cb) = inl msg.
Proof.
  intros Hrun Hk. destruct (reachable _ _ _ Hrun) as [_ [_ Hmore]].
  by destruct (Hmore _ _ Hk) as [_ ?].
Qed.

(** X16. In every run from a new subscriber, the wait group counter is
    the number of [Subscribe] calls whose closing goroutine has not returned:
    every [Add] of line 121 is matched by the one [Done] of line 137, and
    [Wait] returns exactly when all closing goroutines have returned. *)
Theorem wait_group_counts_running_closers w mvs s :
  run mvs (NewSubscriber w) = Some s ->
  wg s = length (List.filter closer_running (subs s)).
Proof.
  intros Hrun. destruct (reachable _ _ _ Hrun) as [(ns & pos & Hsubs & Hwg & _) _].
  rewrite Hwg. by eapply count_open_running.
Qed.

(** X17. In every run from a subscriber as [NewSubscriber] makes it
    (empty cache, lock free), no [Subscribe] call was given a nil handle,
    and a [Subscribe] call made on a subscriber that is not closed does not
    block: it returns a new channel, whose goroutines are started on a
    handle of the subscription named by [SubscriptionName] for the topic,
    after adding one to the wait group; or it returns the error of
    [subscription], after logging it, and starts nothing; or [subscription]
    panics. *)
Theorem Subscribe_returns_with_a_handle w mvs s topic :
  lock_free w -> activeSubscriptions w = ∅ ->
  run mvs (NewSubscriber w) = Some s ->
  (forall k sb, subs s !! k = Some sb -> is_Some (sub_handle sb))
  /\ (caller s = None -> panicked s = false -> closed s = false ->
      exists s', step (call_Subscribe topic) s = Some s' /\ Subscribe_outcome topic s s').
Proof.
  intros Hl He Hrun. pose proof (reachable_registry_ok _ _ _ Hl He Hrun) as Hok.
  split; [apply Hok |]. intros Hca Hp Hcl.
  destruct (Subscribe_open topic s Hcl Hok) as (s' & HS & _ & Hout).
  exists s'. split; [| by apply Hout]. unfold step. by rewrite Hp, Hca.
Qed.

(** *** Shutdown makes progress *)









(** X24. In every run from a new subscriber, every call of the receive
    callback tells the broker exactly one thing about its native message,
    and only when it returns: nothing while it runs, [Ack] or [Nack] once it
    has returned. It says [Ack] only for a message that was sent on the
    channel and that the consumer acknowledged; a native message that was
    not sent on the channel, because it could not be unmarshaled or because
    the subscriber was closing, is answered with [Nack]. *)
Theorem every_callback_answers_once w mvs s k sb j cb :
  run mvs (NewSubscriber w) = Some s ->
  subs s !! k = Some sb -> callbacks sb !! j = Some cb ->
  (finished cb = false -> cb_acks cb = [])
  /\ (finished cb = true -> cb_acks cb = [BrokerAck] \/ cb_acks cb = [BrokerNack])
  /\ (cb_acks cb = [BrokerAck] -> delivered j sb = true /\ cb_state cb = Acked)
  /\ (finished cb = true -> delivered j sb = false ->
      cb_acks cb = [BrokerNack]
      /\ (unmarshals (pubsubMsg cb) = false \/ closing s = true)).
Proof.
  intros Hrun Hk Hj.
  pose proof (reachable_callback _ _ _ _ _ _ _ Hrun Hk Hj) as Hcb.
  unfold finished.
  destruct Hcb as [Hd Hst Ha Hcode | msg Hd Hst Ha Hu Hcode | Hd Hst Ha Hu Hcode
                  | Hd Hst Ha Hu Hcode | Hd Ha Hu Hcode | Hd Ha Hu Hor Hcode
                  | Hd Ha Hu Hst Hcode | Hd Ha Hu Hor Hcode | Hd Ha Hu Hst Hcode];
    rewrite Hcode, Ha, Hd; try (unfold callback; destruct (Unmarshal (pubsubMsg cb)));
    split_and!; try done; auto.
Qed.

(** X25. In every run from a new subscriber, the channel of a
    [Subscribe] call is closed only after its receive loop has ended: when
    the channel is closed, [Close] has been called ([s.closed] and
    [s.closing] are set), [receiveFinished] is closed, the receive goroutine
    has returned and so has every call of the callback. *)
Theorem channel_closed_after_receive_ended w mvs s k sb :
  run mvs (NewSubscriber w) = Some s ->
  subs s !! k = Some sb ->
  output_closed sb = true ->
  closed s = true /\ closing s = true
  /\ receiveFinished sb = true /\ receiver sb = Ret tt /\ all_finished sb.
Proof.
  intros Hrun Hk Ho.
  destruct (reachable _ _ _ Hrun) as [Hinv [(Ha & _) Hmore]].
  destruct Hinv as (ns & pos & Hsubs & _).
  destruct (Forall2_lookup_l _ _ _ _ _ Hsubs Hk)
    as (n & Hn & Hc & Hn6 & Hout & Hrf & Hrecv & _).
  rewrite Ho in Hout. symmetry in Hout. apply Nat.leb_le in Hout.
  assert (Hcg : closing s = true).
  { destruct (bool_cases (closing s)) as [? | Hcg]; [done |]. exfalso.
    destruct (Hmore _ _ Hk) as [Hcl _]. destruct (Hcl Hcg) as [Hc0 _].
    rewrite Hc in Hc0. apply closer_at_start in Hc0; [lia | done]. }
  assert (Hcl : closed s = true).
  { destruct (bool_cases (closed s)) as [? | Hno]; [done |]. destruct (Ha Hno). congruence. }
  assert (Hrf1 : receiveFinished sb = true) by (apply Hrf; lia).
  destruct Hrecv as [[_ ?] | [(_ & ? & _) | (? & _ & ?)]]; try congruence.
  by split_and!.
Qed.

End Model.

(** A run: one [Subscribe] call; two native messages, the second one
    garbage; the first is sent on the channel and acknowledged by the
    consumer; then [Close], with each goroutine running to its end. *)
Definition unmarshal0 (m : string) : Message + error :=
  if decide (m = "garbage") then inr (errors_New "cannot unmarshal")
  else inl {| UUID := m; Payload := m; Metadata := ∅ |}.

Definition env0 : env :=
  {| answer_Close := None; answer_Receive := None;
     pick_send := send_delivered; pick_ack := ack_acked |}.

Definition new0 : @Sys nat nat string := NewSubscriber (world0 all_answered).

Definition run0 : list (@move string) -> @Sys nat nat string -> option (@Sys nat nat string) :=
  run 0 unmarshal0 (config0 false false).

Definition consumed : list (@move string) :=
  [call_Subscribe "orders"; deliver 0 "a"; deliver 0 "garbage";
   run_thread (t_callback 0 0) env0; consumer_Ack 0 0;
   run_thread (t_callback 0 0) env0; run_thread (t_callback 0 0) env0;
   run_thread (t_callback 0 1) env0; run_thread (t_callback 0 1) env0].

Definition shutdown : list (@move string) :=
  [call_Close; run_thread t_caller env0; run_thread t_caller env0; run_thread t_caller env0;
   run_thread (t_closer 0) env0; run_thread (t_closer 0) env0; run_thread (t_closer 0) env0;
   run_thread (t_receiver 0) env0; run_thread (t_receiver 0) env0;
   run_thread (t_closer 0) env0; run_thread (t_closer 0) env0; run_thread (t_closer 0) env0;
   run_thread t_caller env0; run_thread t_caller env0; run_thread t_caller env0;
   run_thread t_caller env0].

Ltac compute_run s Ho :=
  match goal with
  | |- context [run0 ?mvs new0] =>
      remember (run0 mvs new0) as o eqn:Ho; vm_compute in Ho;
      match type of Ho with _ = Some ?s0 => pose (s := s0) end;
      subst o
  end.


Lemma Close_idempotent_witness :
  exists s,
    run0 (consumed ++ shutdown) new0 = Some s
    /\ Close_returned s
    /\ caller s = None
    /\ panicked s = false
    /\ run0 [call_Close; run_thread t_caller env0; run_thread t_caller env0] s
       = Some (with_returned (returned s ++ [CloseReturned None]) s).
Proof.
  pose proof (Close_idempotent 0 unmarshal0 (config0 false false)
                (world0 all_answered) (consumed ++ shutdown)) as H.
  fold new0 in H. fold run0 in H.
  compute_run s Ho.
  assert (Hr : Close_returned s) by (exists None; apply list_elem_of_lookup; by exists 1).
  exists s. split; [reflexivity |]. split; [exact Hr |].
  split; [reflexivity |]. split; [reflexivity |].
  exact (H s env0 env0 eq_refl Hr eq_refl eq_refl).
Defined.

Lemma Subscribe_after_Close_witness :
  exists s,
    run0 (consumed ++ shutdown) new0 = Some s
    /\ Close_returned s
    /\ caller s = None
    /\ panicked s = false
    /\ step 0 unmarshal0 (config0 false false) (call_Subscribe "orders") s
       = Some (with_returned
                 (returned s ++ [SubscribeReturned None (Some ErrSubscriberClosed)]) s).
Proof.
  pose proof (Subscribe_after_Close 0 unmarshal0 (config0 false false)
                (world0 all_answered) (consumed ++ shutdown)) as H.
  fold new0 in H. fold run0 in H.
  compute_run s Ho.
  assert (Hr : Close_returned s) by (exists None; apply list_elem_of_lookup; by exists 1).
  exists s. split; [reflexivity |]. split; [exact Hr |].
  split; [reflexivity |]. split; [reflexivity |].
  exact (H s "orders" eq_refl Hr eq_refl eq_refl).
Defined.

Lemma unmarshal_failure_is_nacked_witness :
  exists s sb cb,
    run0 consumed new0 = Some s
    /\ subs s !! 0 = Some sb
    /\ callbacks sb !! 1 = Some cb
    /\ unmarshal0 (pubsubMsg cb) = inr (errors_New "cannot unmarshal")
    /\ delivered 1 sb = false
    /\ cb_acks cb = [BrokerNack].
Proof.
  pose proof (unmarshal_failure_is_nacked 0 unmarshal0 (config0 false false)
                (world0 all_answered) consumed) as H.
  fold new0 in H. fold run0 in H.
  compute_run s Ho.
  exists s. eexists _, _. split; [reflexivity |]. split; [reflexivity |].
  split; [reflexivity |]. split; [reflexivity |].
  destruct (H s 0 _ 1 _ _ eq_refl eq_refl eq_refl eq_refl) as (Hd & Hf & _).
  split; [exact Hd | exact (Hf eq_refl)].
Defined.

Lemma delivered_message_one_ack_witness :
  exists s sb cb,
    run0 consumed new0 = Some s
    /\ subs s !! 0 = Some sb
    /\ callbacks sb !! 0 = Some cb
    /\ delivered 0 sb = true
    /\ length (cb_acks cb) <= 1.
Proof.
  pose proof (delivered_message_one_ack 0 unmarshal0 (config0 false false)
                (world0 all_answered) consumed) as H.
  fold new0 in H. fold run0 in H.
  compute_run s Ho.
  exists s. eexists _, _. split; [reflexivity |]. split; [reflexivity |].
  split; [reflexivity |].
  pose proof (H s 0 _ 0 _ eq_refl eq_refl eq_refl) as Hall.
  match type of Hall with
  | ?P -> _ => assert (Hd : P) by (vm_compute; reflexivity)
  end.
  split; [exact Hd | exact (proj1 (Hall Hd))].
Defined.

(** A subscriber whose third request to the broker fails. *)
Definition new1 : @Sys nat nat string := NewSubscriber (world0 third_fails).

Lemma only_panic_is_the_nil_handle_witness :
  exists s,
    run0 [call_Subscribe "orders"] new1 = Some s
    /\ panicked s = true
    /\ exists mvs0 topic, [call_Subscribe "orders"] = mvs0 ++ [@call_Subscribe string topic].
Proof.
  pose proof (only_panic_is_the_nil_handle 0 unmarshal0 (config0 false false)
                (world0 third_fails) [call_Subscribe "orders"]) as H.
  fold new1 in H. fold run0 in H.
  remember (run0 [call_Subscribe "orders"] new1) as o eqn:Ho. vm_compute in Ho.
  match type of Ho with _ = Some ?s0 => pose (s := s0) end. subst o.
  exists s. split; [reflexivity |]. split; [reflexivity |].
  destruct (H s eq_refl eq_refl) as (mvs0 & topic & _ & _ & Hmvs & _).
  exists mvs0, topic. exact Hmvs.
Defined.

Lemma client_closed_once_after_all_ended_witness :
  exists s,
    run0 (consumed ++ shutdown) new0 = Some s
    /\ client_closes s = 1
    /\ wg s = 0.
Proof.
  pose proof (client_closed_once_after_all_ended 0 unmarshal0 (config0 false false)
                (world0 all_answered) (consumed ++ shutdown)) as H.
  fold new0 in H. fold run0 in H.
  compute_run s Ho.
  exists s. split; [reflexivity |]. split; [reflexivity |].
  destruct (H s eq_refl) as [_ Hclosed].
  exact (proj1 (proj2 (Hclosed eq_refl))).
Defined.

Lemma nothing_closed_before_Close_witness :
  exists s,
    run0 consumed new0 = Some s
    /\ closed s = false
    /\ closing s = false.
Proof.
  pose proof (nothing_closed_before_Close 0 unmarshal0 (config0 false false)
                (world0 all_answered) consumed) as H.
  fold new0 in H. fold run0 in H.
  compute_run s Ho.
  exists s. split; [reflexivity |]. split; [reflexivity |].
  exact (proj1 (H s eq_refl eq_refl)).
Defined.

Lemma output_is_unmarshaled_once_witness :
  exists s sb,
    run0 consumed new0 = Some s
    /\ subs s !! 0 = Some sb
    /\ NoDup (output sb).*1.
Proof.
  pose proof (output_is_unmarshaled_once 0 unmarshal0 (config0 false false)
                (world0 all_answered) consumed) as H.
  fold new0 in H. fold run0 in H.
  compute_run s Ho.
  exists s. eexists. split; [reflexivity |]. split; [reflexivity |].
  exact (proj1 (H s 0 _ eq_refl eq_refl)).
Defined.

Lemma wait_group_counts_running_closers_witness :
  exists s,
    run0 consumed new0 = Some s
    /\ wg s = length (List.filter closer_running (subs s)).
Proof.
  pose proof (wait_group_counts_running_closers 0 unmarshal0 (config0 false false)
                (world0 all_answered) consumed) as H.
  fold new0 in H. fold run0 in H.
  compute_run s Ho.
  exists s. split; [reflexivity |].
  exact (H s eq_refl).
Defined.

Lemma Subscribe_returns_with_a_handle_witness :
  lock_free (world0 all_answered)
  /\ activeSubscriptions (world0 all_answered) = ∅
  /\ exists s,
       run0 consumed new0 = Some s
       /\ forall k sb, subs s !! k = Some sb -> is_Some (sub_handle sb).
Proof.
  pose proof (Subscribe_returns_with_a_handle 0 unmarshal0 (config0 false false)
                (world0 all_answered) consumed) as H.
  fold new0 in H. fold run0 in H.
  compute_run s Ho.
  split; [reflexivity |]. split; [reflexivity |].
  exists s. split; [reflexivity |].
  exact (proj1 (H s "orders" eq_refl eq_refl eq_refl)).
Defined.



Lemma every_callback_answers_once_witness :
  exists s sb cb,
    run0 consumed new0 = Some s
    /\ subs s !! 0 = Some sb
    /\ callbacks sb !! 0 = Some cb
    /\ (cb_acks cb = [BrokerAck] \/ cb_acks cb = [BrokerNack]).
Proof.
  pose proof (every_callback_answers_once 0 unmarshal0 (config0 false false)
                (world0 all_answered) consumed) as H.
  fold new0 in H. fold run0 in H.
  compute_run s Ho.
  exists s. eexists _, _. split; [reflexivity |]. split; [reflexivity |].
  split; [reflexivity |].
  exact (proj1 (proj2 (H s 0 _ 0 _ eq_refl eq_refl eq_refl)) eq_refl).
Defined.

Lemma channel_closed_after_receive_ended_witness :
  exists s sb,
    run0 (consumed ++ shutdown) new0 = Some s
    /\ subs s !! 0 = Some sb
    /\ output_closed sb = true
    /\ receiver sb = Ret tt.
Proof.
  pose proof (channel_closed_after_receive_ended 0 unmarshal0 (config0 false false)
                (world0 all_answered) (consumed ++ shutdown)) as H.
  fold new0 in H. fold run0 in H.
  compute_run s Ho.
  exists s. eexists. split; [reflexivity |]. split; [reflexivity |].
  split; [reflexivity |].
  exact (proj1 (proj2 (proj2 (proj2 (H s 0 _ eq_refl eq_refl eq_refl))))).
Defined.

End Lifecycle.

(** * The Google Cloud subscriber: naming, defaults and [NewSubscriber] *)

Module Constructor.

(** Lines 50-58. *)
Definition DefaultSubscriptionName (topic : string) : string := topic.

Definition DefaultSubscriptionNameWithSuffix (suffix : string) : string -> string :=
  fun topic => topic +:+ suffix.

Lemma length_append (s1 s2 : string) :
  String.length (s1 +:+ s2) = String.length s1 + String.length s2.
Proof.
  induction s1 as [| a s1 IH]; [done |].
  change (String a s1 +:+ s2) with (String a (s1 +:+ s2)). cbn [String.length]. by rewrite IH.
Qed.

Lemma append_empty (s : string) : s +:+ "" = s.
Proof.
  induction s as [| a s IH]; [done |].
  change (String a s +:+ "") with (String a (s +:+ "")). by rewrite IH.
Qed.

(** X20. The subscription names [DefaultSubscriptionNameWithSuffix]
    gives never collide: with one suffix, two topics get the same
    subscription name only if they are the same topic. The name has the
    topic in front and the suffix behind, and [DefaultSubscriptionName] is
    the naming with the empty suffix. *)
Theorem subscription_names_do_not_collide suffix :
  (forall topic1 topic2,
     DefaultSubscriptionNameWithSuffix suffix topic1
     = DefaultSubscriptionNameWithSuffix suffix topic2 <-> topic1 = topic2)
  /\ (forall topic,
        String.length (DefaultSubscriptionNameWithSuffix suffix topic)
        = String.length topic + String.length suffix)
  /\ (forall topic,
        DefaultSubscriptionNameWithSuffix "" topic = DefaultSubscriptionName topic).
Proof.
  unfold DefaultSubscriptionNameWithSuffix, DefaultSubscriptionName. split_and!.
  - intros topic1 topic2. split; [| by intros ->]. revert topic2.
    induction topic1 as [| a s1 IH]; intros [| b s2] H.
    + done.
    + apply (f_equal String.length) in H. rewrite !length_append in H. cbn in H. lia.
    + apply (f_equal String.length) in H. rewrite !length_append in H. cbn in H. lia.
    + change (String a (s1 +:+ suffix) = String b (s2 +:+ suffix)) in H.
      injection H as -> H. f_equal. by apply IH.
  - intros topic. apply length_append.
  - intros topic. apply append_empty.
Qed.

Section Config.

Context {ReceiveSettingsT SubscriptionOptionsT NativeMsg ClientOption : Type}.
Context (zeroReceiveSettings : ReceiveSettingsT).

(** [DefaultMarshalerUnmarshaler] is declared in the package's marshaler
    file, which is not part of the sources at hand; only that it is a value
    of the [Unmarshaler] interface is used. *)
Context (DefaultMarshalerUnmarshaler : NativeMsg -> Message + error).

(** [SubscriberConfig], lines 35-46, as a caller fills it: the field of
    function type and the field of interface type may be nil ([None]). *)
Record SubscriberConfig : Type := {
  SubscriptionName : option (string -> string);
  ProjectID : string;
  DoNotCreateSubscriptionIfMissing : bool;
  DoNotCreateTopicIfMissing : bool;
  ReceiveSettings : ReceiveSettingsT;
  SubscriptionConfig : Registry.SubscriptionConfig SubscriptionOptionsT;
  ClientOptions : list ClientOption;
  Unmarshaler : option (NativeMsg -> Message + error);
}.

(** Lines 60-67. *)
Definition setDefaults (c : SubscriberConfig) : SubscriberConfig :=
  let c :=
    match SubscriptionName c with
    | None =>
        {| SubscriptionName := Some DefaultSubscriptionName;
           ProjectID := ProjectID c;
           DoNotCreateSubscriptionIfMissing := DoNotCreateSubscriptionIfMissing c;
           DoNotCreateTopicIfMissing := DoNotCreateTopicIfMissing c;
           ReceiveSettings := ReceiveSettings c;
           SubscriptionConfig := SubscriptionConfig c;
           ClientOptions := ClientOptions c;
           Unmarshaler := Unmarshaler c |}
    | Some _ => c
    end in
  match Unmarshaler c with
  | None =>
      {| SubscriptionName := SubscriptionName c;
         ProjectID := ProjectID c;
         DoNotCreateSubscriptionIfMissing := DoNotCreateSubscriptionIfMissing c;
         DoNotCreateTopicIfMissing := DoNotCreateTopicIfMissing c;
         ReceiveSettings := ReceiveSettings c;
         SubscriptionConfig := SubscriptionConfig c;
         ClientOptions := ClientOptions c;
         Unmarshaler := Some DefaultMarshalerUnmarshaler |}
  | Some _ => c
  end.

(** A connected [*pubsub.Client]: the broker it talks to and the errors
    its requests will meet. *)
Record Client : Type := {
  c_broker : Registry.Broker SubscriptionOptionsT;
  c_faults : nat -> option error;
}.

(** [pubsub.NewClient], for a project and client options. *)
Context (NewClient : string -> list ClientOption -> Client + error).

(** The subscriber [NewSubscriber] returns: its state, as [Lifecycle] has
    it, and its configuration. *)
Record Subscriber : Type := {
  state : @Lifecycle.Sys ReceiveSettingsT SubscriptionOptionsT NativeMsg;
  config : SubscriberConfig;
}.

(** Lines 69-95. *)
Definition NewSubscriber (config : SubscriberConfig) : Subscriber + error :=
  let config := setDefaults config in
  match NewClient (ProjectID config) (ClientOptions config) with
  | inr err => inr err
  | inl client =>
      inl {| state :=
               Lifecycle.NewSubscriber
                 {| Registry.activeSubscriptions := ∅;
                    Registry.activeSubscriptionsLock :=
                      {| Registry.writer := false; Registry.readers := 0 |};
                    Registry.broker := c_broker client;
                    Registry.next_handle := 0;
                    Registry.rpc_log := [];
                    Registry.faults := c_faults client |};
             config := config |}
  end.

(** The configuration as [subscription] reads it, once the naming function
    is known not to be nil. *)
Definition registry_config (name : string -> string) (c : SubscriberConfig)
    : Registry.SubscriberConfig ReceiveSettingsT SubscriptionOptionsT :=
  {| Registry.SubscriptionName := name;
     Registry.DoNotCreateSubscriptionIfMissing := DoNotCreateSubscriptionIfMissing c;
     Registry.DoNotCreateTopicIfMissing := DoNotCreateTopicIfMissing c;
     Registry.ReceiveSettings := ReceiveSettings c;
     Registry.SubscriptionConfig_ := SubscriptionConfig c |}.

Lemma setDefaults_fields c :
  SubscriptionName (setDefaults c)
  = Some (default DefaultSubscriptionName (SubscriptionName c))
  /\ Unmarshaler (setDefaults c)
     = Some (default DefaultMarshalerUnmarshaler (Unmarshaler c))
  /\ ProjectID (setDefaults c) = ProjectID c
  /\ ClientOptions (setDefaults c) = ClientOptions c
  /\ DoNotCreateSubscriptionIfMissing (setDefaults c) = DoNotCreateSubscriptionIfMissing c
  /\ DoNotCreateTopicIfMissing (setDefaults c) = DoNotCreateTopicIfMissing c
  /\ ReceiveSettings (setDefaults c) = ReceiveSettings c
  /\ SubscriptionConfig (setDefaults c) = SubscriptionConfig c.
Proof.
  unfold setDefaults. destruct c as [[f |] ? ? ? ? ? ? [u |]]; cbn; by split_and!.
Qed.

(** X21. [NewSubscriber] returns the error of [pubsub.NewClient] as it
    is, and no subscriber. Otherwise the subscriber it returns is open, has
    started nothing, has an empty cache and a free lock, talks to the client
    it connected, and has the caller's configuration with the defaults
    filled in: neither the naming function nor the unmarshaler is nil, and
    what the caller set is kept. Filling in the defaults again changes
    nothing. On this subscriber a first [Subscribe] call does not block, and
    the first thing it asks the broker is whether the subscription named by
    the naming function exists: the subscription named as the topic when
    the caller configured no naming. *)
Theorem NewSubscriber_applies_defaults raw :
  setDefaults (setDefaults raw) = setDefaults raw
  /\ match NewSubscriber raw with
     | inr err => NewClient (ProjectID raw) (ClientOptions raw) = inr err
     | inl s =>
         exists client name um,
           NewClient (ProjectID raw) (ClientOptions raw) = inl client
           /\ config s = setDefaults raw
           /\ SubscriptionName (config s) = Some name
           /\ name = default DefaultSubscriptionName (SubscriptionName raw)
           /\ Unmarshaler (config s) = Some um
           /\ um = default DefaultMarshalerUnmarshaler (Unmarshaler raw)
           /\ Lifecycle.closed (state s) = false
           /\ Lifecycle.subs (state s) = []
           /\ Lifecycle.wg (state s) = 0
           /\ Registry.lock_free (Lifecycle.registry (state s))
           /\ Registry.activeSubscriptions (Lifecycle.registry (state s)) = ∅
           /\ Registry.broker (Lifecycle.registry (state s)) = c_broker client
           /\ forall topic,
                exists s' e l,
                  Lifecycle.step zeroReceiveSettings um (registry_config name (config s))
                    (Lifecycle.call_Subscribe topic) (state s)
                  = Some s'
                  /\ Registry.rpc_log (Lifecycle.registry s')
                     = (Registry.rpc_SubscriptionExists (name topic), e) :: l
     end.
Proof.
  destruct (setDefaults_fields raw) as (Hn & Hu & Hp & Ho & _).
  split.
  { destruct (setDefaults_fields (setDefaults raw)) as (Hn2 & Hu2 & _).
    unfold setDefaults at 1. by rewrite Hn, Hu. }
  unfold NewSubscriber. rewrite Hp, Ho.
  destruct (NewClient (ProjectID raw) (ClientOptions raw)) as [client | err]; [| done].
  eexists client, _, _. cbn [state config]. split_and!; try done.
  intros topic.
  set (w0 := {| Registry.activeSubscriptions := ∅ |}).
  set (rc := registry_config _ _).
  destruct (Registry.subscription_total zeroReceiveSettings rc
              (Registry.SubscriptionName rc topic) topic w0 eq_refl) as (r & w' & He & _).
  destruct (Registry.subscription_first_request zeroReceiveSettings rc _ topic w0 r w'
              eq_refl eq_refl He) as (e & l & Hlog).
  unfold Lifecycle.step, Lifecycle.Subscribe. cbv zeta.
  cbn [Lifecycle.panicked Lifecycle.caller Lifecycle.closed Lifecycle.registry
       Lifecycle.NewSubscriber Lifecycle.with_logs].
  rewrite He. destruct r as [sub [err |] |]; eexists _, e, l; (split; [reflexivity |]);
    exact Hlog.
Qed.

End Config.

End Constructor.
